(** * Clustering of a bipartite interaction graph with controlled duplication

    A shallow embedding of [Part_one.py], [Part_two.py] and [Part_three.py]:
    the interaction index, the in-memory core-cluster builder with its
    duplication pass (mode a) and the file-backed label propagation with its
    duplication pass (mode b), followed by the properties of the
    specification that the code has, and the inputs on which it departs from
    it.

    Conventions of the embedding.
    - An entity id is a [string]; a Python [set] of ids is a duplicate-free
      [list string] kept in insertion order, and every place where the source
      iterates over a set goes through [iter], an arbitrary permutation:
      CPython does not specify the order of a set of strings, and it changes
      from one process to the next.  [random.shuffle] is [shuffle], another
      arbitrary permutation.  A run is a function of its [Order].
    - A [dict] is an association list in insertion order.  A
      [defaultdict(set)] is read with [get], which yields the empty set for
      a missing key; the source's read also stores that empty set under the
      key, which no later step observes, since the sets of all keys are
      taken before.
    - The threshold is a rational number; [float(s) / d >= t] is read as
      the comparison of the exact quotient with [t].
    - The input file is the list of its lines, an ASCII string each; a
      snapshot file is the list of its rows.
    - A loop that the source runs until a queue or a pool is empty takes
      fuel; [None] means that the fuel did not suffice, and
      [Termination.core_clusters_total] shows that the fuel the top-level
      functions give always suffices. *)

From Stdlib Require Import List String Ascii Bool Arith ZArith QArith Lia.
From Stdlib Require Import Permutation Sorted.
From Stdlib Require OrderedTypeEx.
Import ListNotations.

Close Scope Q_scope.
Open Scope string_scope.
Open Scope nat_scope.
Open Scope list_scope.

(** ** Sets and dictionaries *)

Definition mem (x : string) (s : list string) : bool :=
  existsb (String.eqb x) s.

(** [s.add(x)] *)
Definition set_add (x : string) (s : list string) : list string :=
  if mem x s then s else s ++ [x].

(** [s.discard(x)] *)
Definition discard (x : string) (s : list string) : list string :=
  filter (fun y => negb (String.eqb x y)) s.

(** [d[k]] on a [defaultdict(set)] *)
Fixpoint get (d : list (string * list string)) (k : string) : list string :=
  match d with
  | [] => []
  | (k', v) :: r => if String.eqb k k' then v else get r k
  end.

(** [d[k].add(x)] on a [defaultdict(set)] *)
Fixpoint dict_add (d : list (string * list string)) (k x : string)
  : list (string * list string) :=
  match d with
  | [] => [(k, [x])]
  | (k', v) :: r =>
      if String.eqb k k' then (k', set_add x v) :: r
      else (k', v) :: dict_add r k x
  end.

Definition keys {V : Type} (d : list (string * V)) : list string :=
  map fst d.

(** The order in which a run iterates over its sets, and the outcome of
    [random.shuffle]. *)
Record Order : Type := {
  iter : list string -> list string;
  iter_perm : forall l, Permutation (iter l) l;
  shuffle : list string -> list string;
  shuffle_perm : forall l, Permutation (shuffle l) l
}.

Definition insertion_order : Order :=
  {| iter := fun l => l;
     iter_perm := fun l => Permutation_refl l;
     shuffle := fun l => l;
     shuffle_perm := fun l => Permutation_refl l |}.

Definition reversed_order : Order :=
  {| iter := @rev string;
     iter_perm := fun l => Permutation_sym (Permutation_rev l);
     shuffle := @rev string;
     shuffle_perm := fun l => Permutation_sym (Permutation_rev l) |}.

(** ** Part one: reading the input and the interaction index *)

Module Part_one.

(** Python's [str.isspace] on the ASCII range: TAB..CR, FS..US and SPACE. *)
Definition is_space (c : ascii) : bool :=
  let n := nat_of_ascii c in
  ((9 <=? n) && (n <=? 13)) || ((28 <=? n) && (n <=? 32)).

(** [s.split()], with [cur] the token being read. *)
Fixpoint split_from (cur : option string) (s : string) : list string :=
  match s with
  | EmptyString => match cur with Some w => [w] | None => [] end
  | String c r =>
      if is_space c then
        match cur with
        | Some w => w :: split_from None r
        | None => split_from None r
        end
      else
        split_from
          (Some (match cur with
                 | Some w => String.append w (String c EmptyString)
                 | None => String c EmptyString
                 end)) r
  end.

(** [line.strip().split()]: stripping changes nothing for [split()]. *)
Definition split (line : string) : list string := split_from None line.

(** [load_transactions], on the lines of the file. *)
Fixpoint load_transactions (lines : list string) : list (string * string) :=
  match lines with
  | [] => []
  | line :: rest =>
      match split line with
      | [c; m] => (c, m) :: load_transactions rest
      | _ => load_transactions rest
      end
  end.

Definition well_formed (line : string) : bool :=
  Nat.eqb (List.length (split line)) 2.

Definition graphs : Type :=
  (list (string * list string) * list (string * list string))%type.

Definition add_interaction (g : graphs) (t : string * string) : graphs :=
  let '(c, m) := t in
  (dict_add (fst g) c m, dict_add (snd g) m c).

(** [create_interaction_graphs] *)
Definition create_interaction_graphs (transactions : list (string * string))
  : graphs :=
  fold_left add_interaction transactions ([], []).

End Part_one.

(** ** Clusters and the duplication test, shared by both modes *)

Record cluster : Type := {
  merchants : list string;
  cardholders : list string
}.

(** [{'merchants': set(), 'cardholders': set()}] *)
Definition empty_cluster : cluster := {| merchants := []; cardholders := [] |}.

Inductive entity_type : Type := C | M.

(** [cluster['cardholders'].add(e)] or [cluster['merchants'].add(e)] *)
Definition add_member (ty : entity_type) (e : string) (cl : cluster) : cluster :=
  match ty with
  | C => {| merchants := merchants cl; cardholders := set_add e (cardholders cl) |}
  | M => {| merchants := set_add e (merchants cl); cardholders := cardholders cl |}
  end.

(** The members of a cluster on the side of an entity of type [ty]. *)
Definition same_side (ty : entity_type) (cl : cluster) : list string :=
  match ty with C => cardholders cl | M => merchants cl end.

(** The members of a cluster on the side of its neighbours. *)
Definition opposite_side (ty : entity_type) (cl : cluster) : list string :=
  match ty with C => merchants cl | M => cardholders cl end.

(** [float(s) / d >= t]; every divisor the source uses is positive. *)
Definition ratio_ge (s d : nat) (t : Q) : bool :=
  Qle_bool t (Qmake (Z.of_nat s) (Pos.of_nat d)).

(** The test of the duplication heuristic. *)
Definition duplicates (secondary primary total : nat) (t : Q) : bool :=
  (0 <? secondary) && (ratio_ge secondary primary t || ratio_ge secondary total t).

(** [sorted(items, key=lambda item: item[1], reverse=True)]: Python's sort
    is stable, also with [reverse=True]. *)
Fixpoint insert_desc {K : Type} (x : K * nat) (l : list (K * nat)) : list (K * nat) :=
  match l with
  | [] => [x]
  | y :: r => if snd x <? snd y then y :: insert_desc x r else x :: y :: r
  end.

Definition sort_desc {K : Type} (l : list (K * nat)) : list (K * nat) :=
  fold_right insert_desc [] l.

(** [sorted(list(s))] on strings. *)
Fixpoint insert_str (x : string) (l : list string) : list string :=
  match l with
  | [] => [x]
  | y :: r => if String.ltb y x then y :: insert_str x r else x :: y :: r
  end.

Definition sorted_list (s : list string) : list string :=
  fold_right insert_str [] s.

Definition sorted_cluster (cl : cluster) : cluster :=
  {| merchants := sorted_list (merchants cl);
     cardholders := sorted_list (cardholders cl) |}.

(** [counts[k] += 1] on a [defaultdict(int)] or a [Counter] *)
Fixpoint incr {K : Type} (eqb : K -> K -> bool) (d : list (K * nat)) (k : K)
  : list (K * nat) :=
  match d with
  | [] => [(k, 1)]
  | (k', v) :: r =>
      if eqb k k' then (k', S v) :: r else (k', v) :: incr eqb r k
  end.

(** [counts[k]] read without inserting; 0 for a key that is absent. *)
Fixpoint count_of {K : Type} (eqb : K -> K -> bool) (d : list (K * nat)) (k : K)
  : nat :=
  match d with
  | [] => 0
  | (k', v) :: r => if eqb k k' then v else count_of eqb r k
  end.

Definition is_empty {A : Type} (l : list A) : bool :=
  match l with [] => true | _ => false end.

(** ** Part one: clusters by search *)

Module Part_one_clusters.

Import Part_one.

(** The variables of [find_clusters_simple].  A stack is the list of its
    elements from the top: [pop()] takes the head, [append(x)] puts [x]
    before it. *)
Record state : Type := {
  clusters : list cluster;
  visited_cardholders : list string;
  visited_merchants : list string;
  current_cluster_cardholders : list string;
  current_cluster_merchants : list string;
  stack_cardholders : list string;
  stack_merchants : list string
}.

Definition with_visited_cardholders (v : list string) (s : state) : state :=
  {| clusters := clusters s;
     visited_cardholders := v;
     visited_merchants := visited_merchants s;
     current_cluster_cardholders := current_cluster_cardholders s;
     current_cluster_merchants := current_cluster_merchants s;
     stack_cardholders := stack_cardholders s;
     stack_merchants := stack_merchants s |}.

Definition with_visited_merchants (v : list string) (s : state) : state :=
  {| clusters := clusters s;
     visited_cardholders := visited_cardholders s;
     visited_merchants := v;
     current_cluster_cardholders := current_cluster_cardholders s;
     current_cluster_merchants := current_cluster_merchants s;
     stack_cardholders := stack_cardholders s;
     stack_merchants := stack_merchants s |}.

Definition with_cluster_cardholders (v : list string) (s : state) : state :=
  {| clusters := clusters s;
     visited_cardholders := visited_cardholders s;
     visited_merchants := visited_merchants s;
     current_cluster_cardholders := v;
     current_cluster_merchants := current_cluster_merchants s;
     stack_cardholders := stack_cardholders s;
     stack_merchants := stack_merchants s |}.

Definition with_cluster_merchants (v : list string) (s : state) : state :=
  {| clusters := clusters s;
     visited_cardholders := visited_cardholders s;
     visited_merchants := visited_merchants s;
     current_cluster_cardholders := current_cluster_cardholders s;
     current_cluster_merchants := v;
     stack_cardholders := stack_cardholders s;
     stack_merchants := stack_merchants s |}.

Definition with_stack_cardholders (v : list string) (s : state) : state :=
  {| clusters := clusters s;
     visited_cardholders := visited_cardholders s;
     visited_merchants := visited_merchants s;
     current_cluster_cardholders := current_cluster_cardholders s;
     current_cluster_merchants := current_cluster_merchants s;
     stack_cardholders := v;
     stack_merchants := stack_merchants s |}.

Definition with_stack_merchants (v : list string) (s : state) : state :=
  {| clusters := clusters s;
     visited_cardholders := visited_cardholders s;
     visited_merchants := visited_merchants s;
     current_cluster_cardholders := current_cluster_cardholders s;
     current_cluster_merchants := current_cluster_merchants s;
     stack_cardholders := stack_cardholders s;
     stack_merchants := v |}.

(** [clusters.append(cl)] *)
Definition append_cluster (cl : cluster) (s : state) : state :=
  {| clusters := clusters s ++ [cl];
     visited_cardholders := visited_cardholders s;
     visited_merchants := visited_merchants s;
     current_cluster_cardholders := current_cluster_cardholders s;
     current_cluster_merchants := current_cluster_merchants s;
     stack_cardholders := stack_cardholders s;
     stack_merchants := stack_merchants s |}.

(** [for x in xs: stack.append(x)] *)
Definition push (xs stack : list string) : list string := rev xs ++ stack.

(** [s.update(xs)] *)
Definition update (s xs : list string) : list string :=
  fold_left (fun acc x => set_add x acc) xs s.

(** A [for] loop whose body can run out of fuel. *)
Definition for_each {A S : Type} (body : S -> A -> option S) (l : list A)
  (s : S) : option S :=
  fold_left
    (fun acc x => match acc with Some s => body s x | None => None end)
    l (Some s).

(** The number of pushes that the neighbours of the neighbours [ns] can
    cause. *)
Definition second_degree (adj : list (string * list string))
  (ns : list string) : nat :=
  list_sum (map (fun n => List.length (get adj n)) ns).

Definition total_second_degree (adj adj' : list (string * list string)) : nat :=
  list_sum (map (fun kv => second_degree adj' (snd kv)) adj).

Section Search.

Variable o : Order.
Variable cardholder_to_merchants merchant_to_cardholders
  : list (string * list string).

(** *** The search from a cardholder *)

(** The body of [for m in cardholder_to_merchants[c]]. *)
Definition add_merchant (s : state) (m : string) : state :=
  if negb (mem m (visited_merchants s)) then
    with_stack_cardholders
      (push
         (filter
            (fun connected_c => negb (mem connected_c (visited_cardholders s)))
            (iter o (get merchant_to_cardholders m)))
         (stack_cardholders s))
      (with_cluster_merchants (set_add m (current_cluster_merchants s)) s)
  else s.

(** One turn of [while stack_cardholders:], with [c] popped. *)
Definition visit_cardholder (c : string) (s : state) : state :=
  if mem c (visited_cardholders s) then s
  else
    fold_left add_merchant (iter o (get cardholder_to_merchants c))
      (with_visited_cardholders (set_add c (visited_cardholders s))
         (with_cluster_cardholders
            (set_add c (current_cluster_cardholders s)) s)).

(** [while stack_cardholders:]; [None] when the fuel is used up before the
    stack is empty. *)
Fixpoint explore_cardholders (fuel : nat) (s : state) : option state :=
  match stack_cardholders s with
  | [] => Some s
  | c :: rest =>
      match fuel with
      | O => None
      | S fuel' =>
          explore_cardholders fuel'
            (visit_cardholder c (with_stack_cardholders rest s))
      end
  end.

(** The body of [for c_connected_to_m in merchant_to_cardholders[m]]. *)
Definition pull_cardholder (s : state) (c_connected_to_m : string) : state :=
  if negb (mem c_connected_to_m (visited_cardholders s)) then
    with_stack_cardholders (c_connected_to_m :: stack_cardholders s)
      (with_visited_cardholders
         (set_add c_connected_to_m (visited_cardholders s))
         (with_cluster_cardholders
            (set_add c_connected_to_m (current_cluster_cardholders s)) s))
  else s.

(** One turn of the [while stack_merchants:] that follows, with [m]
    popped. *)
Definition mark_merchant (s : state) (m : string) : state :=
  if mem m (visited_merchants s) then s
  else
    fold_left pull_cardholder (iter o (get merchant_to_cardholders m))
      (with_visited_merchants (set_add m (visited_merchants s)) s).

(** [stack_merchants = list(current_cluster_merchants)] and the [while]
    loop over it.  No turn pushes on this stack, so the loop takes the
    merchants of the list one by one, the last first, and leaves the stack
    empty. *)
Definition mark_merchants (s : state) : state :=
  with_stack_merchants []
    (fold_left mark_merchant (rev (iter o (current_cluster_merchants s))) s).

(** [final_merchants_in_cluster] *)
Definition final_merchants_in_cluster (s : state) : list string :=
  fold_left
    (fun final c => update final (iter o (get cardholder_to_merchants c)))
    (iter o (current_cluster_cardholders s)) [].

(** The body of [for start_cardholder in all_cardholders]. *)
Definition from_cardholder (fuel : nat) (s : state) (start_cardholder : string)
  : option state :=
  if mem start_cardholder (visited_cardholders s) then Some s
  else
    match explore_cardholders fuel
            (with_stack_cardholders [start_cardholder]
               (with_cluster_merchants []
                  (with_cluster_cardholders [] s))) with
    | None => None
    | Some s1 =>
        let s2 := mark_merchants s1 in
        if negb (is_empty (current_cluster_cardholders s2))
           || negb (is_empty (current_cluster_merchants s2))
        then
          Some (append_cluster
                  {| merchants :=
                       sorted_list (iter o (final_merchants_in_cluster s2));
                     cardholders :=
                       sorted_list (iter o (current_cluster_cardholders s2)) |}
                  s2)
        else Some s2
    end.

(** *** The search from a merchant *)

(** The body of [for c in merchant_to_cardholders[m]]. *)
Definition add_cardholder (s : state) (c : string) : state :=
  if negb (mem c (visited_cardholders s)) then
    with_stack_merchants
      (push
         (filter
            (fun connected_m => negb (mem connected_m (visited_merchants s)))
            (iter o (get cardholder_to_merchants c)))
         (stack_merchants s))
      (with_cluster_cardholders (set_add c (current_cluster_cardholders s)) s)
  else s.

(** One turn of the last [while stack_merchants:], with [m] popped. *)
Definition visit_merchant (m : string) (s : state) : state :=
  if mem m (visited_merchants s) then s
  else
    fold_left add_cardholder (iter o (get merchant_to_cardholders m))
      (with_visited_merchants (set_add m (visited_merchants s))
         (with_cluster_merchants
            (set_add m (current_cluster_merchants s)) s)).

Fixpoint explore_merchants (fuel : nat) (s : state) : option state :=
  match stack_merchants s with
  | [] => Some s
  | m :: rest =>
      match fuel with
      | O => None
      | S fuel' =>
          explore_merchants fuel'
            (visit_merchant m (with_stack_merchants rest s))
      end
  end.

(** [final_cardholders_in_cluster] *)
Definition final_cardholders_in_cluster (s : state) : list string :=
  fold_left
    (fun final m => update final (iter o (get merchant_to_cardholders m)))
    (iter o (current_cluster_merchants s)) [].

(** The body of [for start_merchant in all_merchants]. *)
Definition from_merchant (fuel : nat) (s : state) (start_merchant : string)
  : option state :=
  if negb (mem start_merchant (visited_merchants s)) then
    match explore_merchants fuel
            (with_stack_merchants [start_merchant]
               (with_cluster_merchants []
                  (with_cluster_cardholders [] s))) with
    | None => None
    | Some s1 =>
        if negb (is_empty (current_cluster_cardholders s1))
           || negb (is_empty (current_cluster_merchants s1))
        then
          Some (append_cluster
                  {| merchants :=
                       sorted_list (iter o (current_cluster_merchants s1));
                     cardholders :=
                       sorted_list (iter o (final_cardholders_in_cluster s1)) |}
                  s1)
        else Some s1
    end
  else Some s.

(** The first [for] loop, over the cardholders. *)
Definition cardholder_pass (s : state) : option state :=
  for_each
    (from_cardholder
       (1 + total_second_degree cardholder_to_merchants merchant_to_cardholders))
    (iter o (keys cardholder_to_merchants)) s.

(** The second [for] loop, over the merchants. *)
Definition merchant_pass (s : state) : option state :=
  for_each
    (from_merchant
       (1 + total_second_degree merchant_to_cardholders cardholder_to_merchants))
    (iter o (keys merchant_to_cardholders)) s.

End Search.

Definition initial_state : state :=
  {| clusters := [];
     visited_cardholders := [];
     visited_merchants := [];
     current_cluster_cardholders := [];
     current_cluster_merchants := [];
     stack_cardholders := [];
     stack_merchants := [] |}.

(** [find_clusters_simple]; the fuel of a search is an upper bound on the
    number of its pushes. *)
Definition find_clusters_simple (o : Order)
  (transactions : list (string * string)) : option (list cluster) :=
  let g := create_interaction_graphs transactions in
  match cardholder_pass o (fst g) (snd g) initial_state with
  | None => None
  | Some s1 =>
      match merchant_pass o (fst g) (snd g) s1 with
      | None => None
      | Some s2 => Some (clusters s2)
      end
  end.

End Part_one_clusters.

(** ** Part two: core clusters and duplication in memory (mode a) *)

Module Part_two.

Import Part_one.

(** [entity_to_core_cluster_id] *)
Fixpoint core_get (d : list (string * nat)) (e : string) : option nat :=
  match d with
  | [] => None
  | (k, v) :: r => if String.eqb e k then Some v else core_get r e
  end.

(** [entity_to_core_cluster_id[e] = id] *)
Fixpoint core_set (d : list (string * nat)) (e : string) (id : nat)
  : list (string * nat) :=
  match d with
  | [] => [(e, id)]
  | (k, v) :: r =>
      if String.eqb e k then (k, id) :: r else (k, v) :: core_set r e id
  end.

(** [e in entity_to_core_cluster_id and entity_to_core_cluster_id[e] != id] *)
Definition core_elsewhere (d : list (string * nat)) (e : string) (id : nat) : bool :=
  match core_get d e with
  | Some k => negb (Nat.eqb k id)
  | None => false
  end.

(** The variables the construction of one cluster reads and writes. *)
Record bfs_state : Type := {
  queue : list string;
  current_cluster_merchants : list string;
  current_cluster_cardholders : list string;
  entity_to_core_cluster_id : list (string * nat);
  unassigned_cardholders : list string;
  unassigned_merchants : list string
}.

Section Core.

Variable o : Order.
Variable cardholder_to_merchants merchant_to_cardholders : list (string * list string).

(** One turn of [while queue:], for the cluster [current_cluster_id]. *)
Definition bfs_step (current_cluster_id : nat) (entity : string) (st : bfs_state)
  : bfs_state :=
  let core := entity_to_core_cluster_id st in
  if prefix "C" entity then
    if core_elsewhere core entity current_cluster_id then st
    else if negb (mem entity (current_cluster_cardholders st)) then
      let assign := mem entity (unassigned_cardholders st) in
      {| queue :=
           queue st ++
           filter (fun merchant => negb (mem merchant (current_cluster_merchants st)))
                  (iter o (get cardholder_to_merchants entity));
         current_cluster_merchants := current_cluster_merchants st;
         current_cluster_cardholders := set_add entity (current_cluster_cardholders st);
         entity_to_core_cluster_id :=
           if assign then core_set core entity current_cluster_id else core;
         unassigned_cardholders :=
           if assign then discard entity (unassigned_cardholders st)
           else unassigned_cardholders st;
         unassigned_merchants := unassigned_merchants st |}
    else st
  else if prefix "M" entity then
    if core_elsewhere core entity current_cluster_id then st
    else if negb (mem entity (current_cluster_merchants st)) then
      let assign := mem entity (unassigned_merchants st) in
      {| queue :=
           queue st ++
           filter (fun cardholder => negb (mem cardholder (current_cluster_cardholders st)))
                  (iter o (get merchant_to_cardholders entity));
         current_cluster_merchants := set_add entity (current_cluster_merchants st);
         current_cluster_cardholders := current_cluster_cardholders st;
         entity_to_core_cluster_id :=
           if assign then core_set core entity current_cluster_id else core;
         unassigned_cardholders := unassigned_cardholders st;
         unassigned_merchants :=
           if assign then discard entity (unassigned_merchants st)
           else unassigned_merchants st |}
    else st
  else st.

Definition with_queue (q : list string) (st : bfs_state) : bfs_state :=
  {| queue := q;
     current_cluster_merchants := current_cluster_merchants st;
     current_cluster_cardholders := current_cluster_cardholders st;
     entity_to_core_cluster_id := entity_to_core_cluster_id st;
     unassigned_cardholders := unassigned_cardholders st;
     unassigned_merchants := unassigned_merchants st |}.

(** [while queue: entity = queue.popleft(); ...]; [None] when the fuel is
    used up before the queue is empty. *)
Fixpoint bfs (fuel : nat) (current_cluster_id : nat) (st : bfs_state)
  : option bfs_state :=
  match queue st with
  | [] => Some st
  | entity :: rest =>
      match fuel with
      | O => None
      | S fuel' =>
          bfs fuel' current_cluster_id
              (bfs_step current_cluster_id entity (with_queue rest st))
      end
  end.

(** The scan of [start_candidates] for a seed. *)
Definition is_seed (un_c un_m : list string) (entity : string) : bool :=
  if prefix "C" entity && mem entity un_c then true
  else prefix "M" entity && mem entity un_m.

(** The state of [while unassigned_cardholders or unassigned_merchants:]. *)
Record core_state : Type := {
  clusters : list cluster;
  core_ids : list (string * nat);
  un_c : list string;
  un_m : list string
}.

(** The core-cluster loop; [None] when the fuel is used up. *)
Fixpoint core_loop (fuel bfs_fuel : nat) (start_candidates : list string)
  (st : core_state) : option core_state :=
  if is_empty (un_c st) && is_empty (un_m st) then Some st
  else
    match find (is_seed (un_c st) (un_m st)) start_candidates with
    | None => Some st
    | Some current_seed =>
        match fuel with
        | O => None
        | S fuel' =>
            let current_cluster_id := List.length (clusters st) in
            match bfs bfs_fuel current_cluster_id
                      {| queue := [current_seed];
                         current_cluster_merchants := [];
                         current_cluster_cardholders := [];
                         entity_to_core_cluster_id := core_ids st;
                         unassigned_cardholders := un_c st;
                         unassigned_merchants := un_m st |} with
            | None => None
            | Some b =>
                let grown :=
                  negb (is_empty (current_cluster_merchants b))
                  || negb (is_empty (current_cluster_cardholders b)) in
                core_loop fuel' bfs_fuel start_candidates
                  {| clusters :=
                       if grown then
                         clusters st ++
                         [ {| merchants := current_cluster_merchants b;
                              cardholders := current_cluster_cardholders b |} ]
                       else clusters st;
                     core_ids := entity_to_core_cluster_id b;
                     un_c := unassigned_cardholders b;
                     un_m := unassigned_merchants b |}
            end
        end
    end.

End Core.

(** *** The duplication phase *)

Definition enumerate {A : Type} (l : list A) : list (nat * A) :=
  combine (seq 0 (List.length l)) l.

(** [final_clusters[i][side].add(e)]; every index the source uses comes from
    [enumerate(final_clusters)], so it is in range. *)
Fixpoint update_at (i : nat) (f : cluster -> cluster) (l : list cluster)
  : list cluster :=
  match l, i with
  | [], _ => []
  | x :: r, O => f x :: r
  | x :: r, S j => x :: update_at j f r
  end.

(** The inner [for i, cluster in enumerate(final_clusters)] for one
    neighbour. *)
Definition count_neighbour (ty : entity_type) (final_clusters : list cluster)
  (counts : list (nat * nat)) (connected_entity : string) : list (nat * nat) :=
  fold_left
    (fun counts ic =>
       if mem connected_entity (opposite_side ty (snd ic))
       then incr Nat.eqb counts (fst ic) else counts)
    (enumerate final_clusters) counts.

(** [cluster_interaction_counts] of one entity. *)
Definition interaction_counts (ty : entity_type) (final_clusters : list cluster)
  (neighbours : list string) : list (nat * nat) :=
  fold_left (count_neighbour ty final_clusters) neighbours [].

(** The loop [for i in range(1, len(sorted_clusters_by_interaction))]. *)
Definition duplicate_into (t : Q) (ty : entity_type) (entity_id : string)
  (primary_interactions total_interactions : nat)
  (final_clusters : list cluster) (secondary : nat * nat) : list cluster :=
  if duplicates (snd secondary) primary_interactions total_interactions t
  then update_at (fst secondary) (add_member ty entity_id) final_clusters
  else final_clusters.

Section Duplication.

Variable o : Order.
Variable duplication_threshold_ratio : Q.

(** The body of [for entity_id in all_entities]. *)
Definition duplicate_entity (ty : entity_type)
  (interaction_map : list (string * list string))
  (final_clusters : list cluster) (entity_id : string) : list cluster :=
  let neighbours := get interaction_map entity_id in
  if is_empty neighbours then final_clusters
  else
    match sort_desc (interaction_counts ty final_clusters (iter o neighbours)) with
    | [] => final_clusters
    | (primary_cluster_id, primary_interactions) :: others =>
        let total_interactions := List.length neighbours in
        fold_left
          (duplicate_into duplication_threshold_ratio ty entity_id
             primary_interactions total_interactions)
          others
          (update_at primary_cluster_id (add_member ty entity_id) final_clusters)
    end.

(** The duplication phase, cardholders first and merchants second. *)
Definition duplication_phase
  (cardholder_to_merchants merchant_to_cardholders : list (string * list string))
  (clusters : list cluster) : list cluster :=
  let all_cardholders := keys cardholder_to_merchants in
  let all_merchants := keys merchant_to_cardholders in
  let after_c :=
    fold_left (duplicate_entity C cardholder_to_merchants)
              (iter o all_cardholders) clusters in
  fold_left (duplicate_entity M merchant_to_cardholders)
            (iter o all_merchants) after_c.

(** [sorted(all, key=lambda e: len(adj[e]), reverse=True)] *)
Definition sorted_by_degree (adj : list (string * list string))
  (all : list string) : list string :=
  map fst (sort_desc (map (fun e => (e, List.length (get adj e))) (iter o all))).

Definition total_degree (adj : list (string * list string)) : nat :=
  list_sum (map (fun kv => List.length (snd kv)) adj).

(** The core-cluster formation of [find_clusters_with_duplication]: the
    state when the [while] loop is left.  The fuel is an upper bound on the
    number of turns of each loop. *)
Definition core_clusters (transactions : list (string * string))
  : option core_state :=
  let g := create_interaction_graphs transactions in
  let cardholder_to_merchants := fst g in
  let merchant_to_cardholders := snd g in
  let all_cardholders := keys cardholder_to_merchants in
  let all_merchants := keys merchant_to_cardholders in
  let sorted_cardholders := sorted_by_degree cardholder_to_merchants all_cardholders in
  let sorted_merchants := sorted_by_degree merchant_to_cardholders all_merchants in
  let start_candidates := shuffle o (sorted_cardholders ++ sorted_merchants) in
  core_loop o cardholder_to_merchants merchant_to_cardholders
    (List.length all_cardholders + List.length all_merchants)
    (1 + total_degree cardholder_to_merchants + total_degree merchant_to_cardholders)
    start_candidates
    {| clusters := []; core_ids := [];
       un_c := all_cardholders; un_m := all_merchants |}.

(** [find_clusters_with_duplication] *)
Definition find_clusters_with_duplication (transactions : list (string * string))
  : option (list cluster) :=
  let g := create_interaction_graphs transactions in
  match core_clusters transactions with
  | None => None
  | Some st =>
      Some (map sorted_cluster (duplication_phase (fst g) (snd g) (clusters st)))
  end.

End Duplication.

End Part_two.

(** ** Part three: label propagation through snapshot files (mode b)

    A snapshot file [entity_cluster_id_k.csv] is the list of its rows, in
    the order they are written; [csv.writer] and [csv.reader] give back the
    rows that were written. *)

Module Part_three.

Import Part_one.

(** What a run does: it ends, or the unpacking [c, m = ...] of a line that
    has not exactly two tokens raises [ValueError]. *)
Inductive outcome (A : Type) : Type :=
  | Finished (a : A)
  | ValueError.

Arguments Finished {A} a.
Arguments ValueError {A}.

Record phase1 : Type := {
  all_unique_entities : list string;
  cardholder_neighbors_tmp : list (string * list string);
  merchant_neighbors_tmp : list (string * list string)
}.

(** The loop over the lines of the input file. *)
Fixpoint read_input (lines : list string) (st : phase1) : outcome phase1 :=
  match lines with
  | [] => Finished st
  | line :: rest =>
      match split line with
      | [c; m] =>
          read_input rest
            {| all_unique_entities := set_add m (set_add c (all_unique_entities st));
               cardholder_neighbors_tmp := dict_add (cardholder_neighbors_tmp st) c m;
               merchant_neighbors_tmp := dict_add (merchant_neighbors_tmp st) m c |}
      | _ => ValueError
      end
  end.

Definition snapshot : Type := list (string * string).

(** [d[k] = v] on a plain dict *)
Fixpoint snap_set (d : snapshot) (k v : string) : snapshot :=
  match d with
  | [] => [(k, v)]
  | (k', v') :: r =>
      if String.eqb k k' then (k', v) :: r else (k', v') :: snap_set r k v
  end.

(** [d.get(k)] *)
Fixpoint snap_get (d : snapshot) (k : string) : option string :=
  match d with
  | [] => None
  | (k', v) :: r => if String.eqb k k' then Some v else snap_get r k
  end.

(** Reading a snapshot file into [current_entity_clusters]. *)
Definition read_snapshot (rows : snapshot) : snapshot :=
  fold_left (fun d row => snap_set d (fst row) (snd row)) rows [].

Definition tally : Type := list (string * nat).

(** [new_cluster_votes[e][label] += 1] on a [defaultdict(Counter)] *)
Fixpoint vote (v : list (string * tally)) (e label : string)
  : list (string * tally) :=
  match v with
  | [] => [(e, [(label, 1)])]
  | (k, cnt) :: r =>
      if String.eqb e k then (k, incr String.eqb cnt label) :: r
      else (k, cnt) :: vote r e label
  end.

(** [new_cluster_votes[e]], empty for an entity without votes. *)
Fixpoint votes_of (v : list (string * tally)) (e : string) : tally :=
  match v with
  | [] => []
  | (k, cnt) :: r => if String.eqb e k then cnt else votes_of r e
  end.

(** [votes.most_common(1)[0][0]]: [heapq.nlargest(1, ...)] is [max], which
    keeps the first of the entries with the highest count.  Every counter
    of the source holds the self vote, so it is never empty. *)
Definition most_common (votes : tally) : string :=
  match votes with
  | [] => ""
  | x :: r =>
      fst (fold_left (fun best y => if snd best <? snd y then y else best) r x)
  end.

Section Propagation.

Variable o : Order.

(** [if n in current_entity_clusters:
      new_cluster_votes[e][current_entity_clusters[n]] += 1] *)
Definition neighbour_vote (current : snapshot) (e : string)
  (v : list (string * tally)) (n : string) : list (string * tally) :=
  match snap_get current n with
  | Some l => vote v e l
  | None => v
  end.

(** The votes one entity collects: the self vote, then one vote for each
    neighbour that has an entry in the snapshot. *)
Definition collect (current : snapshot) (v : list (string * tally))
  (entry : string * list string) : list (string * tally) :=
  let e := fst entry in
  let current_cluster :=
    match snap_get current e with Some l => l | None => e end in
  fold_left (neighbour_vote current e) (iter o (snd entry))
    (vote v e current_cluster).

(** [new_cluster_votes] after the loop over the cardholders and the loop
    over the merchants. *)
Definition new_cluster_votes (p : phase1) (current : snapshot)
  : list (string * tally) :=
  fold_left (collect current) (merchant_neighbors_tmp p)
    (fold_left (collect current) (cardholder_neighbors_tmp p) []).

(** One iteration: from the rows of one snapshot file to the rows of the
    next. *)
Definition propagate (p : phase1) (rows : snapshot) : snapshot :=
  map (fun ev => (fst ev, most_common (snd ev)))
      (new_cluster_votes p (read_snapshot rows)).

(** [entity_cluster_id_0.csv] *)
Definition initial_snapshot (p : phase1) : snapshot :=
  map (fun e => (e, e)) (iter o (all_unique_entities p)).

(** The snapshot file after [k] iterations. *)
Fixpoint snapshot_after (p : phase1) (k : nat) : snapshot :=
  match k with
  | O => initial_snapshot p
  | S k' => propagate p (snapshot_after p k')
  end.

(** [for iteration in range(num_iterations)]: no turn for
    [num_iterations <= 0]. *)
Definition last_snapshot (p : phase1) (num_iterations : Z) : snapshot :=
  snapshot_after p (Z.to_nat num_iterations).

End Propagation.

(** *** Aggregation and duplication *)

(** [aggregated_clusters[id][side].add(e)] on the [defaultdict] of
    clusters. *)
Fixpoint agg_add (d : list (string * cluster)) (id : string)
  (ty : entity_type) (e : string) : list (string * cluster) :=
  match d with
  | [] => [(id, add_member ty e empty_cluster)]
  | (k, cl) :: r =>
      if String.eqb id k then (k, add_member ty e cl) :: r
      else (k, cl) :: agg_add r id ty e
  end.

(** [aggregated_clusters[id]] read without inserting. *)
Fixpoint agg_get (d : list (string * cluster)) (id : string) : cluster :=
  match d with
  | [] => empty_cluster
  | (k, cl) :: r => if String.eqb id k then cl else agg_get r id
  end.

(** Core assignment: each entity goes to the cluster of its label, on the
    side its id tells. *)
Definition core_assign (d : list (string * cluster)) (row : string * string)
  : list (string * cluster) :=
  if prefix "C" (fst row) then agg_add d (snd row) C (fst row)
  else agg_add d (snd row) M (fst row).

Definition aggregate (final_entity_clusters : snapshot) : list (string * cluster) :=
  fold_left core_assign final_entity_clusters [].

(** [cluster_interaction_counts] of one entity: one count for the label of
    each neighbour that has an entry in the final snapshot. *)
Definition label_counts (final_entity_clusters : snapshot)
  (neighbours : list string) : tally :=
  fold_left
    (fun counts n =>
       match snap_get final_entity_clusters n with
       | Some id => incr String.eqb counts id
       | None => counts
       end)
    neighbours [].

Definition duplicate_into (t : Q) (ty : entity_type) (entity_id : string)
  (primary_interactions total_interactions : nat)
  (aggregated : list (string * cluster)) (secondary : string * nat)
  : list (string * cluster) :=
  if duplicates (snd secondary) primary_interactions total_interactions t
  then agg_add aggregated (fst secondary) ty entity_id
  else aggregated.

Section Duplication.

Variable o : Order.
Variable duplication_threshold_ratio : Q.

(** The body of [for entity_id, connected_entities_set in ...items()]. *)
Definition duplicate_entity (final_entity_clusters : snapshot)
  (ty : entity_type) (aggregated : list (string * cluster))
  (entry : string * list string) : list (string * cluster) :=
  let entity_id := fst entry in
  let connected_entities_set := snd entry in
  if is_empty connected_entities_set then aggregated
  else
    match sort_desc (label_counts final_entity_clusters
                       (iter o connected_entities_set)) with
    | [] => aggregated
    | (primary_cluster_id, primary_interactions) :: others =>
        let total_interactions := List.length connected_entities_set in
        fold_left
          (duplicate_into duplication_threshold_ratio ty entity_id
             primary_interactions total_interactions)
          others aggregated
    end.

Definition duplication_phase (p : phase1) (final_entity_clusters : snapshot)
  (aggregated : list (string * cluster)) : list (string * cluster) :=
  fold_left (duplicate_entity final_entity_clusters M)
    (merchant_neighbors_tmp p)
    (fold_left (duplicate_entity final_entity_clusters C)
       (cardholder_neighbors_tmp p) aggregated).

Record run : Type := {
  final_snapshot : snapshot;
  aggregated_clusters : list (string * cluster);
  final_clusters : list (string * cluster)
}.

Definition no_input : phase1 :=
  {| all_unique_entities := [];
     cardholder_neighbors_tmp := [];
     merchant_neighbors_tmp := [] |}.

(** [process_large_dataset_batch], on the lines of the input file: the last
    snapshot file, the clusters before duplication and the clusters written
    to [final_clusters.txt] (their members sorted). *)
Definition process_large_dataset_batch (lines : list string)
  (num_iterations : Z) : outcome run :=
  match read_input lines no_input with
  | ValueError => ValueError
  | Finished p =>
      let rows := last_snapshot o p num_iterations in
      let final_entity_clusters := read_snapshot rows in
      let aggregated := aggregate final_entity_clusters in
      let duplicated := duplication_phase p final_entity_clusters aggregated in
      Finished
        {| final_snapshot := rows;
           aggregated_clusters := aggregated;
           final_clusters :=
             map (fun kc => (fst kc, sorted_cluster (snd kc))) duplicated |}
  end.

End Duplication.

End Part_three.

(** ** Notions used to state the properties *)

(** Every member of [cl] is a member of [cl'], on its side. *)
Definition cluster_le (cl cl' : cluster) : Prop :=
  incl (merchants cl) (merchants cl') /\ incl (cardholders cl) (cardholders cl').

(** The clusters have the same members. *)
Definition cluster_eq (cl cl' : cluster) : Prop :=
  cluster_le cl cl' /\ cluster_le cl' cl.


(** Every cluster id of [d] is one of [d'], with at least the members it
    has in [d]. *)
Definition agg_le (d d' : list (string * cluster)) : Prop :=
  forall id : string,
    cluster_le (Part_three.agg_get d id) (Part_three.agg_get d' id)
    /\ (In id (keys d) -> In id (keys d')).

(** *** The vote tally in the words of the specification *)

(** The label an entity holds in a snapshot; the source takes the entity's
    own id when it has no entry. *)
Definition self_label (current : Part_three.snapshot) (e : string) : string :=
  match Part_three.snap_get current e with Some l => l | None => e end.

(** The neighbour [n] has an entry in the snapshot, with the label [L]. *)
Definition holds (current : Part_three.snapshot) (L n : string) : bool :=
  match Part_three.snap_get current n with
  | Some l => String.eqb l L
  | None => false
  end.

(** One self vote for the entity's label and one vote for the label of each
    neighbour that has an entry. *)
Definition spec_tally (current : Part_three.snapshot) (e : string)
  (neighbours : list string) (L : string) : nat :=
  (if String.eqb (self_label current e) L then 1 else 0)
  + List.length (filter (holds current L) neighbours).


(** The neighbours of an entity, on whichever side it is. *)
Definition neighbours (p : Part_three.phase1) (e : string) : list string :=
  get (Part_three.cardholder_neighbors_tmp p) e
  ++ get (Part_three.merchant_neighbors_tmp p) e.


(** The counters of the source have one entry for a label, with a positive
    count. *)
Definition good_votes (v : list (string * Part_three.tally)) : Prop :=
  forall e, NoDup (map fst (Part_three.votes_of v e))
            /\ Forall (fun kv => 0 < snd kv) (Part_three.votes_of v e).

(** The shape of what the first phase of mode (b) collects: the entities
    are the keys of the two adjacency dictionaries, each listed once. *)
Definition phase1_ok (p : Part_three.phase1) : Prop :=
  NoDup (Part_three.all_unique_entities p)
  /\ NoDup (keys (Part_three.cardholder_neighbors_tmp p))
  /\ NoDup (keys (Part_three.merchant_neighbors_tmp p))
  /\ forall e, In e (Part_three.all_unique_entities p)
               <-> In e (keys (Part_three.cardholder_neighbors_tmp p))
                   \/ In e (keys (Part_three.merchant_neighbors_tmp p)).

(** Every label of the snapshot is the id of its entity. *)
Definition own_labels (current : Part_three.snapshot) : Prop :=
  forall n l, Part_three.snap_get current n = Some l -> l = n.

(** The first vote of every counter is the self vote. *)
Definition self_first (current : Part_three.snapshot)
  (v : list (string * Part_three.tally)) : Prop :=
  forall e, match Part_three.votes_of v e with
            | [] => True
            | (k, _) :: _ => k = self_label current e
            end.

(** The values of an adjacency dictionary are sets. *)
Definition sets_ok (d : list (string * list string)) : Prop :=
  Forall (fun kv => NoDup (snd kv)) d.

(** *** The interaction counts in the words of the specification *)

(** The neighbour [n] is a member of the cluster of index [i], on the side
    opposite to an entity of type [ty]. *)
Definition member_at (ty : entity_type) (fc : list cluster) (i : nat)
  (n : string) : bool :=
  match nth_error fc i with
  | Some cl => mem n (opposite_side ty cl)
  | None => false
  end.

(** The number of neighbours that are members of the cluster of index
    [i]. *)
Definition interactions_with (ty : entity_type) (fc : list cluster)
  (neighbours : list string) (i : nat) : nat :=
  List.length (filter (member_at ty fc i) neighbours).



(** *** Measures and invariants of the core-cluster loops *)

(** The adjacency entries of the entities not yet in [cur]. *)
Definition pending (adj : list (string * list string)) (cur : list string) : nat :=
  list_sum (map (fun kv => if mem (fst kv) cur then 0 else List.length (snd kv)) adj).

(** An upper bound on the turns the loop over the queue still makes. *)
Definition potential (c2m m2c : list (string * list string))
  (b : Part_two.bfs_state) : nat :=
  List.length (Part_two.queue b)
  + pending c2m (Part_two.current_cluster_cardholders b)
  + pending m2c (Part_two.current_cluster_merchants b).

(** An entity that can still be taken as a seed has no core cluster. *)
Definition seeds_fresh (core : list (string * nat)) (un_c un_m : list string)
  : Prop :=
  forall e,
    (prefix "C" e = true -> In e un_c -> Part_two.core_get core e = None)
    /\ (prefix "C" e = false -> prefix "M" e = true -> In e un_m ->
        Part_two.core_get core e = None).

(** *** Ids that follow the convention of the source *)

(** Mode (a) tells the side of an entity from its id: the id of a
    cardholder starts with C and the id of a merchant with M. *)
Definition ids_ok (txs : list (string * string)) : Prop :=
  forall c m, In (c, m) txs -> prefix "C" c = true /\ prefix "M" m = true.

Definition opposite (ty : entity_type) : entity_type :=
  match ty with C => M | M => C end.

Definition marker (ty : entity_type) : string :=
  match ty with C => "C" | M => "M" end.

Section Graph_views.

Variable c2m m2c : list (string * list string).

Definition adjacency (ty : entity_type) : list (string * list string) :=
  match ty with C => c2m | M => m2c end.

(** [e] is an entity of the side [ty]. *)
Definition entity (ty : entity_type) (e : string) : Prop :=
  In e (keys (adjacency ty)).

(** The two dictionaries are the adjacency of one bipartite graph whose ids
    follow the convention. *)
Record graph_ok : Prop := {
  g_prefix : forall ty e, entity ty e -> prefix (marker ty) e = true;
  g_adj : forall ty e n,
      In n (get (adjacency ty) e) ->
      entity ty e /\ entity (opposite ty) n
      /\ In e (get (adjacency (opposite ty)) n);
  g_live : forall ty e, entity ty e -> get (adjacency ty) e <> []
}.

(** Every neighbour of a member of a cluster is a member of the cluster. *)
Definition clusters_closed (cs : list cluster) : Prop :=
  forall j cl ty e n,
    nth_error cs j = Some cl -> In e (same_side ty cl) ->
    In n (get (adjacency ty) e) -> In n (same_side (opposite ty) cl).

(** The members of the clusters are the entities whose core cluster they
    are. *)
Definition members_are_core (cs : list cluster) (core : list (string * nat))
  : Prop :=
  forall j cl ty e,
    nth_error cs j = Some cl -> In e (same_side ty cl) ->
    entity ty e /\ Part_two.core_get core e = Some j.

(** The set of unassigned entities of one side. *)
Definition un_of (ty : entity_type) (st : Part_two.core_state) : list string :=
  match ty with C => Part_two.un_c st | M => Part_two.un_m st end.

(** The invariant of the core-cluster loop. *)
Record core_inv (st : Part_two.core_state) : Prop := {
  ci_sub : forall ty e, In e (un_of ty st) -> entity ty e;
  ci_un : forall ty e, entity ty e ->
      (Part_two.core_get (Part_two.core_ids st) e = None
       <-> In e (un_of ty st));
  ci_core : forall e j,
      Part_two.core_get (Part_two.core_ids st) e = Some j ->
      exists ty cl, entity ty e
                    /\ nth_error (Part_two.clusters st) j = Some cl
                    /\ In e (same_side ty cl);
  ci_member : members_are_core (Part_two.clusters st) (Part_two.core_ids st);
  ci_closed : clusters_closed (Part_two.clusters st)
}.

End Graph_views.

(** The members of the cluster under construction, on one side. *)
Definition cur (ty : entity_type) (b : Part_two.bfs_state) : list string :=
  match ty with
  | C => Part_two.current_cluster_cardholders b
  | M => Part_two.current_cluster_merchants b
  end.

Definition unassigned (ty : entity_type) (b : Part_two.bfs_state) : list string :=
  match ty with
  | C => Part_two.unassigned_cardholders b
  | M => Part_two.unassigned_merchants b
  end.

(** The state after the entity [x] of side [ty] is taken into the cluster
    [k]: either branch of the loop body, read by side. *)
Definition take_in (o : Order) (c2m m2c : list (string * list string))
  (ty : entity_type) (k : nat) (x : string) (b : Part_two.bfs_state)
  : Part_two.bfs_state :=
  let assign := mem x (unassigned ty b) in
  let core := Part_two.entity_to_core_cluster_id b in
  let pushed :=
    filter (fun n => negb (mem n (cur (opposite ty) b)))
           (iter o (get (adjacency c2m m2c ty) x)) in
  let core' := if assign then Part_two.core_set core x k else core in
  match ty with
  | C =>
      {| Part_two.queue := Part_two.queue b ++ pushed;
         Part_two.current_cluster_merchants := Part_two.current_cluster_merchants b;
         Part_two.current_cluster_cardholders :=
           set_add x (Part_two.current_cluster_cardholders b);
         Part_two.entity_to_core_cluster_id := core';
         Part_two.unassigned_cardholders :=
           if assign then discard x (Part_two.unassigned_cardholders b)
           else Part_two.unassigned_cardholders b;
         Part_two.unassigned_merchants := Part_two.unassigned_merchants b |}
  | M =>
      {| Part_two.queue := Part_two.queue b ++ pushed;
         Part_two.current_cluster_merchants :=
           set_add x (Part_two.current_cluster_merchants b);
         Part_two.current_cluster_cardholders := Part_two.current_cluster_cardholders b;
         Part_two.entity_to_core_cluster_id := core';
         Part_two.unassigned_cardholders := Part_two.unassigned_cardholders b;
         Part_two.unassigned_merchants :=
           if assign then discard x (Part_two.unassigned_merchants b)
           else Part_two.unassigned_merchants b |}
  end.

(** The invariant of the loop over the queue, while the cluster of index
    [length cs] is built next to the clusters [cs]. *)
Record queue_inv (c2m m2c : list (string * list string)) (cs : list cluster)
  (b : Part_two.bfs_state) : Prop := {
  qi_sub : forall ty e, In e (unassigned ty b) -> entity c2m m2c ty e;
  qi_un : forall ty e, entity c2m m2c ty e ->
      (Part_two.core_get (Part_two.entity_to_core_cluster_id b) e = None
       <-> In e (unassigned ty b));
  qi_core : forall e j,
      Part_two.core_get (Part_two.entity_to_core_cluster_id b) e = Some j ->
      (exists ty cl, entity c2m m2c ty e /\ nth_error cs j = Some cl
                     /\ In e (same_side ty cl))
      \/ (j = List.length cs /\ exists ty, entity c2m m2c ty e /\ In e (cur ty b));
  qi_member : members_are_core c2m m2c cs (Part_two.entity_to_core_cluster_id b);
  qi_cur : forall ty e, In e (cur ty b) ->
      entity c2m m2c ty e
      /\ Part_two.core_get (Part_two.entity_to_core_cluster_id b) e
         = Some (List.length cs);
  qi_queue : forall x, In x (Part_two.queue b) ->
      exists ty, entity c2m m2c ty x
        /\ (Part_two.core_get (Part_two.entity_to_core_cluster_id b) x = None
            \/ Part_two.core_get (Part_two.entity_to_core_cluster_id b) x
               = Some (List.length cs));
  qi_frontier : forall ty e n, In e (cur ty b) ->
      In n (get (adjacency c2m m2c ty) e) ->
      In n (cur (opposite ty) b) \/ In n (Part_two.queue b);
  qi_live : Part_two.queue b <> [] \/ exists ty e, In e (cur ty b)
}.

(** Every entity has a core cluster and is a member of it, the members of
    the clusters are the entities whose core cluster they are, and the
    clusters are closed under adjacency. *)
Record settled (c2m m2c : list (string * list string)) (cs : list cluster)
  (core : list (string * nat)) : Prop := {
  s_assigned : forall ty e, entity c2m m2c ty e ->
      exists j cl, Part_two.core_get core e = Some j
                   /\ nth_error cs j = Some cl
                   /\ In e (same_side ty cl);
  s_member : members_are_core c2m m2c cs core;
  s_closed : clusters_closed c2m m2c cs
}.



(** The ids of the clusters into which the duplication pass of mode (b)
    inserts the entity of an adjacency entry. *)
Definition secondary_ids (o : Order) (t : Q) (final : Part_three.snapshot)
  (entry : string * list string) : list string :=
  if is_empty (snd entry) then []
  else
    match sort_desc (Part_three.label_counts final (iter o (snd entry))) with
    | [] => []
    | (_, primary_interactions) :: others =>
        map fst
          (filter
             (fun s => duplicates (snd s) primary_interactions
                         (List.length (snd entry)) t)
             others)
    end.

(** The pass of mode (b) over the entries [entries] of the side [ty]
    inserts the entity [x] of the side [ty'] into the cluster [id]. *)
Definition inserts (o : Order) (t : Q) (final : Part_three.snapshot)
  (ty : entity_type) (entries : list (string * list string))
  (id : string) (ty' : entity_type) (x : string) : Prop :=
  exists entry,
    In entry entries /\ In id (secondary_ids o t final entry)
    /\ ty' = ty /\ x = fst entry.

(** *** Notions for the further properties *)

(** A token: a string that is not empty and holds no whitespace. *)
Fixpoint no_space (w : string) : bool :=
  match w with
  | EmptyString => true
  | String c r => negb (Part_one.is_space c) && no_space r
  end.

Definition token (w : string) : Prop :=
  w <> EmptyString /\ no_space w = true.


(** The side mode (b) reads from an id: a cardholder when the id starts
    with C, a merchant otherwise. *)
Definition side_of (e : string) : entity_type :=
  if prefix "C" e then C else M.

(** The cluster that holds the entity [e] alone. *)
Definition own_cluster (e : string) : cluster :=
  add_member (side_of e) e empty_cluster.

(** *** Connection in the interaction graph *)

(** [b] is a partner of [a]: a merchant of the cardholder [a] or a
    cardholder of the merchant [a]. *)
Definition linked (c2m m2c : list (string * list string)) (a b : string)
  : Prop :=
  In b (get c2m a) \/ In b (get m2c a).

(** [y] is connected to [x] by a chain of interactions. *)
Inductive reach (c2m m2c : list (string * list string)) (x : string)
  : string -> Prop :=
  | reach_here : reach c2m m2c x x
  | reach_next (y z : string) :
      reach c2m m2c x y -> linked c2m m2c y z -> reach c2m m2c x z.

(** [x] is a member of the cluster, on either side. *)
Definition member (x : string) (cl : cluster) : Prop :=
  In x (cardholders cl) \/ In x (merchants cl).

(** The state the construction of a cluster starts from. *)
Definition bfs_start (st : Part_two.core_state) (seed : string)
  : Part_two.bfs_state :=
  {| Part_two.queue := [seed];
     Part_two.current_cluster_merchants := [];
     Part_two.current_cluster_cardholders := [];
     Part_two.entity_to_core_cluster_id := Part_two.core_ids st;
     Part_two.unassigned_cardholders := Part_two.un_c st;
     Part_two.unassigned_merchants := Part_two.un_m st |}.

(** The state of the core-cluster loop after the cluster of [b] is
    built. *)
Definition core_next (st : Part_two.core_state) (b : Part_two.bfs_state)
  : Part_two.core_state :=
  {| Part_two.clusters :=
       if negb (is_empty (Part_two.current_cluster_merchants b))
          || negb (is_empty (Part_two.current_cluster_cardholders b))
       then
         Part_two.clusters st ++
         [ {| merchants := Part_two.current_cluster_merchants b;
              cardholders := Part_two.current_cluster_cardholders b |} ]
       else Part_two.clusters st;
     Part_two.core_ids := Part_two.entity_to_core_cluster_id b;
     Part_two.un_c := Part_two.unassigned_cardholders b;
     Part_two.un_m := Part_two.unassigned_merchants b |}.

(** *** Notions for the clusters by search *)

(** The entity [y] of the side [ty'] is connected to the entity [x] of the
    side [ty] by a chain of interactions. *)
Inductive connected (c2m m2c : list (string * list string))
  (ty : entity_type) (x : string) : entity_type -> string -> Prop :=
| connected_here : connected c2m m2c ty x ty x
| connected_next (ty' : entity_type) (u v : string) :
    connected c2m m2c ty x ty' u ->
    In v (get (adjacency c2m m2c ty') u) ->
    connected c2m m2c ty x (opposite ty') v.

(** The visited entities of a side. *)
Definition visited (ty : entity_type) (s : Part_one_clusters.state)
  : list string :=
  match ty with
  | C => Part_one_clusters.visited_cardholders s
  | M => Part_one_clusters.visited_merchants s
  end.

(** The pushes that the entities of [adj] outside [seen] can still cause. *)
Definition unvisited_weight (adj adj' : list (string * list string))
  (seen : list string) : nat :=
  list_sum
    (map (fun kv => if mem (fst kv) seen then 0
                    else Part_one_clusters.second_degree adj' (snd kv)) adj).

(** What holds between two turns of the search from the cardholder [start],
    begun with the visited sets [vc0] and [vm0] and the clusters [cls0]. *)
Record search_inv (c2m m2c : list (string * list string))
  (vc0 vm0 : list string) (cls0 : list cluster) (start : string)
  (s : Part_one_clusters.state) : Prop := {
  si_clusters : Part_one_clusters.clusters s = cls0;
  si_vm : Part_one_clusters.visited_merchants s = vm0;
  si_vc : forall x,
      In x (Part_one_clusters.visited_cardholders s)
      <-> In x vc0 \/ In x (Part_one_clusters.current_cluster_cardholders s);
  si_fresh_c : forall x,
      In x (Part_one_clusters.current_cluster_cardholders s) -> ~ In x vc0;
  si_fresh_m : forall m,
      In m (Part_one_clusters.current_cluster_merchants s) -> ~ In m vm0;
  si_stack : forall x,
      In x (Part_one_clusters.stack_cardholders s) ->
      connected c2m m2c C start C x;
  si_conn : forall x,
      In x (Part_one_clusters.current_cluster_cardholders s) ->
      connected c2m m2c C start C x;
  si_from : forall m,
      In m (Part_one_clusters.current_cluster_merchants s) ->
      exists c, In c (Part_one_clusters.current_cluster_cardholders s)
                /\ In m (get c2m c);
  si_out : forall c m,
      In c (Part_one_clusters.current_cluster_cardholders s) ->
      In m (get c2m c) ->
      In m (Part_one_clusters.current_cluster_merchants s);
  si_back : forall m c,
      In m (Part_one_clusters.current_cluster_merchants s) ->
      In c (get m2c m) ->
      In c (Part_one_clusters.visited_cardholders s)
      \/ In c (Part_one_clusters.stack_cardholders s);
  si_start :
      In start (Part_one_clusters.current_cluster_cardholders s)
      \/ In start (Part_one_clusters.stack_cardholders s)
}.

(** What holds between two searches: the visited sets are closed under
    adjacency, they are the members of the clusters, every cluster is the
    component of a cardholder of the index, and no two clusters share a
    member. *)
Record pass_inv (c2m m2c : list (string * list string))
  (s : Part_one_clusters.state) : Prop := {
  pi_closed : forall ty e n,
      In e (visited ty s) -> In n (get (adjacency c2m m2c ty) e) ->
      In n (visited (opposite ty) s);
  pi_component : forall cl,
      In cl (Part_one_clusters.clusters s) ->
      exists seed,
        In seed (keys c2m)
        /\ In seed (cardholders cl)
        /\ forall ty y, In y (same_side ty cl)
                        <-> connected c2m m2c C seed ty y;
  pi_visited : forall ty x,
      In x (visited ty s)
      <-> exists cl, In cl (Part_one_clusters.clusters s)
                     /\ In x (same_side ty cl);
  pi_apart : forall i j cl cl' ty x,
      nth_error (Part_one_clusters.clusters s) i = Some cl ->
      nth_error (Part_one_clusters.clusters s) j = Some cl' ->
      In x (same_side ty cl) -> In x (same_side ty cl') -> i = j
}.

(** *** Notions for the comparison of cluster lists *)

(** The ids go up along the list, in the order of Python's [sorted] on
    ASCII strings, and none is repeated. *)
Definition ascending (l : list string) : Prop :=
  StronglySorted (fun a b => String.ltb a b = true) l.

(** The member lists of every cluster are duplicate-free sets. *)
Definition member_sets (cs : list cluster) : Prop :=
  forall cl, In cl cs -> NoDup (cardholders cl) /\ NoDup (merchants cl).

(** The cluster list [cls] is the list of the connected components of the
    index, each once, with its members in ascending order. *)
Record components_of (c2m m2c : list (string * list string))
  (cls : list cluster) : Prop := {
  co_member : forall cl ty e,
      In cl cls -> In e (same_side ty cl) -> entity c2m m2c ty e;
  co_cover : forall ty e,
      entity c2m m2c ty e -> exists cl, In cl cls /\ In e (same_side ty cl);
  co_component : forall cl tx x ty y,
      In cl cls -> In x (same_side tx cl) ->
      (In y (same_side ty cl) <-> connected c2m m2c tx x ty y);
  co_inhabited : forall cl,
      In cl cls -> exists ty e, In e (same_side ty cl);
  co_ascending : forall cl ty, In cl cls -> ascending (same_side ty cl);
  co_once : NoDup cls
}.

(** * Properties *)

(** ** Sets and dictionaries *)

Lemma mem_In (x : string) (s : list string) : mem x s = true <-> In x s.
Proof.
  unfold mem. rewrite existsb_exists. split.
  - intros [y [Hy He]]. apply String.eqb_eq in He. now subst.
  - intros H. exists x. split; [ assumption | apply String.eqb_refl ].
Qed.

Lemma mem_false (x : string) (s : list string) : mem x s = false <-> ~ In x s.
Proof.
  rewrite <- mem_In. destruct (mem x s); split; congruence.
Qed.

Lemma In_set_add (x y : string) (s : list string) :
  In y (set_add x s) <-> y = x \/ In y s.
Proof.
  unfold set_add. destruct (mem x s) eqn:E.
  - apply mem_In in E. split; [ now right | intros [-> | H]; assumption ].
  - rewrite in_app_iff. simpl. intuition congruence.
Qed.

Lemma set_add_keeps (x y : string) (s : list string) :
  In y s -> In y (set_add x s).
Proof. intros H. apply In_set_add. now right. Qed.

Lemma set_add_present (x : string) (s : list string) :
  In x s -> set_add x s = s.
Proof. intros H. unfold set_add. apply mem_In in H. now rewrite H. Qed.

Lemma NoDup_set_add (x : string) (s : list string) :
  NoDup s -> NoDup (set_add x s).
Proof.
  intros H. unfold set_add. destruct (mem x s) eqn:E; [ assumption | ].
  apply mem_false in E.
  apply NoDup_rev in H. rewrite <- (rev_involutive (s ++ [x])).
  apply NoDup_rev. rewrite rev_app_distr. simpl. constructor.
  - now rewrite <- in_rev.
  - assumption.
Qed.

Lemma In_discard (x y : string) (s : list string) :
  In y (discard x s) <-> In y s /\ y <> x.
Proof.
  unfold discard. rewrite filter_In. rewrite negb_true_iff.
  split; intros [H1 H2]; split; try assumption.
  - intros ->. rewrite String.eqb_refl in H2. discriminate.
  - apply String.eqb_neq. congruence.
Qed.

Lemma In_get_dict_add (d : list (string * list string)) (k x k' y : string) :
  In y (get (dict_add d k x) k') <-> (k' = k /\ y = x) \/ In y (get d k').
Proof.
  induction d as [| [k0 v] r IH]; simpl.
  - destruct (String.eqb k' k) eqn:E.
    + apply String.eqb_eq in E. simpl. intuition.
    + apply String.eqb_neq in E. simpl. intuition.
  - destruct (String.eqb k k0) eqn:E; simpl.
    + apply String.eqb_eq in E. subst k0.
      destruct (String.eqb k' k) eqn:E'.
      * apply String.eqb_eq in E'. subst k'. rewrite In_set_add. tauto.
      * apply String.eqb_neq in E'. tauto.
    + destruct (String.eqb k' k0) eqn:E'.
      * apply String.eqb_eq in E'. subst k0. apply String.eqb_neq in E.
        split; [ now right | intros [[Hk _] | H]; [ congruence | assumption ] ].
      * apply IH.
Qed.

Lemma In_keys_dict_add (d : list (string * list string)) (k x k' : string) :
  In k' (keys (dict_add d k x)) <-> k' = k \/ In k' (keys d).
Proof.
  unfold keys. induction d as [| [k0 v] r IH]; simpl.
  - intuition.
  - destruct (String.eqb k k0) eqn:E; simpl.
    + apply String.eqb_eq in E. subst. intuition.
    + rewrite IH. intuition.
Qed.

Lemma NoDup_keys_dict_add (d : list (string * list string)) (k x : string) :
  NoDup (keys d) -> NoDup (keys (dict_add d k x)).
Proof.
  unfold keys. induction d as [| [k0 v] r IH]; simpl; intros H.
  - constructor; [ intros [] | constructor ].
  - destruct (String.eqb k k0) eqn:E; simpl; [ assumption | ].
    inversion H as [| ? ? Hn Hr]; subst. constructor.
    + intros Hin. apply (In_keys_dict_add r k x k0) in Hin.
      apply String.eqb_neq in E. destruct Hin; [ congruence | contradiction ].
    + now apply IH.
Qed.

Lemma get_not_key (d : list (string * list string)) (k : string) :
  ~ In k (keys d) -> get d k = [].
Proof.
  unfold keys. induction d as [| [k0 v] r IH]; simpl; intros H; [ reflexivity | ].
  destruct (String.eqb k k0) eqn:E.
  - apply String.eqb_eq in E. subst. tauto.
  - apply IH. tauto.
Qed.

Lemma In_iter (o : Order) (x : string) (l : list string) :
  In x (iter o l) <-> In x l.
Proof.
  split; apply Permutation_in;
    [ apply iter_perm | apply Permutation_sym, iter_perm ].
Qed.

Lemma In_shuffle (o : Order) (x : string) (l : list string) :
  In x (shuffle o l) <-> In x l.
Proof.
  split; apply Permutation_in;
    [ apply shuffle_perm | apply Permutation_sym, shuffle_perm ].
Qed.

(** ** The interaction index *)

Module Part_one_facts.

Import Part_one.

Lemma fold_add_interaction (txs : list (string * string)) (g : graphs)
  (c m : string) :
  (In m (get (fst (fold_left add_interaction txs g)) c)
     <-> In (c, m) txs \/ In m (get (fst g) c))
  /\ (In c (get (snd (fold_left add_interaction txs g)) m)
     <-> In (c, m) txs \/ In c (get (snd g) m)).
Proof.
  revert g. induction txs as [| [c0 m0] r IH]; intros g; simpl.
  - tauto.
  - destruct (IH (add_interaction g (c0, m0))) as [IH1 IH2].
    rewrite IH1, IH2. simpl. rewrite !In_get_dict_add.
    split; split; intros H;
      repeat match goal with
             | H : _ \/ _ |- _ => destruct H
             | H : _ /\ _ |- _ => destruct H
             | H : (_, _) = (_, _) |- _ => inversion H; subst; clear H
             end; subst; auto.
Qed.

(** The merchants of a cardholder are the merchants it is paired with in
    the list, and the other way round. *)
Lemma graphs_spec (txs : list (string * string)) (c m : string) :
  (In m (get (fst (create_interaction_graphs txs)) c) <-> In (c, m) txs)
  /\ (In c (get (snd (create_interaction_graphs txs)) m) <-> In (c, m) txs).
Proof.
  unfold create_interaction_graphs.
  destruct (fold_add_interaction txs ([], []) c m) as [H1 H2].
  rewrite H1, H2. simpl. tauto.
Qed.

(** C4: the two adjacency mappings are symmetric, and they depend only on
    the set of pairs of the interaction list: two lists with the same pairs,
    whatever their order and repetitions, give the same merchant set for
    every cardholder and the same cardholder set for every merchant. *)
Theorem adjacency_symmetric (txs : list (string * string)) (A B : string) :
  (In B (get (fst (create_interaction_graphs txs)) A)
     <-> In A (get (snd (create_interaction_graphs txs)) B))
  /\ (forall txs' : list (string * string),
        (forall p, In p txs <-> In p txs') ->
        (In B (get (fst (create_interaction_graphs txs)) A)
           <-> In B (get (fst (create_interaction_graphs txs')) A))
        /\ (In A (get (snd (create_interaction_graphs txs)) B)
           <-> In A (get (snd (create_interaction_graphs txs')) B))).
Proof.
  destruct (graphs_spec txs A B) as [H1 H2]. split.
  - rewrite H1, H2. tauto.
  - intros txs' Hsame. destruct (graphs_spec txs' A B) as [H1' H2'].
    rewrite H1, H2, H1', H2'. specialize (Hsame (A, B)). tauto.
Qed.

Lemma adjacency_symmetric_witness :
  let txs := [("C1", "M1"); ("C2", "M1"); ("C1", "M1")] in
  let txs' := [("C2", "M1"); ("C1", "M1")] in
  (In "M1" (get (fst (create_interaction_graphs txs)) "C1")
     <-> In "M1" (get (fst (create_interaction_graphs txs')) "C1"))
  /\ (In "C1" (get (snd (create_interaction_graphs txs)) "M1")
     <-> In "C1" (get (snd (create_interaction_graphs txs')) "M1")).
Proof.
  intros txs txs'.
  apply (proj2 (adjacency_symmetric txs "C1" "M1") txs').
  intros p. simpl. tauto.
Defined.

End Part_one_facts.

(** ** Malformed lines *)

Module Input_facts.

Import Part_one.

Lemma well_formed_split (line : string) :
  well_formed line = true <-> exists c m, split line = [c; m].
Proof.
  unfold well_formed. rewrite Nat.eqb_eq. split.
  - destruct (split line) as [| c [| m [| x r]]]; simpl; try discriminate.
    intros _. now exists c, m.
  - intros [c [m ->]]. reflexivity.
Qed.

(** [load_transactions] passes over the lines that have not two tokens:
    its result is the one for the input without them. *)
Lemma load_transactions_skips (lines : list string) :
  load_transactions lines = load_transactions (filter well_formed lines).
Proof.
  induction lines as [| line rest IH]; simpl; [ reflexivity | ].
  destruct (well_formed line) eqn:E.
  - apply well_formed_split in E. destruct E as [c [m E]].
    simpl. rewrite E. now f_equal.
  - assert (H : forall c m, split line <> [c; m]).
    { intros c m Hs. assert (well_formed line = true) by
        (apply well_formed_split; eauto). congruence. }
    destruct (split line) as [| c [| m [| x r]]]; try assumption.
    now destruct (H c m).
Qed.



(** C5: on the three lines [C1 M1], [C2], [C3 M2], the reader of mode (a)
    passes over the second line and keeps the two others, but the run of
    mode (b) is ended by [ValueError] at the second line, for every
    configuration. *)
Theorem malformed_line_ends_mode_b (o : Order) (t : Q) (num_iterations : Z) :
  load_transactions ["C1 M1"; "C2"; "C3 M2"] = [("C1", "M1"); ("C3", "M2")]
  /\ Part_three.process_large_dataset_batch o t
       ["C1 M1"; "C2"; "C3 M2"] num_iterations = Part_three.ValueError.
Proof.
  split; reflexivity.
Qed.

End Input_facts.

(** ** The duplication phase only adds members *)

Module Growth.

Lemma cluster_le_refl (cl : cluster) : cluster_le cl cl.
Proof. split; apply incl_refl. Qed.

Lemma cluster_le_trans (a b c : cluster) :
  cluster_le a b -> cluster_le b c -> cluster_le a c.
Proof. intros [H1 H2] [H3 H4]. split; eapply incl_tran; eassumption. Qed.

Lemma clusters_le_refl (l : list cluster) : Forall2 cluster_le l l.
Proof. induction l; constructor; [ apply cluster_le_refl | assumption ]. Qed.

Lemma clusters_le_trans (a b c : list cluster) :
  Forall2 cluster_le a b -> Forall2 cluster_le b c -> Forall2 cluster_le a c.
Proof.
  intros H. revert c. induction H as [| x y l l' Hxy Hl IH]; intros c Hc.
  - inversion Hc. constructor.
  - inversion Hc; subst. constructor.
    + eapply cluster_le_trans; eassumption.
    + now apply IH.
Qed.

(** A loop whose every turn goes up in a preorder ends above its start. *)
Lemma fold_left_above {A B : Type} (R : A -> A -> Prop) (f : A -> B -> A) :
  (forall a, R a a) ->
  (forall a b c, R a b -> R b c -> R a c) ->
  (forall a x, R a (f a x)) ->
  forall xs a, R a (fold_left f xs a).
Proof.
  intros Hrefl Htrans Hstep xs. induction xs as [| x r IH]; intros a; simpl.
  - apply Hrefl.
  - eapply Htrans; [ apply Hstep | apply IH ].
Qed.

Lemma add_member_le (ty : entity_type) (e : string) (cl : cluster) :
  cluster_le cl (add_member ty e cl).
Proof.
  destruct ty; split; simpl; try apply incl_refl;
    intros x Hx; now apply set_add_keeps.
Qed.

Lemma update_at_le (i : nat) (ty : entity_type) (e : string) (l : list cluster) :
  Forall2 cluster_le l (Part_two.update_at i (add_member ty e) l).
Proof.
  revert i. induction l as [| x r IH]; intros i; simpl.
  - destruct i; constructor.
  - destruct i; constructor;
      auto using add_member_le, cluster_le_refl, clusters_le_refl.
Qed.

Lemma In_insert_str (x y : string) (l : list string) :
  In y (insert_str x l) <-> y = x \/ In y l.
Proof.
  induction l as [| z r IH]; simpl.
  - intuition.
  - destruct (String.ltb z x); simpl; [ rewrite IH | ]; intuition.
Qed.

Lemma In_sorted_list (x : string) (s : list string) :
  In x (sorted_list s) <-> In x s.
Proof.
  induction s as [| y r IH]; simpl; [ tauto | ].
  rewrite In_insert_str, IH. intuition.
Qed.

Lemma length_insert_str (x : string) (l : list string) :
  List.length (insert_str x l) = S (List.length l).
Proof.
  induction l as [| z r IH]; simpl; [ reflexivity | ].
  destruct (String.ltb z x); simpl; [ now rewrite IH | reflexivity ].
Qed.

Lemma length_sorted_list (s : list string) :
  List.length (sorted_list s) = List.length s.
Proof.
  induction s as [| y r IH]; simpl; [ reflexivity | ].
  now rewrite length_insert_str, IH.
Qed.

Lemma sorted_cluster_eq (cl : cluster) : cluster_eq cl (sorted_cluster cl).
Proof.
  split; split; simpl; intros x Hx; now apply In_sorted_list.
Qed.

Lemma clusters_le_sorted (l : list cluster) :
  Forall2 cluster_le l (map sorted_cluster l).
Proof.
  induction l; simpl; constructor; [ apply sorted_cluster_eq | assumption ].
Qed.

Section Mode_a.

Variable o : Order.
Variable t : Q.

Lemma duplicate_into_le (ty : entity_type) (e : string) (p total : nat)
  (fc : list cluster) (s : nat * nat) :
  Forall2 cluster_le fc (Part_two.duplicate_into t ty e p total fc s).
Proof.
  unfold Part_two.duplicate_into.
  destruct (duplicates (snd s) p total t);
    [ apply update_at_le | apply clusters_le_refl ].
Qed.

Lemma duplicate_entity_le (ty : entity_type)
  (adj : list (string * list string)) (fc : list cluster) (e : string) :
  Forall2 cluster_le fc (Part_two.duplicate_entity o t ty adj fc e).
Proof.
  unfold Part_two.duplicate_entity.
  destruct (is_empty (get adj e)); [ apply clusters_le_refl | ].
  destruct (sort_desc _) as [| [p n] others]; [ apply clusters_le_refl | ].
  eapply clusters_le_trans; [ apply update_at_le | ].
  apply (fold_left_above (Forall2 cluster_le)).
  - apply clusters_le_refl.
  - apply clusters_le_trans.
  - intros a x. apply duplicate_into_le.
Qed.

Lemma duplication_phase_le (c2m m2c : list (string * list string))
  (cs : list cluster) :
  Forall2 cluster_le cs (Part_two.duplication_phase o t c2m m2c cs).
Proof.
  unfold Part_two.duplication_phase.
  eapply clusters_le_trans.
  - apply (fold_left_above (Forall2 cluster_le)
             (Part_two.duplicate_entity o t C c2m));
      [ apply clusters_le_refl | apply clusters_le_trans
      | intros; apply duplicate_entity_le ].
  - apply (fold_left_above (Forall2 cluster_le)
             (Part_two.duplicate_entity o t M m2c));
      [ apply clusters_le_refl | apply clusters_le_trans
      | intros; apply duplicate_entity_le ].
Qed.

End Mode_a.

Lemma agg_le_refl (d : list (string * cluster)) : agg_le d d.
Proof. intros id. split; [ apply cluster_le_refl | tauto ]. Qed.

Lemma agg_le_trans (a b c : list (string * cluster)) :
  agg_le a b -> agg_le b c -> agg_le a c.
Proof.
  intros H1 H2 id. destruct (H1 id) as [L1 K1], (H2 id) as [L2 K2].
  split; [ eapply cluster_le_trans; eassumption | tauto ].
Qed.

Lemma agg_add_le (d : list (string * cluster)) (id : string)
  (ty : entity_type) (e : string) :
  agg_le d (Part_three.agg_add d id ty e).
Proof.
  intros id'. induction d as [| [k cl] r IH]; simpl.
  - split; [ | tauto ]. split; intros x [].
  - destruct (String.eqb id k) eqn:E; simpl.
    + apply String.eqb_eq in E. subst k.
      split; [ | tauto ].
      destruct (String.eqb id' id);
        [ apply add_member_le | apply cluster_le_refl ].
    + destruct IH as [IH1 IH2]. split.
      * destruct (String.eqb id' k); [ apply cluster_le_refl | assumption ].
      * tauto.
Qed.

Lemma agg_get_sorted (d : list (string * cluster)) (id : string) :
  Part_three.agg_get (map (fun kc => (fst kc, sorted_cluster (snd kc))) d) id
  = sorted_cluster (Part_three.agg_get d id).
Proof.
  induction d as [| [k cl] r IH]; simpl; [ reflexivity | ].
  destruct (String.eqb id k); [ reflexivity | assumption ].
Qed.

Lemma agg_le_sorted (d : list (string * cluster)) :
  agg_le d (map (fun kc => (fst kc, sorted_cluster (snd kc))) d).
Proof.
  intros id. rewrite agg_get_sorted. split.
  - apply sorted_cluster_eq.
  - unfold keys. rewrite map_map. simpl. tauto.
Qed.

Section Mode_b.

Variable o : Order.
Variable t : Q.

Lemma duplicate_entity_b_le (final : Part_three.snapshot) (ty : entity_type)
  (agg : list (string * cluster)) (entry : string * list string) :
  agg_le agg (Part_three.duplicate_entity o t final ty agg entry).
Proof.
  unfold Part_three.duplicate_entity.
  destruct (is_empty (snd entry)); [ apply agg_le_refl | ].
  destruct (sort_desc _) as [| [p n] others]; [ apply agg_le_refl | ].
  apply (fold_left_above agg_le);
    [ apply agg_le_refl | apply agg_le_trans | ].
  intros a x. unfold Part_three.duplicate_into.
  destruct (duplicates _ _ _ _); [ apply agg_add_le | apply agg_le_refl ].
Qed.

Lemma duplication_phase_b_le (p : Part_three.phase1)
  (final : Part_three.snapshot) (agg : list (string * cluster)) :
  agg_le agg (Part_three.duplication_phase o t p final agg).
Proof.
  unfold Part_three.duplication_phase.
  eapply agg_le_trans.
  - apply (fold_left_above agg_le (Part_three.duplicate_entity o t final C));
      [ apply agg_le_refl | apply agg_le_trans
      | intros; apply duplicate_entity_b_le ].
  - apply (fold_left_above agg_le (Part_three.duplicate_entity o t final M));
      [ apply agg_le_refl | apply agg_le_trans
      | intros; apply duplicate_entity_b_le ].
Qed.

End Mode_b.

(** C10: the duplication phase removes no member.  In mode (a) the pass
    maps every cluster list to one of the same length whose clusters hold at
    least the members they had, and so every core cluster is contained in
    the cluster returned at its index; in mode (b) every cluster id of the
    aggregated clusters is kept with at least its members, by the pass and
    in the clusters the run writes. *)
Theorem membership_only_grows (o : Order) (t : Q) :
  (forall c2m m2c cs,
      Forall2 cluster_le cs (Part_two.duplication_phase o t c2m m2c cs))
  /\ (forall txs st,
        Part_two.core_clusters o txs = Some st ->
        exists fc,
          Part_two.find_clusters_with_duplication o t txs = Some fc
          /\ Forall2 cluster_le (Part_two.clusters st) fc)
  /\ (forall p final agg,
        agg_le agg (Part_three.duplication_phase o t p final agg))
  /\ (forall lines n r,
        Part_three.process_large_dataset_batch o t lines n
        = Part_three.Finished r ->
        agg_le (Part_three.aggregated_clusters r) (Part_three.final_clusters r)).
Proof.
  split; [ | split; [ | split ] ].
  - intros. apply duplication_phase_le.
  - intros txs st H. unfold Part_two.find_clusters_with_duplication.
    rewrite H. eexists. split; [ reflexivity | ].
    eapply clusters_le_trans;
      [ apply duplication_phase_le | apply clusters_le_sorted ].
  - intros. apply duplication_phase_b_le.
  - intros lines n r H. unfold Part_three.process_large_dataset_batch in H.
    destruct (Part_three.read_input lines Part_three.no_input) as [p |];
      [ | discriminate ].
    inversion H; subst; clear H. simpl.
    eapply agg_le_trans; [ apply duplication_phase_b_le | apply agg_le_sorted ].
Qed.

Lemma membership_only_grows_witness :
  (exists fc,
      Part_two.find_clusters_with_duplication insertion_order (3 # 10)
        [("C1", "M1"); ("C2", "M1"); ("C2", "M2")] = Some fc
      /\ Forall2 cluster_le
           [ {| merchants := ["M1"; "M2"]; cardholders := ["C2"; "C1"] |} ] fc)
  /\ agg_le
       [("C1", {| merchants := []; cardholders := ["C1"] |});
        ("M1", {| merchants := ["M1"]; cardholders := [] |});
        ("M2", {| merchants := ["M2"]; cardholders := [] |})]
       [("C1", {| merchants := []; cardholders := ["C1"] |});
        ("M1", {| merchants := ["M1"]; cardholders := [] |});
        ("M2", {| merchants := ["M2"]; cardholders := ["C1"] |})].
Proof.
  destruct (membership_only_grows insertion_order (3 # 10)) as [_ [Ha [_ Hb]]].
  split.
  - apply (Ha [("C1", "M1"); ("C2", "M1"); ("C2", "M2")]
              {| Part_two.clusters :=
                   [ {| merchants := ["M1"; "M2"]; cardholders := ["C2"; "C1"] |} ];
                 Part_two.core_ids :=
                   [("C2", 0); ("M1", 0); ("M2", 0); ("C1", 0)];
                 Part_two.un_c := []; Part_two.un_m := [] |}).
    vm_compute. reflexivity.
  - apply (Hb ["C1 M1"; "C1 M2"] 2%Z
              {| Part_three.final_snapshot :=
                   [("C1", "C1"); ("M1", "M1"); ("M2", "M2")];
                 Part_three.aggregated_clusters :=
                   [("C1", {| merchants := []; cardholders := ["C1"] |});
                    ("M1", {| merchants := ["M1"]; cardholders := [] |});
                    ("M2", {| merchants := ["M2"]; cardholders := [] |})];
                 Part_three.final_clusters :=
                   [("C1", {| merchants := []; cardholders := ["C1"] |});
                    ("M1", {| merchants := ["M1"]; cardholders := [] |});
                    ("M2", {| merchants := ["M2"]; cardholders := ["C1"] |})] |}).
    vm_compute. reflexivity.
Defined.

End Growth.

(** ** Counters *)

Module Counter_facts.

Section Counters.

Context {K : Type}.
Variable eqb : K -> K -> bool.
Hypothesis eqb_spec : forall a b, eqb a b = true <-> a = b.

Lemma eqb_same (a : K) : eqb a a = true.
Proof. now apply eqb_spec. Qed.

Lemma eqb_diff (a b : K) : a <> b -> eqb a b = false.
Proof.
  intros H. destruct (eqb a b) eqn:E; [ | reflexivity ].
  apply eqb_spec in E. contradiction.
Qed.

Lemma count_of_incr (d : list (K * nat)) (k k' : K) :
  count_of eqb (incr eqb d k) k'
  = count_of eqb d k' + (if eqb k' k then 1 else 0).
Proof.
  induction d as [| [k0 v] r IH]; simpl.
  - destruct (eqb k' k); reflexivity.
  - destruct (eqb k k0) eqn:E; simpl.
    + apply eqb_spec in E. subst k0.
      destruct (eqb k' k); lia.
    + destruct (eqb k' k0) eqn:E'; [ | apply IH ].
      apply eqb_spec in E'. subst k0.
      rewrite eqb_diff; [ lia | ].
      intros ->. rewrite eqb_same in E. discriminate.
Qed.

Lemma In_keys_incr (d : list (K * nat)) (k k' : K) :
  In k' (map fst (incr eqb d k)) <-> k' = k \/ In k' (map fst d).
Proof.
  induction d as [| [k0 v] r IH]; simpl.
  - intuition.
  - destruct (eqb k k0) eqn:E; simpl.
    + apply eqb_spec in E. subst. intuition.
    + rewrite IH. intuition.
Qed.

Lemma NoDup_keys_incr (d : list (K * nat)) (k : K) :
  NoDup (map fst d) -> NoDup (map fst (incr eqb d k)).
Proof.
  induction d as [| [k0 v] r IH]; simpl; intros H.
  - constructor; [ intros [] | constructor ].
  - destruct (eqb k k0) eqn:E; simpl; [ assumption | ].
    inversion H as [| ? ? Hn Hr]; subst. constructor.
    + intros Hin. apply In_keys_incr in Hin. destruct Hin as [-> | Hin].
      * rewrite eqb_same in E. discriminate.
      * contradiction.
    + now apply IH.
Qed.

(** Every count of a counter built with [incr] is positive. *)
Lemma positive_incr (d : list (K * nat)) (k : K) :
  Forall (fun kv => 0 < snd kv) d ->
  Forall (fun kv => 0 < snd kv) (incr eqb d k).
Proof.
  induction d as [| [k0 v] r IH]; simpl; intros H.
  - repeat constructor.
  - inversion H; subst. destruct (eqb k k0); constructor; simpl in *;
      auto; lia.
Qed.

Lemma count_of_In (d : list (K * nat)) (k : K) (v : nat) :
  NoDup (map fst d) -> In (k, v) d -> count_of eqb d k = v.
Proof.
  induction d as [| [k0 v0] r IH]; simpl; intros Hnd Hin; [ contradiction | ].
  inversion Hnd as [| ? ? Hn Hr]; subst.
  destruct Hin as [Heq | Hin].
  - inversion Heq; subst. now rewrite eqb_same.
  - rewrite eqb_diff; [ now apply IH | ].
    intros ->. apply Hn. apply in_map_iff. now exists (k0, v).
Qed.

Lemma count_of_not_key (d : list (K * nat)) (k : K) :
  ~ In k (map fst d) -> count_of eqb d k = 0.
Proof.
  induction d as [| [k0 v0] r IH]; simpl; intros H; [ reflexivity | ].
  rewrite eqb_diff; [ apply IH; tauto | intros ->; tauto ].
Qed.

Lemma count_of_key (d : list (K * nat)) (k : K) :
  In k (map fst d) -> In (k, count_of eqb d k) d.
Proof.
  induction d as [| [k0 v0] r IH]; simpl; intros H; [ contradiction | ].
  destruct (eqb k k0) eqn:E.
  - apply eqb_spec in E. subst. now left.
  - right. apply IH. destruct H as [-> | H]; [ | assumption ].
    rewrite eqb_same in E. discriminate.
Qed.

End Counters.

End Counter_facts.

(** ** Label propagation *)

Module Propagation_facts.

Import Part_three Counter_facts.

Lemma string_eqb_spec (a b : string) : String.eqb a b = true <-> a = b.
Proof. apply String.eqb_eq. Qed.

(** *** [most_common] *)



(** *** Snapshot dictionaries *)

Lemma snap_get_set (d : snapshot) (k v e : string) :
  snap_get (snap_set d k v) e = if String.eqb e k then Some v else snap_get d e.
Proof.
  induction d as [| [k0 v0] r IH]; simpl.
  - reflexivity.
  - destruct (String.eqb k k0) eqn:E; simpl.
    + apply String.eqb_eq in E. subst k0.
      destruct (String.eqb e k); reflexivity.
    + destruct (String.eqb e k0) eqn:E'; [ | apply IH ].
      apply String.eqb_eq in E'. subst k0.
      destruct (String.eqb e k) eqn:E''; [ | reflexivity ].
      apply String.eqb_eq in E''. subst. rewrite String.eqb_refl in E.
      discriminate.
Qed.

Lemma snap_get_fold_other (rows : snapshot) (d : snapshot) (e : string) :
  ~ In e (map fst rows) ->
  snap_get (fold_left (fun d row => snap_set d (fst row) (snd row)) rows d) e
  = snap_get d e.
Proof.
  revert d. induction rows as [| [k v] r IH]; intros d H; simpl.
  - reflexivity.
  - rewrite IH by (simpl in H; tauto). rewrite snap_get_set. simpl.
    destruct (String.eqb e k) eqn:E; [ | reflexivity ].
    apply String.eqb_eq in E. subst. simpl in H. tauto.
Qed.

Lemma snap_get_fold_row (rows : snapshot) (d : snapshot) (e l : string) :
  NoDup (map fst rows) -> In (e, l) rows ->
  snap_get (fold_left (fun d row => snap_set d (fst row) (snd row)) rows d) e
  = Some l.
Proof.
  revert d. induction rows as [| [k v] r IH]; intros d Hnd Hin; simpl.
  - contradiction.
  - inversion Hnd as [| ? ? Hn Hr]; subst. destruct Hin as [Heq | Hin].
    + inversion Heq; subst. rewrite snap_get_fold_other by assumption.
      rewrite snap_get_set. now rewrite String.eqb_refl.
    + now apply IH.
Qed.

(** A snapshot file with one row for each entity is read back as
    written. *)
Lemma read_snapshot_row (rows : snapshot) (e l : string) :
  NoDup (map fst rows) -> In (e, l) rows ->
  snap_get (read_snapshot rows) e = Some l.
Proof. apply snap_get_fold_row. Qed.

Lemma read_snapshot_missing (rows : snapshot) (e : string) :
  ~ In e (map fst rows) -> snap_get (read_snapshot rows) e = None.
Proof. intros H. unfold read_snapshot. now rewrite snap_get_fold_other. Qed.

(** *** The votes *)

Lemma votes_of_vote (v : list (string * tally)) (e l e' : string) :
  votes_of (vote v e l) e'
  = if String.eqb e' e then incr String.eqb (votes_of v e) l else votes_of v e'.
Proof.
  induction v as [| [k cnt] r IH]; simpl.
  - destruct (String.eqb e' e); reflexivity.
  - destruct (String.eqb e k) eqn:E; simpl.
    + apply String.eqb_eq in E. subst k.
      destruct (String.eqb e' e); reflexivity.
    + destruct (String.eqb e' k) eqn:E'; [ | apply IH ].
      apply String.eqb_eq in E'. subst k.
      destruct (String.eqb e' e) eqn:E''; [ | reflexivity ].
      apply String.eqb_eq in E''. subst. rewrite String.eqb_refl in E.
      discriminate.
Qed.

Lemma In_keys_vote (v : list (string * tally)) (e l k : string) :
  In k (keys (vote v e l)) <-> k = e \/ In k (keys v).
Proof.
  unfold keys. induction v as [| [k0 cnt] r IH]; simpl.
  - intuition.
  - destruct (String.eqb e k0) eqn:E; simpl.
    + apply String.eqb_eq in E. subst. intuition.
    + rewrite IH. intuition.
Qed.

Lemma NoDup_keys_vote (v : list (string * tally)) (e l : string) :
  NoDup (keys v) -> NoDup (keys (vote v e l)).
Proof.
  unfold keys. induction v as [| [k0 cnt] r IH]; simpl; intros H.
  - constructor; [ intros [] | constructor ].
  - destruct (String.eqb e k0) eqn:E; simpl; [ assumption | ].
    inversion H as [| ? ? Hn Hr]; subst. constructor.
    + intros Hin. apply (In_keys_vote r e l k0) in Hin.
      apply String.eqb_neq in E. destruct Hin; [ congruence | contradiction ].
    + now apply IH.
Qed.

Lemma In_votes_of (v : list (string * tally)) (e : string) :
  In e (keys v) -> In (e, votes_of v e) v.
Proof.
  unfold keys. induction v as [| [k cnt] r IH]; simpl; intros H.
  - contradiction.
  - destruct (String.eqb e k) eqn:E.
    + apply String.eqb_eq in E. subst. now left.
    + right. apply IH. destruct H as [-> | H]; [ | assumption ].
      rewrite String.eqb_refl in E. discriminate.
Qed.

Lemma good_votes_nil : good_votes [].
Proof. intros e. simpl. split; constructor. Qed.

Lemma good_votes_vote (v : list (string * tally)) (e l : string) :
  good_votes v -> good_votes (vote v e l).
Proof.
  intros H e'. rewrite votes_of_vote.
  destruct (String.eqb e' e); [ | apply H ].
  destruct (H e) as [H1 H2]. split.
  - now apply (NoDup_keys_incr String.eqb string_eqb_spec).
  - now apply positive_incr.
Qed.

Section Votes.

Variable o : Order.
Variable current : snapshot.

Lemma count_incr_label (T : tally) (l L : string) :
  count_of String.eqb (incr String.eqb T l) L
  = count_of String.eqb T L + (if String.eqb l L then 1 else 0).
Proof.
  rewrite (count_of_incr String.eqb string_eqb_spec).
  now rewrite (String.eqb_sym L l).
Qed.

Lemma count_neighbour_votes (e : string) (ns : list string)
  (v : list (string * tally)) (e' L : string) :
  count_of String.eqb (votes_of (fold_left (neighbour_vote current e) ns v) e') L
  = count_of String.eqb (votes_of v e') L
    + (if String.eqb e' e then List.length (filter (holds current L) ns) else 0).
Proof.
  revert v. induction ns as [| n r IH]; intros v; simpl.
  - destruct (String.eqb e' e); lia.
  - rewrite IH.
    assert (Hh : holds current L n
                 = match snap_get current n with
                   | Some l => String.eqb l L
                   | None => false
                   end) by reflexivity.
    rewrite Hh. unfold neighbour_vote at 1.
    destruct (snap_get current n) as [l |].
    + rewrite votes_of_vote. destruct (String.eqb e' e) eqn:E.
      * apply String.eqb_eq in E. subst e'. rewrite count_incr_label.
        destruct (String.eqb l L); simpl; lia.
      * reflexivity.
    + reflexivity.
Qed.

Lemma length_filter_iter (f : string -> bool) (l : list string) :
  List.length (filter f (iter o l)) = List.length (filter f l).
Proof.
  apply Permutation_length.
  assert (H : forall a b : list string,
             Permutation a b -> Permutation (filter f a) (filter f b)).
  { intros a b Hp. induction Hp; simpl.
    - constructor.
    - destruct (f x); [ now constructor | assumption ].
    - destruct (f x), (f y); try apply Permutation_refl. apply perm_swap.
    - eapply Permutation_trans; eassumption. }
  apply H, iter_perm.
Qed.

Lemma collect_unfold (v : list (string * tally)) (entry : string * list string) :
  collect o current v entry
  = fold_left (neighbour_vote current (fst entry)) (iter o (snd entry))
      (vote v (fst entry) (self_label current (fst entry))).
Proof. reflexivity. Qed.

(** What one entry of an adjacency dictionary adds to the votes. *)
Lemma count_collect (v : list (string * tally)) (entry : string * list string)
  (e' L : string) :
  count_of String.eqb (votes_of (collect o current v entry) e') L
  = count_of String.eqb (votes_of v e') L
    + (if String.eqb e' (fst entry)
       then spec_tally current (fst entry) (snd entry) L else 0).
Proof.
  rewrite collect_unfold, count_neighbour_votes, votes_of_vote.
  unfold spec_tally. rewrite length_filter_iter.
  destruct (String.eqb e' (fst entry)) eqn:E; [ | lia ].
  apply String.eqb_eq in E. subst e'. rewrite count_incr_label. lia.
Qed.

Lemma fold_neighbour_vote_inv (P : list (string * tally) -> Prop) (e : string) :
  (forall v l, P v -> P (vote v e l)) ->
  forall ns v, P v -> P (fold_left (neighbour_vote current e) ns v).
Proof.
  intros Hstep ns. induction ns as [| n r IH]; intros v Hv; simpl.
  - assumption.
  - apply IH. unfold neighbour_vote. destruct (snap_get current n); auto.
Qed.

Lemma good_votes_collect (v : list (string * tally)) (entry : string * list string) :
  good_votes v -> good_votes (collect o current v entry).
Proof.
  intros H. rewrite collect_unfold.
  apply fold_neighbour_vote_inv; [ intros; now apply good_votes_vote | ].
  now apply good_votes_vote.
Qed.

Lemma NoDup_keys_collect (v : list (string * tally)) (entry : string * list string) :
  NoDup (keys v) -> NoDup (keys (collect o current v entry)).
Proof.
  intros H. rewrite collect_unfold.
  apply fold_neighbour_vote_inv; [ intros; now apply NoDup_keys_vote | ].
  now apply NoDup_keys_vote.
Qed.

Lemma In_keys_collect (v : list (string * tally)) (entry : string * list string)
  (k : string) :
  In k (keys (collect o current v entry)) <-> k = fst entry \/ In k (keys v).
Proof.
  rewrite collect_unfold.
  apply (fold_neighbour_vote_inv
           (fun w => In k (keys w) <-> k = fst entry \/ In k (keys v))).
  - intros w l Hw. rewrite In_keys_vote. tauto.
  - rewrite In_keys_vote. tauto.
Qed.

Lemma fold_collect_inv (P : list (string * tally) -> Prop) :
  (forall v entry, P v -> P (collect o current v entry)) ->
  forall d v, P v -> P (fold_left (collect o current) d v).
Proof.
  intros Hstep d. induction d as [| x r IH]; intros v Hv; simpl; auto.
Qed.

Lemma In_keys_fold_collect (d : list (string * list string))
  (v : list (string * tally)) (k : string) :
  In k (keys (fold_left (collect o current) d v))
  <-> In k (keys d) \/ In k (keys v).
Proof.
  revert v. induction d as [| x r IH]; intros v; simpl.
  - tauto.
  - rewrite IH, In_keys_collect. unfold keys. simpl. intuition congruence.
Qed.

Lemma count_fold_collect_other (d : list (string * list string))
  (v : list (string * tally)) (e L : string) :
  ~ In e (keys d) ->
  count_of String.eqb (votes_of (fold_left (collect o current) d v) e) L
  = count_of String.eqb (votes_of v e) L.
Proof.
  revert v. induction d as [| [k ns] r IH]; intros v H; simpl.
  - reflexivity.
  - assert (Hk : e <> k) by (intros ->; apply H; now left).
    assert (Hr : ~ In e (keys r)) by (intros Hr; apply H; now right).
    rewrite IH by assumption. rewrite count_collect. simpl.
    apply String.eqb_neq in Hk. rewrite Hk. lia.
Qed.

(** What a whole adjacency dictionary adds to the votes of one of its
    keys. *)
Lemma count_fold_collect (d : list (string * list string))
  (v : list (string * tally)) (e L : string) :
  NoDup (keys d) -> In e (keys d) ->
  count_of String.eqb (votes_of (fold_left (collect o current) d v) e) L
  = count_of String.eqb (votes_of v e) L + spec_tally current e (get d e) L.
Proof.
  revert v. induction d as [| [k ns] r IH]; intros v Hnd Hin; simpl.
  - contradiction.
  - simpl in Hnd. inversion Hnd as [| ? ? Hn Hr]; subst.
    destruct (String.eqb e k) eqn:E.
    + apply String.eqb_eq in E. subst k.
      rewrite count_fold_collect_other by assumption.
      rewrite count_collect. simpl. now rewrite String.eqb_refl.
    + simpl in Hin. destruct Hin as [-> | Hin].
      * rewrite String.eqb_refl in E. discriminate.
      * rewrite IH by assumption. rewrite count_collect. simpl.
        rewrite E. lia.
Qed.

Variable p : phase1.
Hypothesis nodup_c : NoDup (keys (cardholder_neighbors_tmp p)).
Hypothesis nodup_m : NoDup (keys (merchant_neighbors_tmp p)).


Lemma good_new_cluster_votes : good_votes (new_cluster_votes o p current).
Proof.
  unfold new_cluster_votes.
  apply fold_collect_inv; [ intros; now apply good_votes_collect | ].
  apply fold_collect_inv; [ intros; now apply good_votes_collect | ].
  apply good_votes_nil.
Qed.

Lemma NoDup_new_cluster_votes : NoDup (keys (new_cluster_votes o p current)).
Proof.
  unfold new_cluster_votes.
  apply fold_collect_inv; [ intros; now apply NoDup_keys_collect | ].
  apply fold_collect_inv; [ intros; now apply NoDup_keys_collect | ].
  constructor.
Qed.

Lemma In_keys_new_cluster_votes (e : string) :
  In e (keys (new_cluster_votes o p current))
  <-> In e (keys (cardholder_neighbors_tmp p))
      \/ In e (keys (merchant_neighbors_tmp p)).
Proof.
  unfold new_cluster_votes. rewrite !In_keys_fold_collect. simpl. tauto.
Qed.

End Votes.

(** *** The rounds *)

Lemma read_input_ok (lines : list string) (st p : phase1) :
  read_input lines st = Finished p -> phase1_ok st -> phase1_ok p.
Proof.
  revert st. induction lines as [| line rest IH]; intros st H Hst; simpl in H.
  - inversion H; subst. assumption.
  - destruct (Part_one.split line) as [| c [| m [| x r]]]; try discriminate.
    apply IH in H; [ assumption | ].
    destruct Hst as [H1 [H2 [H3 H4]]].
    split; [ | split; [ | split ] ]; simpl.
    + apply NoDup_set_add, NoDup_set_add, H1.
    + apply NoDup_keys_dict_add, H2.
    + apply NoDup_keys_dict_add, H3.
    + intros e. rewrite !In_set_add, !In_keys_dict_add, H4. tauto.
Qed.

Lemma no_input_ok : phase1_ok no_input.
Proof.
  repeat split; simpl; try constructor; try tauto.
Qed.

Section Rounds.

Variable o : Order.
Variable p : phase1.
Hypothesis p_ok : phase1_ok p.

Lemma initial_label (e : string) :
  In e (all_unique_entities p) ->
  snap_get (read_snapshot (initial_snapshot o p)) e = Some e.
Proof.
  intros H. apply read_snapshot_row.
  - unfold initial_snapshot. rewrite map_map. simpl. rewrite map_id.
    apply (Permutation_NoDup (Permutation_sym (iter_perm o _))).
    apply p_ok.
  - unfold initial_snapshot. apply in_map_iff. exists e.
    split; [ reflexivity | now apply In_iter ].
Qed.

Lemma propagate_label (rows : snapshot) (e : string) :
  In e (all_unique_entities p) ->
  snap_get (read_snapshot (propagate o p rows)) e
  = Some (most_common (votes_of (new_cluster_votes o p (read_snapshot rows)) e)).
Proof.
  intros H. destruct p_ok as [_ [Hc [Hm Hall]]].
  apply read_snapshot_row.
  - unfold propagate. rewrite map_map. simpl.
    apply NoDup_new_cluster_votes.
  - unfold propagate. apply in_map_iff.
    exists (e, votes_of (new_cluster_votes o p (read_snapshot rows)) e).
    split; [ reflexivity | ].
    apply In_votes_of. apply In_keys_new_cluster_votes. now apply Hall.
Qed.


End Rounds.


(** *** The labels of a run *)

Lemma sets_ok_dict_add (d : list (string * list string)) (k x : string) :
  sets_ok d -> sets_ok (dict_add d k x).
Proof.
  unfold sets_ok. induction d as [| [k0 v] r IH]; simpl; intros H.
  - repeat constructor. intros [].
  - inversion H; subst. destruct (String.eqb k k0); constructor; simpl in *;
      auto using NoDup_set_add.
Qed.

Lemma sets_ok_get (d : list (string * list string)) (k : string) :
  sets_ok d -> NoDup (get d k).
Proof.
  unfold sets_ok. induction d as [| [k0 v] r IH]; simpl; intros H.
  - constructor.
  - inversion H; subst. destruct (String.eqb k k0); auto.
Qed.

Lemma read_input_sets (lines : list string) (st p : phase1) :
  read_input lines st = Finished p ->
  sets_ok (cardholder_neighbors_tmp st) /\ sets_ok (merchant_neighbors_tmp st) ->
  sets_ok (cardholder_neighbors_tmp p) /\ sets_ok (merchant_neighbors_tmp p).
Proof.
  revert st. induction lines as [| line rest IH]; intros st H Hst; simpl in H.
  - inversion H; subst. assumption.
  - destruct (Part_one.split line) as [| c [| m [| x r]]]; try discriminate.
    apply IH in H; [ assumption | ].
    destruct Hst as [H1 H2]. split; simpl; now apply sets_ok_dict_add.
Qed.

Lemma head_incr (T : tally) (l k : string) (c : nat) (r : tally) :
  T = (k, c) :: r ->
  exists c' r', incr String.eqb T l = (k, c') :: r'.
Proof.
  intros ->. simpl. destruct (String.eqb l k); eauto.
Qed.

Lemma self_first_vote (current : snapshot) (v : list (string * tally))
  (e l : string) :
  self_first current v ->
  (votes_of v e = [] -> l = self_label current e) ->
  self_first current (vote v e l).
Proof.
  intros H Hl e'. rewrite votes_of_vote.
  destruct (String.eqb e' e) eqn:E; [ | apply H ].
  apply String.eqb_eq in E. subst e'. specialize (H e).
  destruct (votes_of v e) as [| [k c] r] eqn:Ev.
  - simpl. now apply Hl.
  - destruct (head_incr ((k, c) :: r) l k c r eq_refl) as [c' [r' ->]].
    assumption.
Qed.

Lemma votes_of_vote_nonempty (v : list (string * tally)) (e l : string) :
  votes_of (vote v e l) e <> [].
Proof.
  rewrite votes_of_vote, String.eqb_refl.
  destruct (votes_of v e) as [| [k c] r]; simpl; [ discriminate | ].
  destruct (String.eqb l k); discriminate.
Qed.

Lemma self_first_collect (o : Order) (current : snapshot)
  (v : list (string * tally)) (entry : string * list string) :
  self_first current v -> self_first current (collect o current v entry).
Proof.
  intros H. rewrite collect_unfold.
  apply (fold_neighbour_vote_inv current
           (fun w => self_first current w /\ votes_of w (fst entry) <> [])).
  - intros w l [Hw Hne]. split.
    + apply self_first_vote; [ assumption | intros; contradiction ].
    + apply votes_of_vote_nonempty.
  - split.
    + apply self_first_vote; [ assumption | reflexivity ].
    + apply votes_of_vote_nonempty.
Qed.

Lemma self_first_new_cluster_votes (o : Order) (current : snapshot) (p : phase1) :
  self_first current (new_cluster_votes o p current).
Proof.
  unfold new_cluster_votes.
  apply fold_collect_inv; [ intros; now apply self_first_collect | ].
  apply fold_collect_inv; [ intros; now apply self_first_collect | ].
  intros e. exact I.
Qed.

Lemma most_common_head (k : string) (c : nat) (r : tally) :
  (forall y, In y r -> snd y <= c) -> most_common ((k, c) :: r) = k.
Proof.
  intros H. unfold most_common.
  assert (Hf : forall (l : tally) (x : string * nat),
             (forall y, In y l -> snd y <= snd x) ->
             fold_left (fun best y => if snd best <? snd y then y else best) l x
             = x).
  { induction l as [| y l IH]; intros x Hx; simpl; [ reflexivity | ].
    assert (E : (snd x <? snd y) = false).
    { apply Nat.ltb_ge. apply Hx. now left. }
    rewrite E. apply IH. intros z Hz. apply Hx. now right. }
  rewrite Hf; [ reflexivity | exact H ].
Qed.

Lemma self_label_own (current : snapshot) (e : string) :
  own_labels current -> self_label current e = e.
Proof.
  intros H. unfold self_label.
  destruct (snap_get current e) as [l |] eqn:E; [ now apply H | reflexivity ].
Qed.

Lemma length_filter_one (f : string -> bool) (L : string) (ns : list string) :
  NoDup ns -> (forall n, f n = true -> n = L) ->
  List.length (filter f ns) <= 1.
Proof.
  intros Hnd Hf. induction Hnd as [| n r Hn Hr IH]; simpl; [ lia | ].
  destruct (f n) eqn:E; [ | assumption ].
  apply Hf in E. subst n. simpl.
  assert (Hz : filter f r = []).
  { destruct (filter f r) as [| z l] eqn:Ez; [ reflexivity | ].
    assert (Hin : In z (filter f r)) by (rewrite Ez; now left).
    apply filter_In in Hin. destruct Hin as [Hin Hfz].
    apply Hf in Hfz. subst z. contradiction. }
  rewrite Hz. simpl. lia.
Qed.

(** When every label is the id of its entity, no other label gets more
    votes than the self vote. *)
Lemma spec_tally_own (current : snapshot) (e L : string) (ns : list string) :
  own_labels current -> NoDup ns -> L <> e ->
  spec_tally current e ns L <= spec_tally current e ns e.
Proof.
  intros Hown Hnd HL. unfold spec_tally.
  rewrite (self_label_own current e Hown), String.eqb_refl.
  assert (E : String.eqb e L = false) by (apply String.eqb_neq; congruence).
  rewrite E.
  assert (List.length (filter (holds current L) ns) <= 1); [ | lia ].
  apply (length_filter_one _ L); [ assumption | ].
  intros n Hn. unfold holds in Hn.
  destruct (snap_get current n) as [l |] eqn:En; [ | discriminate ].
  apply String.eqb_eq in Hn. apply Hown in En. congruence.
Qed.

Lemma spec_tally_self (current : snapshot) (e : string) (ns : list string) :
  own_labels current -> 1 <= spec_tally current e ns e.
Proof.
  intros Hown. unfold spec_tally.
  rewrite (self_label_own current e Hown), String.eqb_refl. lia.
Qed.

Section Run_labels.

Variable o : Order.
Variable p : phase1.
Hypothesis p_ok : phase1_ok p.
Hypothesis sets_c : sets_ok (cardholder_neighbors_tmp p).
Hypothesis sets_m : sets_ok (merchant_neighbors_tmp p).

(** The votes of an entity, whether its id is on one side or on both. *)
Lemma votes_both_sides (current : snapshot) (e L : string) :
  count_of String.eqb (votes_of (new_cluster_votes o p current) e) L
  = (if in_dec string_dec e (keys (cardholder_neighbors_tmp p))
     then spec_tally current e (get (cardholder_neighbors_tmp p) e) L else 0)
    + (if in_dec string_dec e (keys (merchant_neighbors_tmp p))
       then spec_tally current e (get (merchant_neighbors_tmp p) e) L else 0).
Proof.
  destruct p_ok as [_ [Hc [Hm _]]]. unfold new_cluster_votes.
  destruct (in_dec string_dec e (keys (merchant_neighbors_tmp p)));
    [ rewrite count_fold_collect by assumption
    | rewrite count_fold_collect_other by assumption ];
    (destruct (in_dec string_dec e (keys (cardholder_neighbors_tmp p)));
     [ rewrite count_fold_collect by assumption
     | rewrite count_fold_collect_other by assumption ]);
    simpl; lia.
Qed.

(** With every entity labelled by its own id, every entity keeps its
    label. *)
Lemma own_label_kept (current : snapshot) (e : string) :
  own_labels current ->
  In e (all_unique_entities p) ->
  most_common (votes_of (new_cluster_votes o p current) e) = e.
Proof.
  intros Hown He.
  set (T := votes_of (new_cluster_votes o p current) e).
  assert (Hcount : forall L, L <> e ->
            count_of String.eqb T L <= count_of String.eqb T e).
  { intros L HL. unfold T. rewrite !votes_both_sides.
    pose proof (spec_tally_own current e L _ Hown
                  (sets_ok_get _ e sets_c) HL).
    pose proof (spec_tally_own current e L _ Hown
                  (sets_ok_get _ e sets_m) HL).
    repeat destruct (in_dec _ _ _); lia. }
  assert (Hself : 1 <= count_of String.eqb T e).
  { unfold T. rewrite votes_both_sides.
    pose proof (spec_tally_self current e
                  (get (cardholder_neighbors_tmp p) e) Hown).
    pose proof (spec_tally_self current e
                  (get (merchant_neighbors_tmp p) e) Hown).
    destruct p_ok as [_ [_ [_ Hall]]]. apply Hall in He.
    repeat destruct (in_dec _ _ _); try lia. tauto. }
  destruct (good_new_cluster_votes o current p e) as [G1 G2].
  fold T in G1, G2.
  pose proof (self_first_new_cluster_votes o current p e) as Hfirst.
  fold T in Hfirst.
  destruct T as [| [k c] r] eqn:ET; [ simpl in Hself; lia | ].
  rewrite (self_label_own current e Hown) in Hfirst. subst k.
  apply most_common_head. intros [L cL] Hy. simpl.
  simpl in G1. inversion G1 as [| ? ? Hn Hr]; subst.
  assert (HL : L <> e).
  { intros ->. apply Hn. apply in_map_iff. now exists (e, cL). }
  specialize (Hcount L HL). simpl in Hcount.
  rewrite String.eqb_refl in Hcount.
  assert (E : String.eqb L e = false) by (now apply String.eqb_neq).
  rewrite E in Hcount.
  rewrite (count_of_In String.eqb string_eqb_spec r L cL Hr Hy) in Hcount.
  exact Hcount.
Qed.

Lemma keys_propagate (rows : snapshot) (e : string) :
  In e (map fst (propagate o p rows)) <-> In e (all_unique_entities p).
Proof.
  unfold propagate. rewrite map_map. simpl.
  change (map (fun x : string * tally => fst x)
              (new_cluster_votes o p (read_snapshot rows)))
    with (keys (new_cluster_votes o p (read_snapshot rows))).
  rewrite In_keys_new_cluster_votes.
  destruct p_ok as [_ [_ [_ Hall]]]. symmetry. apply Hall.
Qed.

(** After every number of rounds the snapshot gives every entity its own
    id, and has no other entry. *)
Lemma labels_never_change (k : nat) (e : string) :
  snap_get (read_snapshot (snapshot_after o p k)) e
  = if in_dec string_dec e (all_unique_entities p) then Some e else None.
Proof.
  revert e. induction k as [| k IH]; intros e.
  - destruct (in_dec string_dec e (all_unique_entities p)) as [He | He].
    + now apply initial_label.
    + apply read_snapshot_missing. simpl snapshot_after.
      unfold initial_snapshot. rewrite map_map. simpl. rewrite map_id. now rewrite In_iter.
  - simpl snapshot_after.
    destruct (in_dec string_dec e (all_unique_entities p)) as [He | He].
    + rewrite propagate_label by assumption. f_equal.
      apply own_label_kept; [ | assumption ].
      intros n l Hn. rewrite IH in Hn.
      destruct (in_dec string_dec n (all_unique_entities p)); congruence.
    + apply read_snapshot_missing. now rewrite keys_propagate.
Qed.

End Run_labels.

Lemma read_input_order_free (o1 o2 : Order) (t : Q) (lines : list string)
  (n : Z) :
  match read_input lines no_input with
  | Finished p =>
      exists r1 r2,
        process_large_dataset_batch o1 t lines n = Finished r1
        /\ process_large_dataset_batch o2 t lines n = Finished r2
        /\ final_snapshot r1 = last_snapshot o1 p n
        /\ final_snapshot r2 = last_snapshot o2 p n
  | ValueError =>
      process_large_dataset_batch o1 t lines n = ValueError
      /\ process_large_dataset_batch o2 t lines n = ValueError
  end.
Proof.
  unfold process_large_dataset_batch.
  destruct (read_input lines no_input) as [p |].
  - eexists; eexists. repeat split; reflexivity.
  - split; reflexivity.
Qed.

(** C9: two runs of mode (b) on the same input with the same round count
    end alike, whatever order each of them iterates its sets in: either
    both stop on a line that has not two tokens, or both finish and their
    last snapshots give the same label to every entity. *)
Theorem label_propagation_deterministic (o1 o2 : Order) (t : Q)
  (lines : list string) (num_iterations : Z) :
  match process_large_dataset_batch o1 t lines num_iterations,
        process_large_dataset_batch o2 t lines num_iterations with
  | Finished r1, Finished r2 =>
      forall e, snap_get (read_snapshot (final_snapshot r1)) e
                = snap_get (read_snapshot (final_snapshot r2)) e
  | ValueError, ValueError => True
  | _, _ => False
  end.
Proof.
  pose proof (read_input_order_free o1 o2 t lines num_iterations) as H.
  destruct (read_input lines no_input) as [p |] eqn:Hp.
  - destruct H as [r1 [r2 [H1 [H2 [F1 F2]]]]]. rewrite H1, H2.
    intros e. rewrite F1, F2. unfold last_snapshot.
    assert (Hok : phase1_ok p)
      by (eapply read_input_ok; [ exact Hp | apply no_input_ok ]).
    destruct (read_input_sets lines no_input p Hp) as [Sc Sm].
    { split; constructor. }
    now rewrite !labels_never_change.
  - destruct H as [H1 H2]. now rewrite H1, H2.
Qed.


End Propagation_facts.

(** ** The duplication pass of mode (a) *)

Module Duplication_facts.

Import Part_two Counter_facts.

Lemma nat_eqb_spec (a b : nat) : Nat.eqb a b = true <-> a = b.
Proof. apply Nat.eqb_eq. Qed.

(** The loop over the clusters, from the index [s] on. *)
Lemma count_clusters_from (ty : entity_type) (n : string) (l : list cluster)
  (s : nat) (counts : list (nat * nat)) (i : nat) :
  count_of Nat.eqb
    (fold_left
       (fun counts ic =>
          if mem n (opposite_side ty (snd ic))
          then incr Nat.eqb counts (fst ic) else counts)
       (combine (seq s (List.length l)) l) counts) i
  = count_of Nat.eqb counts i
    + (if (s <=? i) && member_at ty l (i - s) n then 1 else 0).
Proof.
  revert s counts. induction l as [| cl r IH]; intros s counts; simpl.
  - assert (E : member_at ty [] (i - s) n = false)
      by (unfold member_at; now destruct (i - s)).
    rewrite E, andb_false_r. lia.
  - rewrite IH.
    assert (Hhead : count_of Nat.eqb
                      (if mem n (opposite_side ty cl)
                       then incr Nat.eqb counts s else counts) i
                    = count_of Nat.eqb counts i
                      + (if (i =? s) && mem n (opposite_side ty cl)
                         then 1 else 0)).
    { destruct (mem n (opposite_side ty cl)).
      - rewrite (count_of_incr Nat.eqb nat_eqb_spec), andb_true_r. reflexivity.
      - rewrite andb_false_r. lia. }
    rewrite Hhead. clear Hhead IH.
    destruct (Nat.lt_trichotomy i s) as [Hlt | [Heq | Hgt]].
    + replace (S s <=? i) with false by (symmetry; apply Nat.leb_gt; lia).
      replace (s <=? i) with false by (symmetry; apply Nat.leb_gt; lia).
      replace (i =? s) with false by (symmetry; apply Nat.eqb_neq; lia).
      cbn [andb]. lia.
    + subst i.
      replace (S s <=? s) with false by (symmetry; apply Nat.leb_gt; lia).
      rewrite Nat.leb_refl, Nat.eqb_refl, Nat.sub_diag.
      unfold member_at. cbn [nth_error andb]. lia.
    + replace (S s <=? i) with true by (symmetry; apply Nat.leb_le; lia).
      replace (s <=? i) with true by (symmetry; apply Nat.leb_le; lia).
      replace (i =? s) with false by (symmetry; apply Nat.eqb_neq; lia).
      replace (i - s) with (S (i - S s)) by lia.
      unfold member_at. cbn [nth_error andb]. lia.
Qed.

Lemma count_neighbour_spec (ty : entity_type) (fc : list cluster)
  (counts : list (nat * nat)) (n : string) (i : nat) :
  count_of Nat.eqb (count_neighbour ty fc counts n) i
  = count_of Nat.eqb counts i + (if member_at ty fc i n then 1 else 0).
Proof.
  unfold count_neighbour, enumerate. rewrite count_clusters_from.
  simpl. now rewrite Nat.sub_0_r.
Qed.

Lemma count_neighbour_inv (P : list (nat * nat) -> Prop) (ty : entity_type)
  (fc : list cluster) (n : string) :
  (forall c i, P c -> P (incr Nat.eqb c i)) ->
  forall counts, P counts -> P (count_neighbour ty fc counts n).
Proof.
  intros Hstep. unfold count_neighbour.
  induction (enumerate fc) as [| ic r IH]; intros counts Hc; simpl.
  - assumption.
  - apply IH. destruct (mem n (opposite_side ty (snd ic))); auto.
Qed.

Lemma fold_count_neighbour (ty : entity_type) (fc : list cluster)
  (ns : list string) (counts : list (nat * nat)) (i : nat) :
  count_of Nat.eqb (fold_left (count_neighbour ty fc) ns counts) i
  = count_of Nat.eqb counts i + interactions_with ty fc ns i.
Proof.
  revert counts. unfold interactions_with.
  induction ns as [| n r IH]; intros counts; simpl.
  - lia.
  - rewrite IH, count_neighbour_spec.
    destruct (member_at ty fc i n); simpl; lia.
Qed.

(** The counter of an entity holds, for every cluster, the number of its
    neighbours that are members of the cluster. *)
Lemma interaction_counts_spec (ty : entity_type) (fc : list cluster)
  (ns : list string) (i : nat) :
  count_of Nat.eqb (interaction_counts ty fc ns) i
  = interactions_with ty fc ns i.
Proof.
  unfold interaction_counts. now rewrite fold_count_neighbour.
Qed.

Lemma interaction_counts_inv (P : list (nat * nat) -> Prop) (ty : entity_type)
  (fc : list cluster) (ns : list string) :
  (forall c i, P c -> P (incr Nat.eqb c i)) ->
  P [] -> P (interaction_counts ty fc ns).
Proof.
  intros Hstep H0. unfold interaction_counts.
  generalize (@nil (nat * nat)) H0.
  induction ns as [| n r IH]; intros counts Hc; simpl.
  - assumption.
  - apply IH. now apply count_neighbour_inv.
Qed.

Lemma interaction_counts_nodup (ty : entity_type) (fc : list cluster)
  (ns : list string) :
  NoDup (map fst (interaction_counts ty fc ns)).
Proof.
  apply interaction_counts_inv; [ | constructor ].
  intros c i. apply (NoDup_keys_incr Nat.eqb nat_eqb_spec).
Qed.

Lemma interaction_counts_positive (ty : entity_type) (fc : list cluster)
  (ns : list string) :
  Forall (fun kv => 0 < snd kv) (interaction_counts ty fc ns).
Proof.
  apply interaction_counts_inv; [ | constructor ].
  intros c i. apply positive_incr.
Qed.

(** The candidates are the clusters with a positive count, each with its
    count. *)
Lemma interaction_counts_entries (ty : entity_type) (fc : list cluster)
  (ns : list string) (i c : nat) :
  In (i, c) (interaction_counts ty fc ns)
  <-> c = interactions_with ty fc ns i /\ 0 < c.
Proof.
  pose proof (interaction_counts_nodup ty fc ns) as Hnd.
  pose proof (interaction_counts_positive ty fc ns) as Hpos.
  pose proof (interaction_counts_spec ty fc ns i) as Hc.
  split.
  - intros Hin. split.
    + rewrite <- Hc. symmetry.
      now apply (count_of_In Nat.eqb nat_eqb_spec).
    + rewrite Forall_forall in Hpos. now apply (Hpos (i, c)).
  - intros [-> Hp]. rewrite <- Hc.
    apply (count_of_key Nat.eqb nat_eqb_spec).
    destruct (in_dec Nat.eq_dec i (map fst (interaction_counts ty fc ns)))
      as [Hin | Hout]; [ assumption | ].
    apply (count_of_not_key Nat.eqb nat_eqb_spec) in Hout. lia.
Qed.

(** *** Sorting the candidates *)

Section Sorting.

Context {K : Type}.


Lemma insert_desc_perm (x : K * nat) (l : list (K * nat)) :
  Permutation (insert_desc x l) (x :: l).
Proof.
  induction l as [| z r IH]; simpl.
  - apply Permutation_refl.
  - destruct (snd x <? snd z); [ | apply Permutation_refl ].
    eapply Permutation_trans; [ apply perm_skip, IH | apply perm_swap ].
Qed.

Lemma sort_desc_perm (l : list (K * nat)) : Permutation (sort_desc l) l.
Proof.
  induction l as [| x r IH]; simpl.
  - constructor.
  - eapply Permutation_trans; [ apply insert_desc_perm | now constructor ].
Qed.

Lemma In_sort_desc (y : K * nat) (l : list (K * nat)) :
  In y (sort_desc l) <-> In y l.
Proof.
  split; apply Permutation_in;
    [ apply sort_desc_perm | apply Permutation_sym, sort_desc_perm ].
Qed.





End Sorting.

(** *** Insertions *)








Section Engine.

Variable o : Order.
Variable t : Q.

Lemma interactions_with_iter (ty : entity_type) (fc : list cluster)
  (ns : list string) (i : nat) :
  interactions_with ty fc (iter o ns) i = interactions_with ty fc ns i.
Proof.
  unfold interactions_with. apply Propagation_facts.length_filter_iter.
Qed.



End Engine.

End Duplication_facts.

(** ** The core-cluster loops end *)

Module Termination.

Import Part_two.

Lemma length_filter_le {A : Type} (f : A -> bool) (l : list A) :
  List.length (filter f l) <= List.length l.
Proof.
  induction l as [| x r IH]; simpl; [ lia | ].
  destruct (f x); simpl; lia.
Qed.

Lemma mem_set_add (k x : string) (cur : list string) :
  mem k (set_add x cur) = String.eqb k x || mem k cur.
Proof.
  apply eq_true_iff_eq. rewrite orb_true_iff, !mem_In, In_set_add.
  now rewrite String.eqb_eq.
Qed.

Lemma pending_shrinks (d : list (string * list string)) (x : string)
  (cur : list string) :
  pending d (set_add x cur) <= pending d cur.
Proof.
  unfold pending. induction d as [| [k v] r IH]; simpl; [ lia | ].
  rewrite mem_set_add.
  destruct (String.eqb k x), (mem k cur); simpl; lia.
Qed.

(** Taking an entity into the cluster takes its adjacency entries out of
    [pending]. *)
Lemma pending_set_add (d : list (string * list string)) (x : string)
  (cur : list string) :
  mem x cur = false ->
  pending d (set_add x cur) + List.length (get d x) <= pending d cur.
Proof.
  intros Hx. unfold pending. induction d as [| [k v] r IH]; simpl; [ lia | ].
  rewrite mem_set_add. destruct (String.eqb x k) eqn:E.
  - apply String.eqb_eq in E. subst k. rewrite String.eqb_refl, Hx. simpl.
    pose proof (pending_shrinks r x cur) as Hs. unfold pending in Hs. lia.
  - rewrite String.eqb_sym, E. simpl. destruct (mem k cur); lia.
Qed.

Section Loops.

Variable o : Order.
Variable c2m m2c : list (string * list string).

Lemma length_pushed (f : string -> bool) (l : list string) :
  List.length (filter f (iter o l)) <= List.length l.
Proof.
  rewrite <- (Permutation_length (iter_perm o l)). apply length_filter_le.
Qed.

(** A turn of the loop over the queue does not raise the potential of the
    state it starts from, the entity taken from the queue set aside. *)
Lemma bfs_step_potential (k : nat) (x : string) (b : bfs_state) :
  potential c2m m2c (bfs_step o c2m m2c k x b) <= potential c2m m2c b.
Proof.
  unfold bfs_step.
  destruct (prefix "C" x).
  - destruct (core_elsewhere _ _ _); [ lia | ].
    destruct (mem x (current_cluster_cardholders b)) eqn:Ex; simpl; [ lia | ].
    unfold potential. simpl. rewrite length_app.
    pose proof (length_pushed
                  (fun merchant => negb (mem merchant (current_cluster_merchants b)))
                  (get c2m x)).
    pose proof (pending_set_add c2m x _ Ex). lia.
  - destruct (prefix "M" x); [ | lia ].
    destruct (core_elsewhere _ _ _); [ lia | ].
    destruct (mem x (current_cluster_merchants b)) eqn:Ex; simpl; [ lia | ].
    unfold potential. simpl. rewrite length_app.
    pose proof (length_pushed
                  (fun cardholder =>
                     negb (mem cardholder (current_cluster_cardholders b)))
                  (get m2c x)).
    pose proof (pending_set_add m2c x _ Ex). lia.
Qed.

(** The loop over the queue ends within the turns the potential allows. *)
Lemma bfs_total (fuel k : nat) (b : bfs_state) :
  potential c2m m2c b <= fuel -> exists b', bfs o c2m m2c fuel k b = Some b'.
Proof.
  revert b. induction fuel as [| fuel IH]; intros b Hp.
  - destruct (queue b) as [| x rest] eqn:Eq.
    + exists b. simpl. now rewrite Eq.
    + unfold potential in Hp. rewrite Eq in Hp. simpl in Hp. lia.
  - simpl. destruct (queue b) as [| x rest] eqn:Eq; [ now exists b | ].
    apply IH.
    pose proof (bfs_step_potential k x (with_queue rest b)) as Hs.
    unfold potential in Hp. rewrite Eq in Hp. simpl in Hp.
    unfold potential at 2 in Hs. simpl in Hs. lia.
Qed.

(** What every turn keeps holds when the loop over the queue is left, and
    the queue is empty then. *)
Lemma bfs_inv (P : bfs_state -> Prop) (k : nat) :
  (forall b x rest,
      queue b = x :: rest -> P b ->
      P (bfs_step o c2m m2c k x (with_queue rest b))) ->
  forall fuel b b',
    bfs o c2m m2c fuel k b = Some b' -> P b -> P b' /\ queue b' = [].
Proof.
  intros Hstep fuel. induction fuel as [| fuel IH]; intros b b' H Hb; simpl in H.
  - destruct (queue b) eqn:Eq; [ | discriminate ].
    inversion H; subst. now split.
  - destruct (queue b) as [| x rest] eqn:Eq.
    + inversion H; subst. now split.
    + apply IH in H; [ assumption | ]. now apply Hstep.
Qed.

End Loops.

Lemma core_get_core_set (d : list (string * nat)) (e e' : string) (k : nat) :
  core_get (core_set d e k) e'
  = if String.eqb e' e then Some k else core_get d e'.
Proof.
  induction d as [| [k0 v0] r IH]; simpl.
  - reflexivity.
  - destruct (String.eqb e k0) eqn:E; simpl.
    + apply String.eqb_eq in E. subst k0.
      destruct (String.eqb e' e); reflexivity.
    + destruct (String.eqb e' k0) eqn:E'; [ | apply IH ].
      apply String.eqb_eq in E'. subst k0.
      destruct (String.eqb e' e) eqn:E''; [ | reflexivity ].
      apply String.eqb_eq in E''. subst. rewrite String.eqb_refl in E.
      discriminate.
Qed.

Lemma length_discard (x : string) (l : list string) :
  List.length (discard x l) <= List.length l.
Proof. apply length_filter_le. Qed.

Lemma length_discard_lt (x : string) (l : list string) :
  In x l -> List.length (discard x l) < List.length l.
Proof.
  unfold discard. induction l as [| y r IH]; simpl; intros H.
  - contradiction.
  - destruct (String.eqb x y) eqn:E; simpl.
    + pose proof (length_filter_le (fun y => negb (String.eqb x y)) r). lia.
    + destruct H as [-> | H].
      * rewrite String.eqb_refl in E. discriminate.
      * apply IH in H. lia.
Qed.

Lemma prefix_C_not_M (e : string) : prefix "C" e = true -> prefix "M" e = false.
Proof.
  destruct e as [| a e]; [ discriminate | ].
  cbn [prefix]. destruct (ascii_dec "C" a) as [<- | Hn]; intros H;
    [ reflexivity | discriminate H ].
Qed.

Section Outer.

Variable o : Order.
Variable c2m m2c : list (string * list string).

(** A turn keeps the seeds fresh and enlarges no set of unassigned
    entities. *)
Lemma bfs_step_fresh (k : nat) (x : string) (b : bfs_state) :
  seeds_fresh (entity_to_core_cluster_id b)
    (unassigned_cardholders b) (unassigned_merchants b) ->
  let b' := bfs_step o c2m m2c k x b in
  seeds_fresh (entity_to_core_cluster_id b')
    (unassigned_cardholders b') (unassigned_merchants b')
  /\ List.length (unassigned_cardholders b') <= List.length (unassigned_cardholders b)
  /\ List.length (unassigned_merchants b') <= List.length (unassigned_merchants b).
Proof.
  intros H. unfold bfs_step.
  destruct (prefix "C" x) eqn:Ec.
  - destruct (core_elsewhere _ _ _); [ simpl; auto | ].
    destruct (mem x (current_cluster_cardholders b)); simpl; [ auto | ].
    destruct (mem x (unassigned_cardholders b)); [ | auto ].
    split; [ | split; [ apply length_discard | lia ] ].
    intros e. destruct (H e) as [H1 H2]. rewrite core_get_core_set. split.
    + intros He Hin. apply In_discard in Hin. destruct Hin as [Hin Hne].
      apply String.eqb_neq in Hne. rewrite Hne. auto.
    + intros He Hm Hin.
      assert (Hne : String.eqb e x = false)
        by (apply String.eqb_neq; congruence).
      rewrite Hne. auto.
  - destruct (prefix "M" x) eqn:Em; [ | simpl; auto ].
    destruct (core_elsewhere _ _ _); [ simpl; auto | ].
    destruct (mem x (current_cluster_merchants b)); simpl; [ auto | ].
    destruct (mem x (unassigned_merchants b)); [ | auto ].
    split; [ | split; [ lia | apply length_discard ] ].
    intros e. destruct (H e) as [H1 H2]. rewrite core_get_core_set. split.
    + intros He Hin.
      assert (Hne : String.eqb e x = false)
        by (apply String.eqb_neq; congruence).
      rewrite Hne. auto.
    + intros He Hm Hin. apply In_discard in Hin. destruct Hin as [Hin Hne].
      apply String.eqb_neq in Hne. rewrite Hne. auto.
Qed.

(** The first turn of a cluster assigns its seed. *)
Lemma seed_assigned (k : nat) (s : string) (b : bfs_state) :
  seeds_fresh (entity_to_core_cluster_id b)
    (unassigned_cardholders b) (unassigned_merchants b) ->
  is_seed (unassigned_cardholders b) (unassigned_merchants b) s = true ->
  current_cluster_cardholders b = [] -> current_cluster_merchants b = [] ->
  let b' := bfs_step o c2m m2c k s b in
  List.length (unassigned_cardholders b') + List.length (unassigned_merchants b')
  < List.length (unassigned_cardholders b) + List.length (unassigned_merchants b).
Proof.
  intros H Hs Hc Hm. unfold is_seed in Hs. unfold bfs_step, core_elsewhere.
  destruct (H s) as [H1 H2].
  destruct (prefix "C" s) eqn:Ec.
  - destruct (mem s (unassigned_cardholders b)) eqn:Eu; simpl in Hs.
    + apply mem_In in Eu. rewrite (H1 eq_refl Eu), Hc. simpl.
      pose proof (length_discard_lt s _ Eu). lia.
    + rewrite (prefix_C_not_M s Ec) in Hs. discriminate.
  - simpl in Hs. apply andb_true_iff in Hs. destruct Hs as [Em Eu].
    rewrite Em, Eu. apply mem_In in Eu.
    rewrite (H2 eq_refl Em Eu), Hm. simpl.
    pose proof (length_discard_lt s _ Eu). lia.
Qed.

Lemma pending_nil (d : list (string * list string)) :
  pending d [] = total_degree d.
Proof. reflexivity. Qed.

Lemma core_loop_unfold (fuel bfs_fuel : nat) (start : list string)
  (st : core_state) :
  core_loop o c2m m2c fuel bfs_fuel start st
  = if is_empty (un_c st) && is_empty (un_m st) then Some st
    else
      match find (is_seed (un_c st) (un_m st)) start with
      | None => Some st
      | Some current_seed =>
          match fuel with
          | O => None
          | S fuel' =>
              match bfs o c2m m2c bfs_fuel (List.length (clusters st))
                      {| queue := [current_seed];
                         current_cluster_merchants := [];
                         current_cluster_cardholders := [];
                         entity_to_core_cluster_id := core_ids st;
                         unassigned_cardholders := un_c st;
                         unassigned_merchants := un_m st |} with
              | None => None
              | Some b =>
                  core_loop o c2m m2c fuel' bfs_fuel start
                    {| clusters :=
                         if negb (is_empty (current_cluster_merchants b))
                            || negb (is_empty (current_cluster_cardholders b))
                         then
                           clusters st ++
                           [ {| merchants := current_cluster_merchants b;
                                cardholders := current_cluster_cardholders b |} ]
                         else clusters st;
                       core_ids := entity_to_core_cluster_id b;
                       un_c := unassigned_cardholders b;
                       un_m := unassigned_merchants b |}
              end
          end
      end.
Proof. destruct fuel; reflexivity. Qed.

(** The construction of one cluster ends, keeps the seeds fresh and
    leaves fewer unassigned entities. *)
Lemma cluster_built (bfs_fuel : nat) (st : core_state) (s : string) :
  1 + total_degree c2m + total_degree m2c <= bfs_fuel ->
  seeds_fresh (core_ids st) (un_c st) (un_m st) ->
  is_seed (un_c st) (un_m st) s = true ->
  exists b,
    bfs o c2m m2c bfs_fuel (List.length (clusters st))
      {| queue := [s];
         current_cluster_merchants := [];
         current_cluster_cardholders := [];
         entity_to_core_cluster_id := core_ids st;
         unassigned_cardholders := un_c st;
         unassigned_merchants := un_m st |} = Some b
    /\ seeds_fresh (entity_to_core_cluster_id b)
         (unassigned_cardholders b) (unassigned_merchants b)
    /\ List.length (unassigned_cardholders b) + List.length (unassigned_merchants b)
       < List.length (un_c st) + List.length (un_m st).
Proof.
  intros Hfuel Hfresh Hseed.
  set (b0 := {| queue := [s];
                current_cluster_merchants := [];
                current_cluster_cardholders := [];
                entity_to_core_cluster_id := core_ids st;
                unassigned_cardholders := un_c st;
                unassigned_merchants := un_m st |}).
  destruct (bfs_total o c2m m2c bfs_fuel (List.length (clusters st)) b0)
    as [b Hb].
  { unfold potential. simpl. rewrite !pending_nil. lia. }
  exists b. split; [ assumption | ].
  destruct bfs_fuel as [| f]; [ lia | ].
  simpl in Hb.
  set (b1 := bfs_step o c2m m2c (List.length (clusters st)) s
               (with_queue [] b0)) in Hb.
  pose proof (bfs_step_fresh (List.length (clusters st)) s
                (with_queue [] b0) Hfresh) as [F1 _].
  pose proof (seed_assigned (List.length (clusters st)) s
                (with_queue [] b0) Hfresh Hseed eq_refl eq_refl) as Hlt.
  fold b1 in F1, Hlt. simpl in Hlt.
  set (P := fun b : bfs_state =>
              seeds_fresh (entity_to_core_cluster_id b)
                (unassigned_cardholders b) (unassigned_merchants b)
              /\ List.length (unassigned_cardholders b)
                 + List.length (unassigned_merchants b)
                 <= List.length (unassigned_cardholders b1)
                    + List.length (unassigned_merchants b1)).
  assert (Hstep : forall b2 x rest,
             queue b2 = x :: rest -> P b2 ->
             P (bfs_step o c2m m2c (List.length (clusters st)) x
                  (with_queue rest b2))).
  { intros b2 x rest Hq [G1 G2].
    pose proof (bfs_step_fresh (List.length (clusters st)) x
                  (with_queue rest b2) G1) as [K1 [K2 K3]].
    simpl in K2, K3. split; [ assumption | lia ]. }
  assert (Hinit : P b1) by (split; [ assumption | lia ]).
  destruct (bfs_inv o c2m m2c P (List.length (clusters st)) Hstep
              f b1 b Hb Hinit) as [[G1 G2] _].
  split; [ assumption | lia ].
Qed.

(** The core-cluster loop ends within as many clusters as there are
    unassigned entities. *)
Lemma core_loop_total (bfs_fuel : nat) (start : list string) :
  1 + total_degree c2m + total_degree m2c <= bfs_fuel ->
  forall fuel st,
    seeds_fresh (core_ids st) (un_c st) (un_m st) ->
    List.length (un_c st) + List.length (un_m st) <= fuel ->
    exists st', core_loop o c2m m2c fuel bfs_fuel start st = Some st'.
Proof.
  intros Hfuel fuel. induction fuel as [| fuel IH]; intros st Hfresh Hlen;
    rewrite core_loop_unfold.
  - destruct (un_c st), (un_m st); simpl in Hlen; try lia.
    simpl. now exists st.
  - destruct (is_empty (un_c st) && is_empty (un_m st)); [ now exists st | ].
    destruct (find _ start) as [s |] eqn:Ef; [ | now exists st ].
    apply find_some in Ef. destruct Ef as [_ Hseed].
    destruct (cluster_built bfs_fuel st s Hfuel Hfresh Hseed)
      as [b [Hb [F Hlt]]].
    rewrite Hb. apply IH; simpl; [ assumption | lia ].
Qed.

End Outer.

(** The core-cluster formation of mode (a) ends, for every input. *)
Lemma core_clusters_total (o : Order) (txs : list (string * string)) :
  exists st, core_clusters o txs = Some st.
Proof.
  unfold core_clusters. apply core_loop_total; simpl.
  - lia.
  - intros e. split; reflexivity.
  - lia.
Qed.


End Termination.

(** ** The core clusters of mode (a) *)

Module Core_facts.

Import Part_two Termination.

Lemma prefix_M_not_C (e : string) : prefix "M" e = true -> prefix "C" e = false.
Proof.
  destruct e as [| a e]; [ discriminate | ].
  cbn [prefix]. destruct (ascii_dec "M" a) as [<- | Hn]; intros H;
    [ reflexivity | discriminate H ].
Qed.

Lemma opposite_involutive (ty : entity_type) : opposite (opposite ty) = ty.
Proof. now destruct ty. Qed.

Lemma side_cases (ty ty' : entity_type) : ty' = ty \/ ty' = opposite ty.
Proof. destruct ty, ty'; auto. Qed.

Lemma opposite_differs (ty : entity_type) : opposite ty <> ty.
Proof. destruct ty; discriminate. Qed.

Lemma same_side_opposite (ty : entity_type) (cl : cluster) :
  same_side (opposite ty) cl = opposite_side ty cl.
Proof. now destruct ty. Qed.

Section Admission.

Variable o : Order.
Variable c2m m2c : list (string * list string).

Lemma queue_take_in (ty : entity_type) (k : nat) (x : string) (b : bfs_state) :
  queue (take_in o c2m m2c ty k x b)
  = queue b
    ++ filter (fun n => negb (mem n (cur (opposite ty) b)))
         (iter o (get (adjacency c2m m2c ty) x)).
Proof. now destruct ty. Qed.

Lemma cur_take_in_same (ty : entity_type) (k : nat) (x : string) (b : bfs_state) :
  cur ty (take_in o c2m m2c ty k x b) = set_add x (cur ty b).
Proof. now destruct ty. Qed.

Lemma cur_take_in_opposite (ty : entity_type) (k : nat) (x : string)
  (b : bfs_state) :
  cur (opposite ty) (take_in o c2m m2c ty k x b) = cur (opposite ty) b.
Proof. now destruct ty. Qed.

Lemma core_take_in (ty : entity_type) (k : nat) (x : string) (b : bfs_state) :
  entity_to_core_cluster_id (take_in o c2m m2c ty k x b)
  = if mem x (unassigned ty b)
    then core_set (entity_to_core_cluster_id b) x k
    else entity_to_core_cluster_id b.
Proof. now destruct ty. Qed.

Lemma unassigned_take_in_same (ty : entity_type) (k : nat) (x : string)
  (b : bfs_state) :
  unassigned ty (take_in o c2m m2c ty k x b)
  = if mem x (unassigned ty b) then discard x (unassigned ty b)
    else unassigned ty b.
Proof. now destruct ty. Qed.

Lemma unassigned_take_in_opposite (ty : entity_type) (k : nat) (x : string)
  (b : bfs_state) :
  unassigned (opposite ty) (take_in o c2m m2c ty k x b)
  = unassigned (opposite ty) b.
Proof. now destruct ty. Qed.

(** In [cur], an entity of the side [ty'] after an admission on the side
    [ty]. *)
Lemma In_cur_take_in (ty ty' : entity_type) (k : nat) (x e : string)
  (b : bfs_state) :
  In e (cur ty' (take_in o c2m m2c ty k x b))
  <-> In e (cur ty' b) \/ (ty' = ty /\ e = x).
Proof.
  destruct (side_cases ty ty') as [-> | ->].
  - rewrite cur_take_in_same, In_set_add. tauto.
  - rewrite cur_take_in_opposite. pose proof (opposite_differs ty). tauto.
Qed.

Hypothesis G : graph_ok c2m m2c.

Lemma entity_side (ty ty' : entity_type) (x : string) :
  entity c2m m2c ty x -> entity c2m m2c ty' x -> ty = ty'.
Proof.
  intros H H'. apply (g_prefix _ _ G) in H. apply (g_prefix _ _ G) in H'.
  destruct ty, ty'; simpl in *; try reflexivity.
  - apply prefix_C_not_M in H. congruence.
  - apply prefix_C_not_M in H'. congruence.
Qed.

(** The loop body, for an entity of the side [ty]. *)
Lemma bfs_step_entity (ty : entity_type) (k : nat) (x : string)
  (b : bfs_state) :
  entity c2m m2c ty x ->
  bfs_step o c2m m2c k x b
  = if core_elsewhere (entity_to_core_cluster_id b) x k then b
    else if mem x (cur ty b) then b
         else take_in o c2m m2c ty k x b.
Proof.
  intros H. apply (g_prefix _ _ G) in H. unfold bfs_step.
  destruct ty; simpl in H.
  - rewrite H. destruct (core_elsewhere _ _ _); [ reflexivity | ].
    simpl. now destruct (mem x (current_cluster_cardholders b)).
  - rewrite (prefix_M_not_C x H), H.
    destruct (core_elsewhere _ _ _); [ reflexivity | ].
    simpl. now destruct (mem x (current_cluster_merchants b)).
Qed.

Lemma cur_with_queue (ty : entity_type) (q : list string) (b : bfs_state) :
  cur ty (with_queue q b) = cur ty b.
Proof. now destruct ty. Qed.

Lemma unassigned_with_queue (ty : entity_type) (q : list string)
  (b : bfs_state) :
  unassigned ty (with_queue q b) = unassigned ty b.
Proof. now destruct ty. Qed.

Variable cs : list cluster.
Hypothesis closed : clusters_closed c2m m2c cs.

(** Taking from the queue an entity that is a member already. *)
Lemma queue_inv_pop (b : bfs_state) (ty : entity_type) (x : string)
  (rest : list string) :
  queue_inv c2m m2c cs b -> queue b = x :: rest ->
  entity c2m m2c ty x -> In x (cur ty b) ->
  queue_inv c2m m2c cs (with_queue rest b).
Proof.
  intros I Hq Hent Hin. destruct I as [I0 I1 I2 I3 I4 I5 I6 I7].
  constructor; simpl.
  - intros ty' e He. rewrite unassigned_with_queue in He. now apply I0.
  - intros ty' e He. rewrite unassigned_with_queue. now apply I1.
  - intros e j He. destruct (I2 e j He) as [H | [Hj [ty' [H1 H2]]]].
    + now left.
    + right. split; [ assumption | ]. exists ty'.
      now rewrite cur_with_queue.
  - assumption.
  - intros ty' e He. rewrite cur_with_queue in He. now apply I4.
  - intros y Hy. apply I5. rewrite Hq. now right.
  - intros ty' e n He Hn. rewrite cur_with_queue in *.
    destruct (I6 ty' e n He Hn) as [H | H]; [ now left | ].
    rewrite Hq in H. destruct H as [<- | H]; [ | now right ].
    left. destruct (g_adj _ _ G ty' e x Hn) as [_ [Hx _]].
    now rewrite (entity_side _ _ _ Hx Hent).
  - right. exists ty, x. now rewrite cur_with_queue.
Qed.

(** Taking in an unassigned entity from the queue. *)
Lemma queue_inv_take_in (b : bfs_state) (ty : entity_type) (x : string)
  (rest : list string) :
  queue_inv c2m m2c cs b -> queue b = x :: rest ->
  entity c2m m2c ty x ->
  core_get (entity_to_core_cluster_id b) x = None ->
  queue_inv c2m m2c cs
    (take_in o c2m m2c ty (List.length cs) x (with_queue rest b)).
Proof.
  intros I Hq Hent Hnone. destruct I as [I0 I1 I2 I3 I4 I5 I6 I7].
  set (k := List.length cs).
  assert (Hun : mem x (unassigned ty (with_queue rest b)) = true).
  { rewrite unassigned_with_queue. apply mem_In. now apply I1. }
  assert (Hcore : forall e,
             core_get (entity_to_core_cluster_id
                         (take_in o c2m m2c ty k x (with_queue rest b))) e
             = if String.eqb e x then Some k
               else core_get (entity_to_core_cluster_id b) e).
  { intros e. rewrite core_take_in, Hun. apply core_get_core_set. }
  assert (Hcur : forall ty' e,
             In e (cur ty' (take_in o c2m m2c ty k x (with_queue rest b)))
             <-> In e (cur ty' b) \/ (ty' = ty /\ e = x)).
  { intros ty' e. now rewrite In_cur_take_in, cur_with_queue. }
  assert (Hkeep : forall e j,
             core_get (entity_to_core_cluster_id b) e = Some j ->
             String.eqb e x = false).
  { intros e j He. apply String.eqb_neq. intros ->. congruence. }
  constructor.
  - (* the unassigned are entities *)
    intros ty' e. destruct (side_cases ty ty') as [-> | ->].
    + rewrite unassigned_take_in_same, Hun, In_discard, unassigned_with_queue.
      intros [He _]. now apply I0.
    + rewrite unassigned_take_in_opposite, unassigned_with_queue. apply I0.
  - (* unassigned *)
    intros ty' e He. rewrite Hcore.
    destruct (String.eqb e x) eqn:E.
    + apply String.eqb_eq in E. subst e.
      rewrite (entity_side _ _ _ He Hent).
      rewrite unassigned_take_in_same, Hun, In_discard.
      split; [ discriminate | tauto ].
    + apply String.eqb_neq in E. rewrite (I1 ty' e He).
      destruct (side_cases ty ty') as [-> | ->].
      * rewrite unassigned_take_in_same, Hun, In_discard,
          unassigned_with_queue. tauto.
      * now rewrite unassigned_take_in_opposite, unassigned_with_queue.
  - (* core ids *)
    intros e j. rewrite Hcore. destruct (String.eqb e x) eqn:E.
    + apply String.eqb_eq in E. subst e. intros Hj. inversion Hj; subst j.
      right. split; [ reflexivity | ]. exists ty.
      split; [ assumption | ]. apply Hcur. tauto.
    + intros He. destruct (I2 e j He) as [H | [Hj [ty' [H1 H2]]]].
      * now left.
      * right. split; [ assumption | ]. exists ty'.
        split; [ assumption | ]. apply Hcur. tauto.
  - (* members of the clusters built before *)
    intros j cl ty' e Hcl He. destruct (I3 j cl ty' e Hcl He) as [H1 H2].
    split; [ assumption | ]. rewrite Hcore. now rewrite (Hkeep e j H2).
  - (* members of this cluster *)
    intros ty' e He. apply Hcur in He. rewrite Hcore.
    destruct He as [He | [-> ->]].
    + destruct (I4 ty' e He) as [H1 H2]. split; [ assumption | ].
      now rewrite (Hkeep e _ H2).
    + split; [ assumption | ]. now rewrite String.eqb_refl.
  - (* queue *)
    intros y Hy. rewrite queue_take_in in Hy. simpl in Hy.
    apply in_app_iff in Hy. rewrite Hcore. destruct Hy as [Hy | Hy].
    + destruct (I5 y) as [ty' [H1 H2]]; [ rewrite Hq; now right | ].
      exists ty'. split; [ assumption | ].
      destruct (String.eqb y x); [ now right | assumption ].
    + apply filter_In in Hy. destruct Hy as [Hy _]. apply In_iter in Hy.
      destruct (g_adj _ _ G ty x y Hy) as [_ [Hy' Hxy]].
      exists (opposite ty). split; [ assumption | ].
      destruct (String.eqb y x) eqn:E; [ now right | ].
      destruct (core_get (entity_to_core_cluster_id b) y) as [j |] eqn:Ey;
        [ | now left ].
      right. destruct (I2 y j Ey) as [[ty' [cl [H1 [H2 H3]]]] | [Hj _]];
        [ | now subst j ].
      exfalso.
      rewrite <- (entity_side _ _ _ Hy' H1) in H3.
      pose proof (closed j cl (opposite ty) y x H2 H3 Hxy) as Hx.
      rewrite opposite_involutive in Hx.
      destruct (I3 j cl ty x H2 Hx) as [_ Hcx]. congruence.
  - (* frontier *)
    intros ty' e n He Hn. apply Hcur in He. rewrite Hcur, queue_take_in.
    simpl. rewrite in_app_iff, filter_In, In_iter, negb_true_iff.
    destruct He as [He | [-> ->]].
    + destruct (I6 ty' e n He Hn) as [H | H]; [ tauto | ].
      rewrite Hq in H. destruct H as [<- | H]; [ | tauto ].
      left. right. split; [ | reflexivity ].
      destruct (g_adj _ _ G ty' e x Hn) as [_ [Hx _]].
      apply (entity_side _ _ _ Hx Hent).
    + rewrite cur_with_queue.
      destruct (mem n (cur (opposite ty) b)) eqn:En.
      * apply mem_In in En. tauto.
      * tauto.
  - (* live *)
    right. exists ty, x. apply Hcur. tauto.
Qed.

(** A turn of the loop over the queue keeps the invariant. *)
Lemma queue_inv_step (b : bfs_state) (x : string) (rest : list string) :
  queue_inv c2m m2c cs b -> queue b = x :: rest ->
  queue_inv c2m m2c cs
    (bfs_step o c2m m2c (List.length cs) x (with_queue rest b)).
Proof.
  intros I Hq.
  destruct (qi_queue _ _ _ _ I x) as [ty [Hent Hcore]];
    [ rewrite Hq; now left | ].
  rewrite (bfs_step_entity ty _ _ _ Hent). unfold core_elsewhere. simpl.
  destruct Hcore as [Hnone | Hk].
  - rewrite Hnone. rewrite cur_with_queue.
    destruct (mem x (cur ty b)) eqn:Ex.
    + apply mem_In in Ex. destruct (qi_cur _ _ _ _ I ty x Ex). congruence.
    + now apply queue_inv_take_in.
  - rewrite Hk, Nat.eqb_refl. simpl.
    assert (Hin : In x (cur ty b)).
    { destruct (qi_core _ _ _ _ I x _ Hk)
        as [[ty' [cl [_ [Hcl _]]]] | [_ [ty' [H1 H2]]]].
      - assert (Hnone : nth_error cs (List.length cs) = None)
          by (apply nth_error_None; lia).
        congruence.
      - now rewrite (entity_side _ _ _ Hent H1). }
    rewrite cur_with_queue. apply mem_In in Hin. rewrite Hin.
    apply mem_In in Hin. eapply queue_inv_pop; eassumption.
Qed.

End Admission.

Section Formation.

Variable o : Order.
Variable c2m m2c : list (string * list string).
Hypothesis G : graph_ok c2m m2c.

Lemma same_side_built (ty : entity_type) (b : bfs_state) :
  same_side ty {| merchants := current_cluster_merchants b;
                  cardholders := current_cluster_cardholders b |}
  = cur ty b.
Proof. now destruct ty. Qed.

(** A seed is an unassigned entity. *)
Lemma seed_entity (st : core_state) (s : string) :
  core_inv c2m m2c st ->
  is_seed (un_c st) (un_m st) s = true ->
  exists ty, entity c2m m2c ty s /\ core_get (core_ids st) s = None.
Proof.
  intros I Hs. unfold is_seed in Hs.
  destruct (prefix "C" s && mem s (un_c st)) eqn:E.
  - apply andb_true_iff in E. destruct E as [_ E]. apply mem_In in E.
    exists C. pose proof (ci_sub _ _ _ I C s E) as He.
    split; [ assumption | ]. now apply (ci_un _ _ _ I C s He).
  - apply andb_true_iff in Hs. destruct Hs as [_ E']. apply mem_In in E'.
    exists M. pose proof (ci_sub _ _ _ I M s E') as He.
    split; [ assumption | ]. now apply (ci_un _ _ _ I M s He).
Qed.

(** The state the construction of a cluster starts from satisfies the
    invariant of the loop over the queue. *)
Lemma queue_inv_start (st : core_state) (s : string) :
  core_inv c2m m2c st ->
  is_seed (un_c st) (un_m st) s = true ->
  queue_inv c2m m2c (clusters st)
    {| queue := [s];
       current_cluster_merchants := [];
       current_cluster_cardholders := [];
       entity_to_core_cluster_id := core_ids st;
       unassigned_cardholders := un_c st;
       unassigned_merchants := un_m st |}.
Proof.
  intros I Hs. destruct (seed_entity st s I Hs) as [ty [He Hn]].
  constructor; simpl.
  - intros ty' e.
    destruct ty'; [ apply (ci_sub _ _ _ I C) | apply (ci_sub _ _ _ I M) ].
  - intros ty' e.
    destruct ty'; [ apply (ci_un _ _ _ I C) | apply (ci_un _ _ _ I M) ].
  - intros e j Hj. left. now apply (ci_core _ _ _ I).
  - apply (ci_member _ _ _ I).
  - intros ty' e. now destruct ty'.
  - intros x [<- | []]. exists ty. tauto.
  - intros ty' e n. now destruct ty'.
  - left. discriminate.
Qed.

(** The state after a cluster is built satisfies the invariant of the
    core-cluster loop, with the new cluster added. *)
Lemma core_inv_next (st : core_state) (b : bfs_state) :
  core_inv c2m m2c st ->
  queue_inv c2m m2c (clusters st) b -> queue b = [] ->
  (negb (is_empty (current_cluster_merchants b))
   || negb (is_empty (current_cluster_cardholders b))) = true
  /\ core_inv c2m m2c
       {| clusters :=
            clusters st ++
            [ {| merchants := current_cluster_merchants b;
                 cardholders := current_cluster_cardholders b |} ];
          core_ids := entity_to_core_cluster_id b;
          un_c := unassigned_cardholders b;
          un_m := unassigned_merchants b |}.
Proof.
  intros I Q Hq. destruct Q as [Q0 Q1 Q2 Q3 Q4 Q5 Q6 Q7]. split.
  - destruct Q7 as [H | [ty [e He]]]; [ congruence | ].
    destruct ty; simpl in He.
    + destruct (current_cluster_cardholders b); [ contradiction | ].
      simpl. apply orb_true_r.
    + destruct (current_cluster_merchants b); [ contradiction | ].
      reflexivity.
  - set (new := {| merchants := current_cluster_merchants b;
                   cardholders := current_cluster_cardholders b |}).
    assert (Hnth : forall j cl,
               nth_error (clusters st ++ [new]) j = Some cl ->
               nth_error (clusters st) j = Some cl
               \/ (j = List.length (clusters st) /\ cl = new)).
    { intros j cl H.
      destruct (Nat.lt_ge_cases j (List.length (clusters st))) as [Hlt | Hge].
      - left. now rewrite nth_error_app1 in H.
      - right. rewrite nth_error_app2 in H by assumption.
        destruct (j - List.length (clusters st)) as [| d] eqn:Ed.
        + simpl in H. inversion H. split; [ lia | reflexivity ].
        + simpl in H. destruct d; discriminate. }
    constructor; simpl.
    + intros ty e. destruct ty; [ apply (Q0 C) | apply (Q0 M) ].
    + intros ty e. destruct ty; [ apply (Q1 C) | apply (Q1 M) ].
    + intros e j Hj.
      destruct (Q2 e j Hj) as [[ty [cl [H1 [H2 H3]]]] | [-> [ty [H1 H2]]]].
      * exists ty, cl. split; [ assumption | split; [ | assumption ] ].
        rewrite nth_error_app1; [ assumption | ].
        apply nth_error_Some. congruence.
      * exists ty, new. split; [ assumption | split ].
        -- rewrite nth_error_app2 by lia. now rewrite Nat.sub_diag.
        -- unfold new. now rewrite same_side_built.
    + intros j cl ty e Hcl He. apply Hnth in Hcl.
      destruct Hcl as [Hcl | [-> ->]].
      * now apply (Q3 j cl).
      * unfold new in He. rewrite same_side_built in He. now apply Q4.
    + intros j cl ty e n Hcl He Hn. apply Hnth in Hcl.
      destruct Hcl as [Hcl | [-> ->]].
      * now apply (ci_closed _ _ _ I j cl ty e n).
      * unfold new in *. rewrite same_side_built in *.
        destruct (Q6 ty e n He Hn) as [H | H]; [ assumption | ].
        rewrite Hq in H. contradiction.
Qed.

(** The core-cluster loop keeps its invariant, and is left with no
    unassigned entity or with no seed among the candidates. *)
Lemma core_loop_inv (bfs_fuel : nat) (start : list string) :
  forall fuel st st',
    core_loop o c2m m2c fuel bfs_fuel start st = Some st' ->
    core_inv c2m m2c st ->
    core_inv c2m m2c st'
    /\ ((un_c st' = [] /\ un_m st' = [])
        \/ find (is_seed (un_c st') (un_m st')) start = None).
Proof.
  intros fuel. induction fuel as [| fuel IH]; intros st st' H I;
    rewrite core_loop_unfold in H.
  - destruct (is_empty (un_c st) && is_empty (un_m st)) eqn:Ee.
    + inversion H; subst. split; [ assumption | left ].
      apply andb_true_iff in Ee.
      destruct (un_c st'), (un_m st'); simpl in Ee; intuition discriminate.
    + destruct (find _ start) eqn:Ef; [ discriminate | ].
      inversion H; subst. split; [ assumption | now right ].
  - destruct (is_empty (un_c st) && is_empty (un_m st)) eqn:Ee.
    + inversion H; subst. split; [ assumption | left ].
      apply andb_true_iff in Ee.
      destruct (un_c st'), (un_m st'); simpl in Ee; intuition discriminate.
    + destruct (find _ start) as [s |] eqn:Ef.
      * apply find_some in Ef. destruct Ef as [_ Hseed].
        destruct (bfs o c2m m2c bfs_fuel _ _) as [b |] eqn:Eb;
          [ | discriminate ].
        destruct (bfs_inv o c2m m2c (queue_inv c2m m2c (clusters st))
                    (List.length (clusters st))
                    (fun b x rest Hq Q =>
                       queue_inv_step o c2m m2c G (clusters st)
                         (ci_closed _ _ _ I) b x rest Q Hq)
                    _ _ _ Eb (queue_inv_start st s I Hseed)) as [Q Hq].
        destruct (core_inv_next st b I Q Hq) as [Hgrown Inext].
        rewrite Hgrown in H. now apply IH in H.
      * inversion H; subst. split; [ assumption | now right ].
Qed.

Lemma entity_is_seed (st : core_state) (ty : entity_type) (e : string) :
  core_inv c2m m2c st -> In e (un_of ty st) ->
  is_seed (un_c st) (un_m st) e = true.
Proof.
  intros I He. pose proof (ci_sub _ _ _ I ty e He) as Hent.
  apply (g_prefix _ _ G) in Hent. unfold is_seed.
  destruct ty; simpl in *.
  - apply mem_In in He. now rewrite Hent, He.
  - rewrite (prefix_M_not_C e Hent). simpl. apply mem_In in He.
    now rewrite Hent, He.
Qed.

(** When every entity is among the candidates, the loop is left with
    every entity assigned. *)
Lemma core_loop_settled (fuel bfs_fuel : nat) (start : list string)
  (st st' : core_state) :
  (forall ty e, entity c2m m2c ty e -> In e start) ->
  core_loop o c2m m2c fuel bfs_fuel start st = Some st' ->
  core_inv c2m m2c st ->
  settled c2m m2c (clusters st') (core_ids st').
Proof.
  intros Hstart H I. destruct (core_loop_inv _ _ _ _ _ H I) as [I' Hend].
  assert (Hempty : forall ty e, ~ In e (un_of ty st')).
  { intros ty e He. destruct Hend as [[Hc Hm] | Hnone].
    - destruct ty; simpl in He; [ rewrite Hc in He | rewrite Hm in He ];
        contradiction.
    - pose proof (entity_is_seed st' ty e I' He) as Hs.
      pose proof (find_none _ _ Hnone e
                    (Hstart ty e (ci_sub _ _ _ I' ty e He))) as Hf.
      congruence. }
  constructor.
  - intros ty e He.
    destruct (core_get (core_ids st') e) as [j |] eqn:Ej.
    + destruct (ci_core _ _ _ I' e j Ej) as [ty' [cl [H1 [H2 H3]]]].
      exists j, cl. rewrite (entity_side c2m m2c G _ _ _ He H1). tauto.
    + apply (ci_un _ _ _ I' ty e He) in Ej. now apply Hempty in Ej.
  - apply (ci_member _ _ _ I').
  - apply (ci_closed _ _ _ I').
Qed.

End Formation.

Section Run.

Variable o : Order.
Variable txs : list (string * string).
Hypothesis ids : ids_ok txs.

Local Abbreviation c2m := (fst (Part_one.create_interaction_graphs txs)).
Local Abbreviation m2c := (snd (Part_one.create_interaction_graphs txs)).

Lemma keys_graphs (c m : string) :
  (In c (keys c2m) <-> exists m', In (c, m') txs)
  /\ (In m (keys m2c) <-> exists c', In (c', m) txs).
Proof.
  unfold c2m, m2c, Part_one.create_interaction_graphs.
  assert (H : forall l g,
             (In c (keys (fst (fold_left Part_one.add_interaction l g)))
              <-> (exists m', In (c, m') l) \/ In c (keys (fst g)))
             /\ (In m (keys (snd (fold_left Part_one.add_interaction l g)))
                 <-> (exists c', In (c', m) l) \/ In m (keys (snd g)))).
  { induction l as [| [c0 m0] r IH]; intros g; simpl.
    - split; split; try tauto; intros [[x []] | H]; assumption.
    - destruct (IH (Part_one.add_interaction g (c0, m0))) as [IH1 IH2].
      rewrite IH1, IH2. simpl. rewrite !In_keys_dict_add. split; split.
      + intros [[m' H] | [-> | H]]; eauto 6.
      + intros [[m' [H | H]] | H]; eauto.
        inversion H; subst. auto.
      + intros [[c' H] | [-> | H]]; eauto 6.
      + intros [[c' [H | H]] | H]; eauto.
        inversion H; subst. auto. }
  destruct (H txs ([], [])) as [H1 H2]. rewrite H1, H2. simpl.
  split; tauto.
Qed.

Lemma graph_of_ids : graph_ok c2m m2c.
Proof.
  constructor.
  - intros ty e He. destruct ty; simpl in *.
    + apply (proj1 (keys_graphs e e)) in He. destruct He as [m' H].
      now apply ids in H.
    + apply (proj2 (keys_graphs e e)) in He. destruct He as [c' H].
      now apply ids in H.
  - intros ty e n Hn. destruct ty; simpl in *.
    + apply (proj1 (Part_one_facts.graphs_spec txs e n)) in Hn.
      split; [ | split ].
      * apply (proj1 (keys_graphs e e)). eauto.
      * apply (proj2 (keys_graphs n n)). eauto.
      * now apply (proj2 (Part_one_facts.graphs_spec txs e n)).
    + apply (proj2 (Part_one_facts.graphs_spec txs n e)) in Hn.
      split; [ | split ].
      * apply (proj2 (keys_graphs e e)). eauto.
      * apply (proj1 (keys_graphs n n)). eauto.
      * now apply (proj1 (Part_one_facts.graphs_spec txs n e)).
  - intros ty e He Hnil. destruct ty; simpl in *.
    + apply (proj1 (keys_graphs e e)) in He. destruct He as [m' H].
      apply (proj1 (Part_one_facts.graphs_spec txs e m')) in H.
      fold c2m in H. rewrite Hnil in H. contradiction.
    + apply (proj2 (keys_graphs e e)) in He. destruct He as [c' H].
      apply (proj2 (Part_one_facts.graphs_spec txs c' e)) in H.
      fold m2c in H. rewrite Hnil in H. contradiction.
Qed.

Lemma In_sorted_by_degree (adj : list (string * list string))
  (all : list string) (e : string) :
  In e (sorted_by_degree o adj all) <-> In e all.
Proof.
  unfold sorted_by_degree. rewrite in_map_iff. split.
  - intros [[e' d] [<- H]]. rewrite Duplication_facts.In_sort_desc in H.
    apply in_map_iff in H. destruct H as [x [Hx Hin]].
    inversion Hx; subst. now apply In_iter in Hin.
  - intros H. exists (e, List.length (get adj e)). split; [ reflexivity | ].
    apply Duplication_facts.In_sort_desc. apply in_map_iff.
    exists e. split; [ reflexivity | now apply In_iter ].
Qed.

(** With ids that follow the convention, the core-cluster formation ends
    with every entity assigned, and with closed clusters. *)
Lemma core_clusters_settled :
  exists st,
    core_clusters o txs = Some st
    /\ settled c2m m2c (clusters st) (core_ids st).
Proof.
  destruct (core_clusters_total o txs) as [st Hst].
  exists st. split; [ assumption | ].
  unfold core_clusters in Hst. fold c2m m2c in Hst.
  eapply (core_loop_settled o c2m m2c graph_of_ids); [ | exact Hst | ].
  - intros ty e He. apply In_shuffle, in_app_iff.
    destruct ty; [ left | right ]; now apply In_sorted_by_degree.
  - constructor; simpl.
    + intros ty e. now destruct ty.
    + intros ty e He. destruct ty; simpl; tauto.
    + intros e j Hj. discriminate.
    + intros j cl ty e Hcl. destruct j; discriminate.
    + intros j cl ty e n Hcl. destruct j; discriminate.
Qed.

End Run.

(** *** The duplication phase on settled clusters *)

Lemma filter_all {A : Type} (f : A -> bool) (l : list A) :
  (forall x, In x l -> f x = true) -> filter f l = l.
Proof.
  induction l as [| x r IH]; simpl; intros H; [ reflexivity | ].
  rewrite (H x) by now left. f_equal. apply IH. intros y Hy. apply H.
  now right.
Qed.

Lemma filter_none {A : Type} (f : A -> bool) (l : list A) :
  (forall x, In x l -> f x = false) -> filter f l = [].
Proof.
  induction l as [| x r IH]; simpl; intros H; [ reflexivity | ].
  rewrite (H x) by now left. apply IH. intros y Hy. apply H. now right.
Qed.

Lemma single_entry (l : list (nat * nat)) (j d : nat) :
  NoDup (map fst l) ->
  (forall i c, In (i, c) l <-> i = j /\ c = d) ->
  l = [(j, d)].
Proof.
  intros Hnd H. destruct l as [| [i0 c0] r].
  - exfalso. apply (H j d). tauto.
  - assert (H0 : i0 = j /\ c0 = d) by (apply H; now left).
    destruct H0 as [-> ->]. f_equal.
    destruct r as [| [i1 c1] r']; [ reflexivity | exfalso ].
    assert (H1 : i1 = j /\ c1 = d) by (apply H; right; now left).
    destruct H1 as [-> ->]. simpl in Hnd.
    inversion Hnd as [| ? ? Hn _]. apply Hn. now left.
Qed.

Lemma add_member_present (ty : entity_type) (e : string) (cl : cluster) :
  In e (same_side ty cl) -> add_member ty e cl = cl.
Proof.
  intros H. destruct cl as [ms cs]. destruct ty; simpl in *;
    now rewrite set_add_present.
Qed.

Lemma update_at_present (ty : entity_type) (e : string) (cs : list cluster)
  (j : nat) (cl : cluster) :
  nth_error cs j = Some cl -> In e (same_side ty cl) ->
  update_at j (add_member ty e) cs = cs.
Proof.
  revert j. induction cs as [| x r IH]; intros j Hj He.
  - now destruct j.
  - destruct j as [| j]; simpl in *.
    + inversion Hj; subst. now rewrite add_member_present.
    + f_equal. now apply IH.
Qed.

Lemma fold_left_fixed {A B : Type} (f : A -> B -> A) (l : list B) (a : A) :
  (forall x, In x l -> f a x = a) -> fold_left f l a = a.
Proof.
  induction l as [| x r IH]; simpl; intros H; [ reflexivity | ].
  rewrite (H x) by now left. apply IH. intros y Hy. apply H. now right.
Qed.

Section Settled.

Variable o : Order.
Variable t : Q.
Variable c2m m2c : list (string * list string).
Variable cs : list cluster.
Variable core : list (string * nat).
Hypothesis S : settled c2m m2c cs core.

(** The neighbours of an entity are members of its cluster and of no
    other. *)
Lemma neighbours_in_own_cluster (ty : entity_type) (e : string) (j : nat)
  (cl : cluster) (n : string) (i : nat) :
  nth_error cs j = Some cl -> In e (same_side ty cl) ->
  In n (get (adjacency c2m m2c ty) e) ->
  member_at ty cs i n = Nat.eqb i j.
Proof.
  intros Hcl He Hn.
  pose proof (s_closed _ _ _ _ S j cl ty e n Hcl He Hn) as Hin.
  destruct (s_member _ _ _ _ S j cl (opposite ty) n Hcl Hin) as [_ Hcn].
  unfold member_at. destruct (Nat.eqb i j) eqn:E.
  - apply Nat.eqb_eq in E. subst i. rewrite Hcl.
    apply mem_In. now rewrite <- same_side_opposite.
  - destruct (nth_error cs i) as [cl' |] eqn:Ecl'; [ | reflexivity ].
    apply mem_false. intros Hin'. rewrite <- same_side_opposite in Hin'.
    destruct (s_member _ _ _ _ S i cl' (opposite ty) n Ecl' Hin') as [_ Hcn'].
    apply Nat.eqb_neq in E. congruence.
Qed.

Lemma counts_settled (ty : entity_type) (e : string) (j : nat) (cl : cluster) :
  nth_error cs j = Some cl -> In e (same_side ty cl) ->
  get (adjacency c2m m2c ty) e <> [] ->
  interaction_counts ty cs (iter o (get (adjacency c2m m2c ty) e))
  = [(j, List.length (get (adjacency c2m m2c ty) e))].
Proof.
  intros Hcl He Hne. set (ns := get (adjacency c2m m2c ty) e) in *.
  apply single_entry; [ apply Duplication_facts.interaction_counts_nodup | ].
  intros i c. rewrite Duplication_facts.interaction_counts_entries.
  rewrite Duplication_facts.interactions_with_iter.
  unfold interactions_with.
  destruct (Nat.eqb i j) eqn:E.
  - rewrite filter_all.
    + apply Nat.eqb_eq in E. subst i.
      destruct ns; [ congruence | ]. simpl. split; [ tauto | ].
      intros [_ ->]. split; [ reflexivity | lia ].
    + intros n Hn. rewrite <- E.
      eapply neighbours_in_own_cluster; eassumption.
  - rewrite filter_none.
    + apply Nat.eqb_neq in E. simpl. split; [ lia | tauto ].
    + intros n Hn. rewrite <- E.
      eapply neighbours_in_own_cluster; eassumption.
Qed.

(** The engine changes nothing for an entity of settled clusters. *)
Lemma duplicate_entity_settled (ty : entity_type) (e : string) :
  entity c2m m2c ty e ->
  duplicate_entity o t ty (adjacency c2m m2c ty) cs e = cs.
Proof.
  intros Hent.
  destruct (s_assigned _ _ _ _ S ty e Hent) as [j [cl [Hj [Hcl He]]]].
  unfold duplicate_entity.
  destruct (is_empty (get (adjacency c2m m2c ty) e)) eqn:Ee;
    [ reflexivity | ].
  rewrite (counts_settled ty e j cl Hcl He).
  - simpl. now apply (update_at_present ty e cs j cl).
  - intros Hnil. rewrite Hnil in Ee. discriminate.
Qed.

(** The duplication phase changes nothing on settled clusters. *)
Lemma duplication_phase_settled :
  duplication_phase o t c2m m2c cs = cs.
Proof.
  unfold duplication_phase.
  rewrite (fold_left_fixed (duplicate_entity o t C c2m)).
  - apply (fold_left_fixed (duplicate_entity o t M m2c)).
    intros e He. apply In_iter in He.
    now apply (duplicate_entity_settled M e).
  - intros e He. apply In_iter in He.
    now apply (duplicate_entity_settled C e).
Qed.

End Settled.

End Core_facts.

(** ** Mode (a): core assignment, thresholds and a second pass *)

Module Mode_a_facts.

Import Part_two Termination Core_facts.

(** *** The core-assignment mapping is append-only, for every input *)

Section Append_only.

Variable o : Order.
Variable c2m m2c : list (string * list string).





End Append_only.

(** *** Ids that follow the convention *)

(** With ids that follow the convention the duplication phase changes
    nothing: the clusters returned are the core clusters, their members
    sorted, whatever the threshold. *)
Lemma find_clusters_conventional (o : Order) (t : Q)
  (txs : list (string * string)) :
  ids_ok txs ->
  exists st,
    core_clusters o txs = Some st
    /\ settled (fst (Part_one.create_interaction_graphs txs))
         (snd (Part_one.create_interaction_graphs txs))
         (clusters st) (core_ids st)
    /\ duplication_phase o t (fst (Part_one.create_interaction_graphs txs))
         (snd (Part_one.create_interaction_graphs txs)) (clusters st)
       = clusters st
    /\ find_clusters_with_duplication o t txs
       = Some (map sorted_cluster (clusters st)).
Proof.
  intros ids. destruct (core_clusters_settled o txs ids) as [st [Hst S]].
  exists st. split; [ assumption | split; [ assumption | ] ].
  pose proof (duplication_phase_settled o t _ _ _ _ S) as Hd.
  split; [ assumption | ].
  unfold find_clusters_with_duplication. now rewrite Hst, Hd.
Qed.

Lemma same_side_sorted (ty : entity_type) (cl : cluster) (e : string) :
  In e (same_side ty (sorted_cluster cl)) <-> In e (same_side ty cl).
Proof. destruct ty; simpl; apply Growth.In_sorted_list. Qed.




Lemma example_ids_ok :
  ids_ok [("C1", "M1"); ("C2", "M1"); ("C2", "M2")].
Proof.
  intros c m H. simpl in H.
  repeat (destruct H as [H | H]; [ inversion H; subst; now split | ]).
  contradiction.
Qed.





End Mode_a_facts.

(** ** Mode (b): a second duplication pass *)

Module Mode_b_facts.

Import Part_three.

Lemma agg_get_agg_add (d : list (string * cluster)) (id : string)
  (ty : entity_type) (e id' : string) :
  agg_get (agg_add d id ty e) id'
  = if String.eqb id' id then add_member ty e (agg_get d id)
    else agg_get d id'.
Proof.
  induction d as [| [k cl] r IH]; simpl.
  - destruct (String.eqb id' id); reflexivity.
  - destruct (String.eqb id k) eqn:E; simpl.
    + apply String.eqb_eq in E. subst k.
      destruct (String.eqb id' id); reflexivity.
    + destruct (String.eqb id' k) eqn:E'; [ | apply IH ].
      apply String.eqb_eq in E'. subst k.
      destruct (String.eqb id' id) eqn:E''; [ | reflexivity ].
      apply String.eqb_eq in E''. subst. rewrite String.eqb_refl in E.
      discriminate.
Qed.

Lemma In_keys_agg_add (d : list (string * cluster)) (id : string)
  (ty : entity_type) (e k : string) :
  In k (keys (agg_add d id ty e)) <-> k = id \/ In k (keys d).
Proof.
  unfold keys. induction d as [| [k0 cl] r IH]; simpl.
  - intuition.
  - destruct (String.eqb id k0) eqn:E; simpl.
    + apply String.eqb_eq in E. subst. intuition.
    + rewrite IH. intuition.
Qed.

Lemma In_add_member (ty ty' : entity_type) (e x : string) (cl : cluster) :
  In x (same_side ty' (add_member ty e cl))
  <-> In x (same_side ty' cl) \/ (ty' = ty /\ x = e).
Proof.
  destruct ty, ty'; simpl; rewrite ?In_set_add;
    intuition (try discriminate; auto).
Qed.

Section Inserts.

Variable ty : entity_type.
Variable e : string.

Lemma In_fold_agg_add (ids : list string) (d : list (string * cluster))
  (id : string) (ty' : entity_type) (x : string) :
  In x (same_side ty' (agg_get
          (fold_left (fun d id => agg_add d id ty e) ids d) id))
  <-> In x (same_side ty' (agg_get d id))
      \/ (In id ids /\ ty' = ty /\ x = e).
Proof.
  revert d. induction ids as [| i r IH]; intros d; simpl.
  - tauto.
  - rewrite IH, agg_get_agg_add.
    destruct (String.eqb id i) eqn:E.
    + apply String.eqb_eq in E. subst i. rewrite In_add_member. tauto.
    + apply String.eqb_neq in E. intuition congruence.
Qed.

Lemma In_keys_fold_agg_add (ids : list string) (d : list (string * cluster))
  (k : string) :
  In k (keys (fold_left (fun d id => agg_add d id ty e) ids d))
  <-> In k (keys d) \/ In k ids.
Proof.
  revert d. induction ids as [| i r IH]; intros d; simpl.
  - tauto.
  - rewrite IH, In_keys_agg_add. intuition.
Qed.

End Inserts.

Section Pass.

Variable o : Order.
Variable t : Q.
Variable final : snapshot.

(** The engine of mode (b) inserts the entity into the clusters of
    [secondary_ids], which do not depend on the clusters. *)
Lemma duplicate_entity_as_inserts (ty : entity_type)
  (agg : list (string * cluster)) (entry : string * list string) :
  duplicate_entity o t final ty agg entry
  = fold_left (fun d id => agg_add d id ty (fst entry))
      (secondary_ids o t final entry) agg.
Proof.
  unfold duplicate_entity, secondary_ids.
  destruct (is_empty (snd entry)); [ reflexivity | ].
  destruct (sort_desc _) as [| [pid pc] others]; [ reflexivity | ].
  generalize agg. induction others as [| s r IH]; intros d; simpl.
  - reflexivity.
  - unfold duplicate_into at 2.
    destruct (duplicates (snd s) pc (List.length (snd entry)) t); simpl;
      apply IH.
Qed.

Lemma In_fold_duplicate_entity (ty : entity_type)
  (entries : list (string * list string)) (agg : list (string * cluster))
  (id : string) (ty' : entity_type) (x : string) :
  In x (same_side ty' (agg_get
          (fold_left (duplicate_entity o t final ty) entries agg) id))
  <-> In x (same_side ty' (agg_get agg id))
      \/ inserts o t final ty entries id ty' x.
Proof.
  revert agg. unfold inserts.
  induction entries as [| en r IH]; intros agg; simpl.
  - split; [ tauto | intros [H | [en [[] _]]]; assumption ].
  - rewrite IH, duplicate_entity_as_inserts, In_fold_agg_add. split.
    + intros [[H | [H1 [H2 H3]]] | [en' [H1 H2]]].
      * now left.
      * right. exists en. tauto.
      * right. exists en'. tauto.
    + intros [H | [en' [[<- | H1] [H2 [H3 H4]]]]].
      * tauto.
      * left. right. tauto.
      * right. exists en'. tauto.
Qed.

Lemma In_keys_fold_duplicate_entity (ty : entity_type)
  (entries : list (string * list string)) (agg : list (string * cluster))
  (k : string) :
  In k (keys (fold_left (duplicate_entity o t final ty) entries agg))
  <-> In k (keys agg)
      \/ exists entry, In entry entries /\ In k (secondary_ids o t final entry).
Proof.
  revert agg. induction entries as [| en r IH]; intros agg; simpl.
  - split; [ tauto | intros [H | [en [[] _]]]; assumption ].
  - rewrite IH, duplicate_entity_as_inserts, In_keys_fold_agg_add. split.
    + intros [[H | H] | [en' [H1 H2]]].
      * now left.
      * right. exists en. tauto.
      * right. exists en'. tauto.
    + intros [H | [en' [[<- | H1] H2]]].
      * tauto.
      * tauto.
      * right. exists en'. tauto.
Qed.

(** The members of the clusters after the pass: those before, and the
    entities the pass inserts, which the clusters do not influence. *)
Lemma In_duplication_phase (p : phase1) (agg : list (string * cluster))
  (id : string) (ty' : entity_type) (x : string) :
  In x (same_side ty' (agg_get (duplication_phase o t p final agg) id))
  <-> In x (same_side ty' (agg_get agg id))
      \/ inserts o t final C (cardholder_neighbors_tmp p) id ty' x
      \/ inserts o t final M (merchant_neighbors_tmp p) id ty' x.
Proof.
  unfold duplication_phase. rewrite !In_fold_duplicate_entity. tauto.
Qed.

Lemma In_keys_duplication_phase (p : phase1) (agg : list (string * cluster))
  (k : string) :
  In k (keys (duplication_phase o t p final agg))
  <-> In k (keys agg)
      \/ (exists entry, In entry (cardholder_neighbors_tmp p)
                        /\ In k (secondary_ids o t final entry))
      \/ (exists entry, In entry (merchant_neighbors_tmp p)
                        /\ In k (secondary_ids o t final entry)).
Proof.
  unfold duplication_phase. rewrite !In_keys_fold_duplicate_entity. tauto.
Qed.

(** A second pass of mode (b), on the clusters the first pass gives,
    inserts nothing new. *)
Lemma second_pass_b (p : phase1) (agg : list (string * cluster)) :
  agg_le
    (duplication_phase o t p final (duplication_phase o t p final agg))
    (duplication_phase o t p final agg).
Proof.
  intros id. split; [ split | ].
  - intros x Hx.
    apply (In_duplication_phase p _ id M x) in Hx.
    apply (In_duplication_phase p agg id M x).
    rewrite (In_duplication_phase p agg id M x) in Hx. tauto.
  - intros x Hx.
    apply (In_duplication_phase p _ id C x) in Hx.
    apply (In_duplication_phase p agg id C x).
    rewrite (In_duplication_phase p agg id C x) in Hx. tauto.
  - rewrite In_keys_duplication_phase.
    rewrite (In_keys_duplication_phase p agg id). tauto.
Qed.

End Pass.

End Mode_b_facts.

(** ** A second duplication pass *)

Module Second_pass.

(** C8, as stated, fails in mode (a).  The merchant X follows no convention
    and is left out of the core clusters [C1 | ] and [C2 | ]; the pass
    inserts it into both.  A second pass then finds a neighbour of C1 in
    both clusters and inserts C1 into the second cluster and C2 into the
    first. *)
Lemma second_pass_adds_pairs :
  let txs := [("C1", "X"); ("C2", "X")] in
  let g := Part_one.create_interaction_graphs txs in
  exists st,
    Part_two.core_clusters insertion_order txs = Some st
    /\ (let fc := Part_two.duplication_phase insertion_order (3 # 10)
                    (fst g) (snd g) (Part_two.clusters st) in
        let fc' := Part_two.duplication_phase insertion_order (3 # 10)
                     (fst g) (snd g) fc in
        ~ In "C2" (cardholders (nth 0 fc empty_cluster))
        /\ In "C2" (cardholders (nth 0 fc' empty_cluster))).
Proof.
  eexists. split; [ vm_compute; reflexivity | ].
  vm_compute. split; [ | tauto ].
  intros [H | []]. discriminate.
Qed.

(** C8, amended: in mode (a), when the id of every cardholder starts with
    C and the id of every merchant with M, a second pass over the clusters
    the first pass gives changes nothing; in mode (b), for every input, a
    second pass over the clusters the first pass gives keeps the cluster
    ids and gives no cluster a member it had not. *)
Theorem second_pass_adds_nothing (o : Order) (t : Q) :
  (forall txs,
      ids_ok txs ->
      exists st,
        Part_two.core_clusters o txs = Some st
        /\ (let g := Part_one.create_interaction_graphs txs in
            let fc := Part_two.duplication_phase o t (fst g) (snd g)
                        (Part_two.clusters st) in
            Part_two.duplication_phase o t (fst g) (snd g) fc = fc))
  /\ (forall p final agg,
        agg_le
          (Part_three.duplication_phase o t p final
             (Part_three.duplication_phase o t p final agg))
          (Part_three.duplication_phase o t p final agg)).
Proof.
  split.
  - intros txs ids.
    destruct (Mode_a_facts.find_clusters_conventional o t txs ids)
      as [st [Hst [_ [Hd _]]]].
    exists st. split; [ assumption | ]. simpl. now rewrite !Hd.
  - intros p final agg. apply Mode_b_facts.second_pass_b.
Qed.

Lemma second_pass_adds_nothing_witness :
  exists st,
    Part_two.core_clusters insertion_order
      [("C1", "M1"); ("C2", "M1"); ("C2", "M2")] = Some st
    /\ (let g := Part_one.create_interaction_graphs
                   [("C1", "M1"); ("C2", "M1"); ("C2", "M2")] in
        let fc := Part_two.duplication_phase insertion_order (3 # 10)
                    (fst g) (snd g) (Part_two.clusters st) in
        Part_two.duplication_phase insertion_order (3 # 10) (fst g) (snd g) fc
        = fc).
Proof.
  exact (proj1 (second_pass_adds_nothing insertion_order (3 # 10))
           [("C1", "M1"); ("C2", "M1"); ("C2", "M2")]
           Mode_a_facts.example_ids_ok).
Defined.

End Second_pass.

(** ** The primary cluster *)

Module Primary_cluster.

(** C1 fails in mode (b).  On the single line [C1 M1] the only neighbour of
    C1 has the label M1, so M1 is the primary cluster of C1; the pass of
    mode (b) inserts an entity into the secondary clusters only, and C1 is
    not a member of the cluster M1 at the end.  The engine of mode (a), on
    a cluster that holds M1, inserts C1. *)
Theorem primary_not_inserted_in_mode_b :
  (exists r,
      Part_three.process_large_dataset_batch insertion_order (3 # 10)
        ["C1 M1"] 5%Z = Part_three.Finished r
      /\ Part_three.label_counts
           (Part_three.read_snapshot (Part_three.final_snapshot r)) ["M1"]
         = [("M1", 1)]
      /\ Part_three.agg_get (Part_three.final_clusters r) "M1"
         = {| merchants := ["M1"]; cardholders := [] |})
  /\ Part_two.duplicate_entity insertion_order (3 # 10) C [("C1", ["M1"])]
       [ {| merchants := ["M1"]; cardholders := [] |} ] "C1"
     = [ {| merchants := ["M1"]; cardholders := ["C1"] |} ].
Proof.
  split; [ eexists; split; [ vm_compute; reflexivity | split ] | ];
    reflexivity.
Qed.

End Primary_cluster.

(** ** The configuration *)

Module Configuration.

Import Part_one Input_facts.




End Configuration.

(** ** Runs on the data of the source *)

Module Examples.

Example split_tokens :
  Part_one.split "  C2   M3 " = ["C2"; "M3"].
Proof. reflexivity. Qed.

Example load_skips :
  Part_one.load_transactions ["C1 M1"; ""; "C2"; "C2 M3 M4"; "C2 M1"]
  = [("C1", "M1"); ("C2", "M1")].
Proof. reflexivity. Qed.

(** The test data of [Part_one.py], clustered by mode (a) with the
    threshold 0.4 of [Part_two.py]. *)
Example test_transactions :
  Part_two.find_clusters_with_duplication insertion_order (4 # 10)
    (Part_one.load_transactions
       ["C1 M6"; "C1 M8"; "C2 M1"; "C2 M7"; "C3 M1"; "C3 M2"; "C3 M7";
        "C4 M8"; "C4 M10"; "C5 M3"; "C5 M4"; "C5 M9"; "C6 M6"; "C6 M8";
        "C6 M10"; "C7 M3"; "C7 M5"; "C7 M9"; "C8 M3"; "C8 M4"; "C9 M1";
        "C9 M2"; "C9 M7"; "C10 M4"; "C10 M5"; "C10 M9"])
  = Some
      [ {| merchants := ["M1"; "M2"; "M7"];
           cardholders := ["C2"; "C3"; "C9"] |};
        {| merchants := ["M3"; "M4"; "M5"; "M9"];
           cardholders := ["C10"; "C5"; "C7"; "C8"] |};
        {| merchants := ["M10"; "M6"; "M8"];
           cardholders := ["C1"; "C4"; "C6"] |} ].
Proof. vm_compute. reflexivity. Qed.

(** One entity against two clusters: C1 has one neighbour in each, the
    first is its primary cluster and the ratio of the second to the first
    is 1, so C1 is duplicated for every threshold up to 1. *)
Example engine_on_two_clusters :
  Part_two.duplicate_entity insertion_order 1 C [("C1", ["M1"; "M2"])]
    [ {| merchants := ["M1"]; cardholders := ["C1"; "C2"] |};
      {| merchants := ["M2"]; cardholders := ["C3"] |} ] "C1"
  = [ {| merchants := ["M1"]; cardholders := ["C1"; "C2"] |};
      {| merchants := ["M2"]; cardholders := ["C3"; "C1"] |} ].
Proof. reflexivity. Qed.

(** Mode (b) on four interactions: the labels stay the ids, and every
    entity is duplicated into the clusters of its neighbours but the first
    one. *)
Example mode_b_run :
  Part_three.process_large_dataset_batch insertion_order (3 # 10)
    ["C1 M1"; "C1 M2"; "C2 M1"; "C3 M2"] 5%Z
  = Part_three.Finished
      {| Part_three.final_snapshot :=
           [("C1", "C1"); ("C2", "C2"); ("C3", "C3"); ("M1", "M1"); ("M2", "M2")];
         Part_three.aggregated_clusters :=
           [("C1", {| merchants := []; cardholders := ["C1"] |});
            ("C2", {| merchants := []; cardholders := ["C2"] |});
            ("C3", {| merchants := []; cardholders := ["C3"] |});
            ("M1", {| merchants := ["M1"]; cardholders := [] |});
            ("M2", {| merchants := ["M2"]; cardholders := [] |})];
         Part_three.final_clusters :=
           [("C1", {| merchants := []; cardholders := ["C1"] |});
            ("C2", {| merchants := ["M1"]; cardholders := ["C2"] |});
            ("C3", {| merchants := ["M2"]; cardholders := ["C3"] |});
            ("M1", {| merchants := ["M1"]; cardholders := [] |});
            ("M2", {| merchants := ["M2"]; cardholders := ["C1"] |})] |}.
Proof. vm_compute. reflexivity. Qed.

End Examples.

(** * Further properties of the code *)

(** ** Reading and indexing the interactions *)

Module Index_facts.

Import Part_one.






Lemma no_space_append (w : string) (c : ascii) :
  no_space w = true -> is_space c = false ->
  no_space (String.append w (String c EmptyString)) = true.
Proof.
  intros Hw Hc. induction w as [| a r IH]; simpl in *.
  - now rewrite Hc.
  - apply andb_true_iff in Hw. destruct Hw as [Ha Hr].
    rewrite Ha. now apply IH.
Qed.

Lemma split_from_tokens (s : string) (cur : option string) :
  match cur with Some w => token w | None => True end ->
  Forall token (split_from cur s).
Proof.
  revert cur. induction s as [| c r IH]; intros cur Hcur; simpl.
  - destruct cur as [w |];
      [ constructor; [ assumption | constructor ] | constructor ].
  - destruct (is_space c) eqn:Ec.
    + destruct cur as [w |]; [ constructor; [ assumption | ] | ];
        now apply IH.
    + apply IH. destruct cur as [w |].
      * destruct Hcur as [Hne Hw]. split.
        -- destruct w; discriminate.
        -- now apply no_space_append.
      * split; [ discriminate | simpl; now rewrite Ec ].
Qed.

(** X2: every id that [load_transactions] returns is a token: it is not
    empty and holds no whitespace. *)
Theorem loaded_ids_are_tokens (lines : list string) (c m : string) :
  In (c, m) (load_transactions lines) -> token c /\ token m.
Proof.
  induction lines as [| line rest IH]; simpl; [ contradiction | ].
  pose proof (split_from_tokens line None I) as Ht. fold (split line) in Ht.
  destruct (split line) as [| c0 [| m0 [| x r]]]; try assumption.
  intros [H | H]; [ | now apply IH ].
  inversion H; subst. inversion Ht as [| ? ? Hc Hr]; subst.
  inversion Hr; subst. now split.
Qed.

Lemma loaded_ids_are_tokens_witness : token "C7" /\ token "M3".
Proof.
  apply (loaded_ids_are_tokens ["  C7   M3  "; "C8"] "C7" "M3").
  simpl. now left.
Defined.

(** *** The interaction index *)

Lemma fold_add_keys_nodup (txs : list (string * string)) (g : graphs) :
  NoDup (keys (fst g)) -> NoDup (keys (snd g)) ->
  NoDup (keys (fst (fold_left add_interaction txs g)))
  /\ NoDup (keys (snd (fold_left add_interaction txs g))).
Proof.
  revert g. induction txs as [| [c m] r IH]; intros g H1 H2; simpl.
  - now split.
  - apply IH; simpl; now apply NoDup_keys_dict_add.
Qed.

Lemma fold_add_sets (txs : list (string * string)) (g : graphs) :
  sets_ok (fst g) -> sets_ok (snd g) ->
  sets_ok (fst (fold_left add_interaction txs g))
  /\ sets_ok (snd (fold_left add_interaction txs g)).
Proof.
  revert g. induction txs as [| [c m] r IH]; intros g H1 H2; simpl.
  - now split.
  - apply IH; simpl; now apply Propagation_facts.sets_ok_dict_add.
Qed.

(** X3: the index [create_interaction_graphs] builds is well formed: each
    dictionary has one entry for each of its keys, every value is a set
    without repetition, the keys of the first are the cardholders of the
    interactions and the keys of the second their merchants, and no key has
    an empty set. *)
Theorem index_well_formed (txs : list (string * string)) :
  let g := create_interaction_graphs txs in
  NoDup (keys (fst g)) /\ NoDup (keys (snd g))
  /\ (forall k, NoDup (get (fst g) k) /\ NoDup (get (snd g) k))
  /\ (forall c, In c (keys (fst g)) <-> exists m, In (c, m) txs)
  /\ (forall m, In m (keys (snd g)) <-> exists c, In (c, m) txs)
  /\ (forall c, In c (keys (fst g)) -> get (fst g) c <> [])
  /\ (forall m, In m (keys (snd g)) -> get (snd g) m <> []).
Proof.
  intros g. unfold g, create_interaction_graphs.
  destruct (fold_add_keys_nodup txs ([], [])) as [K1 K2];
    [ constructor | constructor | ].
  destruct (fold_add_sets txs ([], [])) as [S1 S2];
    [ constructor | constructor | ].
  split; [ assumption | split; [ assumption | ] ].
  split; [ intros k; split; now apply Propagation_facts.sets_ok_get | ].
  split; [ intros c; apply (proj1 (Core_facts.keys_graphs txs c c)) | ].
  split; [ intros m; apply (proj2 (Core_facts.keys_graphs txs m m)) | ].
  split.
  - intros c Hc Hnil.
    apply (proj1 (Core_facts.keys_graphs txs c c)) in Hc.
    destruct Hc as [m Hm].
    apply (proj1 (Part_one_facts.graphs_spec txs c m)) in Hm.
    unfold create_interaction_graphs in Hm. rewrite Hnil in Hm.
    contradiction.
  - intros m Hm Hnil.
    apply (proj2 (Core_facts.keys_graphs txs m m)) in Hm.
    destruct Hm as [c Hc].
    apply (proj2 (Part_one_facts.graphs_spec txs c m)) in Hc.
    unfold create_interaction_graphs in Hc. rewrite Hnil in Hc.
    contradiction.
Qed.

Lemma index_well_formed_witness :
  get (fst (create_interaction_graphs [("C1", "M1"); ("C1", "M1"); ("C2", "M1")]))
      "C1" <> [].
Proof.
  apply (proj1 (proj2 (proj2 (proj2 (proj2 (proj2
           (index_well_formed [("C1", "M1"); ("C1", "M1"); ("C2", "M1")]))))))).
  simpl. now left.
Defined.

End Index_facts.

(** ** The first phase of mode (b) *)

Module Phase1_facts.

Import Part_one Part_three.

Lemma read_input_fold (lines : list string) (st p : phase1) :
  read_input lines st = Finished p ->
  cardholder_neighbors_tmp p
  = fst (fold_left add_interaction (load_transactions lines)
           (cardholder_neighbors_tmp st, merchant_neighbors_tmp st))
  /\ merchant_neighbors_tmp p
     = snd (fold_left add_interaction (load_transactions lines)
              (cardholder_neighbors_tmp st, merchant_neighbors_tmp st))
  /\ (forall e, In e (all_unique_entities p)
                <-> In e (all_unique_entities st)
                    \/ exists c m, In (c, m) (load_transactions lines)
                                   /\ (e = c \/ e = m)).
Proof.
  revert st. induction lines as [| line rest IH]; intros st H; simpl in H.
  - inversion H; subst. simpl. repeat split; try tauto.
    intros [He | [c [m [[] _]]]]. assumption.
  - simpl. destruct (split line) as [| c [| m [| x r]]]; try discriminate.
    apply IH in H. simpl in H. destruct H as [H1 [H2 H3]].
    split; [ exact H1 | split; [ exact H2 | ] ].
    intros e. rewrite H3, !In_set_add. split.
    + intros [[He | [He | He]] | [c' [m' [Hin He]]]].
      * right. exists c, m. split; [ now left | now right ].
      * right. exists c, m. split; [ now left | now left ].
      * now left.
      * right. exists c', m'. split; [ now right | assumption ].
    + intros [He | [c' [m' [[Heq | Hin] He]]]].
      * left. tauto.
      * inversion Heq; subst. left. tauto.
      * right. exists c', m'. tauto.
Qed.


(** X5: on an input whose lines all have two tokens, the first phase of
    mode (b) builds the adjacency dictionaries that
    [create_interaction_graphs] builds from the pairs [load_transactions]
    reads, and its entities are the ids of these pairs. *)
Theorem phase1_is_the_index (lines : list string) (p : phase1) :
  read_input lines no_input = Finished p ->
  cardholder_neighbors_tmp p
  = fst (create_interaction_graphs (load_transactions lines))
  /\ merchant_neighbors_tmp p
     = snd (create_interaction_graphs (load_transactions lines))
  /\ (forall e, In e (all_unique_entities p)
                <-> exists c m, In (c, m) (load_transactions lines)
                                /\ (e = c \/ e = m)).
Proof.
  intros H. destruct (read_input_fold lines no_input p H) as [H1 [H2 H3]].
  split; [ exact H1 | split; [ exact H2 | ] ].
  intros e. rewrite H3. simpl. tauto.
Qed.

Lemma phase1_is_the_index_witness :
  exists p,
    read_input ["C1 M1"; "C2 M1"] no_input = Finished p
    /\ cardholder_neighbors_tmp p
       = fst (create_interaction_graphs (load_transactions ["C1 M1"; "C2 M1"])).
Proof.
  eexists. split; [ reflexivity | ].
  apply (phase1_is_the_index ["C1 M1"; "C2 M1"] _ eq_refl).
Defined.

End Phase1_facts.

(** ** The snapshots and the clusters of a run of mode (b) *)

Module Run_b_facts.

Import Part_one Part_three Propagation_facts.

Lemma votes_of_In (v : list (string * tally)) (e : string) (T : tally) :
  NoDup (keys v) -> In (e, T) v -> votes_of v e = T.
Proof.
  unfold keys. induction v as [| [k cnt] r IH]; simpl; intros Hnd Hin.
  - contradiction.
  - inversion Hnd as [| ? ? Hn Hr]; subst. destruct Hin as [Heq | Hin].
    + inversion Heq; subst. now rewrite String.eqb_refl.
    + destruct (String.eqb e k) eqn:E; [ | now apply IH ].
      apply String.eqb_eq in E. subst k. exfalso. apply Hn.
      apply in_map_iff. now exists (e, T).
Qed.

Section Run.

Variable o : Order.
Variable lines : list string.
Variable p : phase1.
Hypothesis Hp : read_input lines no_input = Finished p.

Lemma run_phase1_ok : phase1_ok p.
Proof. eapply read_input_ok; [ exact Hp | apply no_input_ok ]. Qed.

Lemma run_phase1_sets :
  sets_ok (cardholder_neighbors_tmp p) /\ sets_ok (merchant_neighbors_tmp p).
Proof.
  apply (read_input_sets lines no_input p Hp). split; constructor.
Qed.

Lemma own_labels_round (k : nat) :
  own_labels (read_snapshot (snapshot_after o p k)).
Proof.
  intros n l Hn.
  rewrite (labels_never_change o p run_phase1_ok (proj1 run_phase1_sets) (proj2 run_phase1_sets)) in Hn.
  destruct (in_dec string_dec n (all_unique_entities p)); congruence.
Qed.

(** The rows of the snapshot file of every round. *)
Lemma snapshot_rows_run (k : nat) :
  NoDup (map fst (snapshot_after o p k))
  /\ (forall e l, In (e, l) (snapshot_after o p k)
                  <-> In e (all_unique_entities p) /\ l = e).
Proof.
  destruct k as [| k].
  - simpl. unfold initial_snapshot. split.
    + rewrite map_map. simpl. rewrite map_id.
      apply (Permutation_NoDup (Permutation_sym (iter_perm o _))).
      apply run_phase1_ok.
    + intros e l. rewrite in_map_iff. split.
      * intros [x [Hx Hin]]. inversion Hx; subst.
        split; [ now apply In_iter in Hin | reflexivity ].
      * intros [Hin ->]. exists e. split; [ reflexivity | now apply In_iter ].
  - simpl. unfold propagate.
    set (cur := read_snapshot (snapshot_after o p k)).
    pose proof (NoDup_new_cluster_votes o cur p) as Hnd.
    split.
    + rewrite map_map. simpl. exact Hnd.
    + intros e l. rewrite in_map_iff. split.
      * intros [[e' T] [Hx Hin]]. simpl in Hx. inversion Hx; subst e' l.
        assert (He : In e (all_unique_entities p)).
        { apply (proj2 (proj2 (proj2 run_phase1_ok))).
          apply (In_keys_new_cluster_votes o cur p).
          unfold keys. apply in_map_iff. now exists (e, T). }
        split; [ assumption | ].
        rewrite <- (votes_of_In _ e T Hnd Hin).
        apply (own_label_kept o p run_phase1_ok (proj1 run_phase1_sets) (proj2 run_phase1_sets));
          [ apply own_labels_round | assumption ].
      * intros [He ->].
        exists (e, votes_of (new_cluster_votes o p cur) e). split.
        -- simpl. f_equal.
           apply (own_label_kept o p run_phase1_ok (proj1 run_phase1_sets) (proj2 run_phase1_sets));
             [ apply own_labels_round | assumption ].
        -- apply In_votes_of. apply In_keys_new_cluster_votes.
           now apply (proj2 (proj2 (proj2 run_phase1_ok))).
Qed.

End Run.

(** X6: label propagation never changes a label.  In a run of mode (b),
    after every number of rounds, the snapshot file holds one row for each
    entity of the input and no other row, and the label of the row is the
    id of the entity. *)
Theorem snapshot_rows (o : Order) (lines : list string) (p : phase1)
  (k : nat) :
  read_input lines no_input = Finished p ->
  NoDup (map fst (snapshot_after o p k))
  /\ (forall e l, In (e, l) (snapshot_after o p k)
                  <-> In e (all_unique_entities p) /\ l = e).
Proof.
  intros Hp. now apply (snapshot_rows_run o lines p Hp).
Qed.

Lemma snapshot_rows_witness :
  exists p,
    read_input ["C1 M1"; "C2 M1"; "C2 M2"] no_input = Finished p
    /\ forall e l, In (e, l) (snapshot_after reversed_order p 4)
                   <-> In e (all_unique_entities p) /\ l = e.
Proof.
  eexists. split; [ reflexivity | ].
  apply (snapshot_rows reversed_order ["C1 M1"; "C2 M1"; "C2 M2"] _ 4 eq_refl).
Defined.

(** *** The clusters before duplication *)

Lemma snap_set_new (d : snapshot) (k v : string) :
  ~ In k (map fst d) -> snap_set d k v = d ++ [(k, v)].
Proof.
  induction d as [| [k0 v0] r IH]; simpl; intros H; [ reflexivity | ].
  destruct (String.eqb k k0) eqn:E.
  - apply String.eqb_eq in E. subst. tauto.
  - f_equal. apply IH. tauto.
Qed.

Lemma read_rows_from (rows d : snapshot) :
  NoDup (map fst (d ++ rows)) ->
  fold_left (fun d row => snap_set d (fst row) (snd row)) rows d = d ++ rows.
Proof.
  revert d. induction rows as [| [k v] r IH]; intros d H; simpl.
  - now rewrite app_nil_r.
  - rewrite snap_set_new.
    + rewrite IH; rewrite <- app_assoc; [ reflexivity | exact H ].
    + rewrite map_app in H. simpl in H. apply NoDup_remove_2 in H.
      intros Hin. apply H. apply in_app_iff. now left.
Qed.

(** A snapshot file with one row for each entity is read into a dictionary
    that lists the rows in the order of the file. *)
Lemma read_snapshot_rows (rows : snapshot) :
  NoDup (map fst rows) -> read_snapshot rows = rows.
Proof. intros H. unfold read_snapshot. now rewrite read_rows_from. Qed.

Lemma agg_add_new (d : list (string * cluster)) (id : string)
  (ty : entity_type) (e : string) :
  ~ In id (keys d) -> agg_add d id ty e = d ++ [(id, add_member ty e empty_cluster)].
Proof.
  unfold keys. induction d as [| [k cl] r IH]; simpl; intros H;
    [ reflexivity | ].
  destruct (String.eqb id k) eqn:E.
  - apply String.eqb_eq in E. subst. tauto.
  - f_equal. apply IH. tauto.
Qed.

Lemma aggregate_from (rows : snapshot) (d : list (string * cluster)) :
  NoDup (keys d ++ map fst rows) ->
  (forall e l, In (e, l) rows -> l = e) ->
  fold_left core_assign rows d
  = d ++ map (fun row => (fst row, own_cluster (fst row))) rows.
Proof.
  revert d. induction rows as [| [e l] r IH]; intros d Hnd Hown; simpl.
  - now rewrite app_nil_r.
  - assert (Hl : l = e) by (apply Hown; now left). subst l.
    assert (Hnew : ~ In e (keys d)).
    { simpl in Hnd. apply NoDup_remove_2 in Hnd. intros Hin. apply Hnd.
      apply in_app_iff. now left. }
    assert (Hstep : core_assign d (e, e) = d ++ [(e, own_cluster e)]).
    { unfold core_assign, own_cluster, side_of. simpl.
      destruct (prefix "C" e); now apply agg_add_new. }
    rewrite Hstep, IH.
    + now rewrite <- app_assoc.
    + unfold keys in *. rewrite map_app. simpl. rewrite <- app_assoc. exact Hnd.
    + intros e' l' Hin. apply Hown. now right.
Qed.

(** X7: before duplication every cluster of a run of mode (b) is a
    singleton: the clusters are listed in the order of the rows of the last
    snapshot file, and the cluster of a row holds the entity of the row
    alone, among the cardholders when its id starts with C and among the
    merchants otherwise. *)
Theorem clusters_before_duplication (o : Order) (t : Q)
  (lines : list string) (num_iterations : Z) (r : run) :
  process_large_dataset_batch o t lines num_iterations = Finished r ->
  aggregated_clusters r
  = map (fun row => (fst row, own_cluster (fst row))) (final_snapshot r).
Proof.
  intros H. unfold process_large_dataset_batch in H.
  destruct (read_input lines no_input) as [p |] eqn:Hp; [ | discriminate ].
  inversion H; subst; clear H. simpl.
  destruct (snapshot_rows_run o lines p Hp (Z.to_nat num_iterations))
    as [Hnd Hrows].
  unfold last_snapshot. rewrite (read_snapshot_rows _ Hnd).
  unfold aggregate. rewrite aggregate_from; [ reflexivity | exact Hnd | ].
  intros e l Hin. now apply Hrows in Hin.
Qed.

Lemma clusters_before_duplication_witness :
  exists r,
    process_large_dataset_batch insertion_order (3 # 10)
      ["C1 M1"; "C2 M1"] 2%Z = Finished r
    /\ aggregated_clusters r
       = map (fun row => (fst row, own_cluster (fst row))) (final_snapshot r).
Proof.
  eexists. split; [ reflexivity | ].
  apply (clusters_before_duplication insertion_order (3 # 10)
           ["C1 M1"; "C2 M1"] 2%Z _ eq_refl).
Defined.

(** *** The clusters after duplication *)

Lemma incr_new (d : tally) (k : string) :
  ~ In k (map fst d) -> incr String.eqb d k = d ++ [(k, 1)].
Proof.
  induction d as [| [k0 v0] r IH]; simpl; intros H; [ reflexivity | ].
  destruct (String.eqb k k0) eqn:E.
  - apply String.eqb_eq in E. subst. tauto.
  - f_equal. apply IH. tauto.
Qed.

Lemma label_counts_from (final : snapshot) (l : list string) (acc : tally) :
  NoDup (map fst acc ++ l) ->
  (forall n, In n l -> snap_get final n = Some n) ->
  fold_left
    (fun counts n =>
       match snap_get final n with
       | Some id => incr String.eqb counts id
       | None => counts
       end) l acc
  = acc ++ map (fun n => (n, 1)) l.
Proof.
  revert acc. induction l as [| n r IH]; intros acc Hnd Hown; simpl.
  - now rewrite app_nil_r.
  - rewrite (Hown n) by now left. rewrite incr_new.
    + rewrite IH.
      * now rewrite <- app_assoc.
      * rewrite map_app. simpl. rewrite <- app_assoc. exact Hnd.
      * intros n' Hn'. apply Hown. now right.
    + apply NoDup_remove_2 in Hnd. intros Hin. apply Hnd.
      apply in_app_iff. now left.
Qed.

(** With every neighbour labelled by its own id, each neighbour is a
    candidate with the count 1, in the order of the iteration. *)
Lemma label_counts_own (final : snapshot) (l : list string) :
  NoDup l -> (forall n, In n l -> snap_get final n = Some n) ->
  label_counts final l = map (fun n => (n, 1)) l.
Proof.
  intros Hnd Hown. unfold label_counts.
  now rewrite label_counts_from.
Qed.

Lemma sort_desc_ones (l : list string) :
  sort_desc (map (fun n => (n, 1)) l) = map (fun n => (n, 1)) l.
Proof.
  induction l as [| n r IH]; [ reflexivity | ].
  change (sort_desc (map (fun n => (n, 1)) (n :: r)))
    with (insert_desc (n, 1) (sort_desc (map (fun n => (n, 1)) r))).
  rewrite IH. destruct r; reflexivity.
Qed.

(** The ratio test for a candidate with the count 1 against a primary
    count of 1. *)
Lemma duplicates_one (total : nat) (t : Q) :
  duplicates 1 1 total t = Qle_bool t 1.
Proof.
  unfold duplicates, ratio_ge. simpl.
  destruct (Qle_bool t (1 # 1)) eqn:E1; [ reflexivity | ].
  destruct (Qle_bool t (1 # Pos.of_nat total)) eqn:E2; [ | reflexivity ].
  apply Qle_bool_iff in E2.
  assert (H : (t <= 1 # 1)%Q).
  { eapply Qle_trans; [ exact E2 | ]. unfold Qle. simpl. lia. }
  apply Qle_bool_iff in H. congruence.
Qed.

Lemma filter_const {A : Type} (b : bool) (l : list A) :
  filter (fun _ => b) l = if b then l else [].
Proof.
  induction l as [| x r IH]; simpl; [ now destruct b | ].
  rewrite IH. now destruct b.
Qed.

(** The clusters an entity is duplicated into, when its neighbours are
    labelled by their ids: those of all its neighbours but the first of
    the iteration, when the threshold is at most 1, and none otherwise. *)
Lemma secondary_ids_own (o : Order) (t : Q) (final : snapshot)
  (x : string) (ns : list string) :
  NoDup ns -> (forall n, In n ns -> snap_get final n = Some n) ->
  secondary_ids o t final (x, ns)
  = if Qle_bool t 1 then tl (iter o ns) else [].
Proof.
  intros Hnd Hown. unfold secondary_ids. simpl.
  destruct ns as [| n0 r] eqn:Ens.
  - simpl. assert (E : iter o [] = []).
    { apply Permutation_nil. apply Permutation_sym. apply iter_perm. }
    rewrite E. now destruct (Qle_bool t 1).
  - rewrite <- Ens in *. simpl is_empty.
    assert (Hie : is_empty ns = false) by (now rewrite Ens).
    rewrite Hie.
    rewrite label_counts_own.
    + rewrite sort_desc_ones.
      destruct (iter o ns) as [| n1 rest] eqn:Ei.
      * now destruct (Qle_bool t 1).
      * simpl.
        rewrite (filter_ext_in _ (fun _ => Qle_bool t 1)).
        -- rewrite filter_const. destruct (Qle_bool t 1); [ | reflexivity ].
           rewrite map_map. simpl. apply map_id.
        -- intros a Ha. apply in_map_iff in Ha. destruct Ha as [n [<- _]].
           apply duplicates_one.
    + apply (Permutation_NoDup (Permutation_sym (iter_perm o ns)) Hnd).
    + intros n Hn. apply Hown. now apply In_iter in Hn.
Qed.

Lemma get_In (d : list (string * list string)) (k : string)
  (v : list string) :
  NoDup (keys d) -> In (k, v) d -> get d k = v.
Proof.
  unfold keys. induction d as [| [k0 v0] r IH]; simpl; intros Hnd Hin.
  - contradiction.
  - inversion Hnd as [| ? ? Hn Hr]; subst. destruct Hin as [Heq | Hin].
    + inversion Heq; subst. now rewrite String.eqb_refl.
    + destruct (String.eqb k k0) eqn:E; [ | now apply IH ].
      apply String.eqb_eq in E. subst k0. exfalso. apply Hn.
      apply in_map_iff. now exists (k, v).
Qed.

Lemma In_get_entry (d : list (string * list string)) (k : string) :
  In k (keys d) -> In (k, get d k) d.
Proof.
  unfold keys. induction d as [| [k0 v0] r IH]; simpl; intros H.
  - contradiction.
  - destruct (String.eqb k k0) eqn:E.
    + apply String.eqb_eq in E. subst. now left.
    + right. apply IH. destruct H as [-> | H]; [ | assumption ].
      rewrite String.eqb_refl in E. discriminate.
Qed.

Lemma iter_nil (o : Order) : iter o [] = [].
Proof. apply Permutation_nil, Permutation_sym, iter_perm. Qed.

(** The insertions of a pass over an adjacency dictionary whose neighbours
    are all labelled by their ids. *)
Lemma inserts_own (o : Order) (t : Q) (final : snapshot) (ty : entity_type)
  (entries : list (string * list string)) (id : string) (ty' : entity_type)
  (x : string) :
  NoDup (keys entries) -> sets_ok entries ->
  (forall k n, In n (get entries k) -> snap_get final n = Some n) ->
  inserts o t final ty entries id ty' x
  <-> ty' = ty /\ Qle_bool t 1 = true /\ In id (tl (iter o (get entries x))).
Proof.
  intros Hnd Hsets Hown. unfold inserts. split.
  - intros [[k ns] [Hin [Hid [Hty Hx]]]]. simpl in Hx. subst k.
    pose proof (get_In entries x ns Hnd Hin) as Hg.
    rewrite secondary_ids_own in Hid.
    + rewrite Hg. destruct (Qle_bool t 1); [ tauto | contradiction ].
    + rewrite <- Hg. now apply sets_ok_get.
    + intros n Hn. apply (Hown x). now rewrite Hg.
  - intros [Hty [Ht Hid]].
    assert (Hkey : In x (keys entries)).
    { destruct (in_dec string_dec x (keys entries)) as [H | H];
        [ assumption | ].
      rewrite (get_not_key entries x H), iter_nil in Hid. contradiction. }
    exists (x, get entries x). split; [ now apply In_get_entry | ].
    split; [ | split; [ assumption | reflexivity ] ].
    rewrite secondary_ids_own.
    + now rewrite Ht.
    + now apply sets_ok_get.
    + intros n Hn. now apply (Hown x).
Qed.

Lemma agg_get_own (rows : snapshot) (id : string) :
  agg_get (map (fun row => (fst row, own_cluster (fst row))) rows) id
  = if in_dec string_dec id (map fst rows) then own_cluster id
    else empty_cluster.
Proof.
  induction rows as [| [e l] r IH]; simpl; [ reflexivity | ].
  destruct (String.eqb id e) eqn:E.
  - apply String.eqb_eq in E. subst e.
    destruct (string_dec id id); [ reflexivity | congruence ].
  - apply String.eqb_neq in E. rewrite IH.
    destruct (string_dec e id); [ congruence | ].
    destruct (in_dec string_dec id (map fst r)); reflexivity.
Qed.

Lemma In_own_cluster (ty : entity_type) (x id : string) :
  In x (same_side ty (own_cluster id)) <-> x = id /\ ty = side_of id.
Proof.
  unfold own_cluster. rewrite Mode_b_facts.In_add_member.
  destruct ty; simpl; intuition congruence.
Qed.

(** X8: what a run of mode (b) returns.  A cluster is named by the id of
    an entity and holds that entity, on the side its id tells; and when the
    threshold is at most 1, every entity is also a member of the clusters
    of all its neighbours but the one its set of neighbours yields first.
    The clusters have no other member, and with a threshold above 1 no
    entity is duplicated. *)
Theorem clusters_after_duplication (o : Order) (t : Q)
  (lines : list string) (num_iterations : Z) (p : phase1) (r : run) :
  read_input lines no_input = Finished p ->
  process_large_dataset_batch o t lines num_iterations = Finished r ->
  forall ty id x,
    In x (same_side ty (agg_get (final_clusters r) id))
    <-> (x = id /\ In x (all_unique_entities p) /\ ty = side_of x)
        \/ (Qle_bool t 1 = true
            /\ In id (tl (iter o
                  (get (adjacency (cardholder_neighbors_tmp p)
                          (merchant_neighbors_tmp p) ty) x)))).
Proof.
  intros Hp H ty id x.
  pose proof (clusters_before_duplication o t lines num_iterations r H)
    as Hagg.
  unfold process_large_dataset_batch in H. rewrite Hp in H.
  inversion H; subst r; clear H. simpl in *.
  destruct (snapshot_rows_run o lines p Hp (Z.to_nat num_iterations))
    as [Hnd Hrows].
  fold (last_snapshot o p num_iterations) in Hnd, Hrows.
  set (rows := last_snapshot o p num_iterations) in *.
  rewrite (read_snapshot_rows rows Hnd) in *.
  rewrite Growth.agg_get_sorted, Mode_a_facts.same_side_sorted.
  rewrite Mode_b_facts.In_duplication_phase.
  destruct (Phase1_facts.phase1_is_the_index lines p Hp) as [Ec [Em Hall]].
  destruct (run_phase1_ok lines p Hp) as [_ [Kc [Km _]]].
  destruct (run_phase1_sets lines p Hp) as [Sc Sm].
  assert (Hlabel : forall n, In n (all_unique_entities p) ->
                             snap_get rows n = Some n).
  { intros n Hn.
    rewrite <- (read_snapshot_rows rows Hnd).
    unfold rows, last_snapshot.
    rewrite (labels_never_change o p (run_phase1_ok lines p Hp) Sc Sm).
    destruct (in_dec string_dec n (all_unique_entities p)); tauto. }
  assert (Hc : forall k n, In n (get (cardholder_neighbors_tmp p) k) ->
                           snap_get rows n = Some n).
  { intros k n Hn. apply Hlabel, Hall. rewrite Ec in Hn.
    apply (proj1 (Part_one_facts.graphs_spec _ k n)) in Hn. eauto. }
  assert (Hm : forall k n, In n (get (merchant_neighbors_tmp p) k) ->
                           snap_get rows n = Some n).
  { intros k n Hn. apply Hlabel, Hall. rewrite Em in Hn.
    apply (proj2 (Part_one_facts.graphs_spec _ n k)) in Hn. eauto. }
  rewrite (inserts_own o t rows C _ id ty x Kc Sc Hc).
  rewrite (inserts_own o t rows M _ id ty x Km Sm Hm).
  rewrite Hagg, agg_get_own.
  assert (Hkeys : In id (map fst rows) <-> In id (all_unique_entities p)).
  { rewrite in_map_iff. split.
    - intros [[e l] [He Hin]]. simpl in He. subst e.
      now apply Hrows in Hin.
    - intros Hin. exists (id, id). split; [ reflexivity | ].
      apply Hrows. tauto. }
  destruct (in_dec string_dec id (map fst rows)) as [Hin | Hout].
  - rewrite In_own_cluster. destruct ty; simpl; split.
    + intros [[-> ->] | [[_ [Ht Hi]] | [Hf _]]];
        [ left; tauto | right; tauto | discriminate ].
    + intros [[-> [_ ->]] | [Ht Hi]]; [ left; tauto | right; left; tauto ].
    + intros [[-> ->] | [[Hf _] | [_ [Ht Hi]]]];
        [ left; tauto | discriminate | right; tauto ].
    + intros [[-> [_ ->]] | [Ht Hi]]; [ left; tauto | right; right; tauto ].
  - destruct ty; simpl; split.
    + intros [[] | [[_ [Ht Hi]] | [Hf _]]]; [ right; tauto | discriminate ].
    + intros [[-> [He _]] | [Ht Hi]]; [ tauto | right; left; tauto ].
    + intros [[] | [[Hf _] | [_ [Ht Hi]]]]; [ discriminate | right; tauto ].
    + intros [[-> [He _]] | [Ht Hi]]; [ tauto | right; right; tauto ].
Qed.

Lemma clusters_after_duplication_witness :
  exists p r,
    read_input ["C1 M1"; "C1 M2"] no_input = Finished p
    /\ process_large_dataset_batch insertion_order (3 # 10)
         ["C1 M1"; "C1 M2"] 5%Z = Finished r
    /\ In "C1" (same_side C (agg_get (final_clusters r) "M2")).
Proof.
  eexists; eexists. split; [ reflexivity | split; [ reflexivity | ] ].
  apply (proj2 (clusters_after_duplication insertion_order (3 # 10)
                  ["C1 M1"; "C1 M2"] 5%Z _ _ eq_refl eq_refl C "M2" "C1")).
  right. split; [ reflexivity | simpl; now left ].
Defined.

End Run_b_facts.

(** ** The duplication engine of mode (b) *)

Module Engine_b_facts.

Import Part_three Counter_facts Propagation_facts Duplication_facts.

Section Counts.

Variable final : snapshot.





End Counts.



End Engine_b_facts.

(** ** The core clusters of mode (a), for every input *)

Module Core_general.

Import Part_two Termination.

Section Loops.

Variable o : Order.
Variable c2m m2c : list (string * list string).

(** What the construction of every cluster keeps holds when the
    core-cluster loop is left. *)
Lemma core_loop_keeps (P : core_state -> Prop) (bfs_fuel : nat)
  (start : list string) :
  (forall st s b,
      P st -> is_seed (un_c st) (un_m st) s = true ->
      bfs o c2m m2c bfs_fuel (List.length (clusters st)) (bfs_start st s)
      = Some b ->
      P (core_next st b)) ->
  forall fuel st st',
    core_loop o c2m m2c fuel bfs_fuel start st = Some st' -> P st -> P st'.
Proof.
  intros Hstep fuel. induction fuel as [| fuel IH]; intros st st' H HP;
    rewrite core_loop_unfold in H.
  - destruct (is_empty (un_c st) && is_empty (un_m st));
      [ inversion H; now subst | ].
    destruct (find _ start); [ discriminate | inversion H; now subst ].
  - destruct (is_empty (un_c st) && is_empty (un_m st));
      [ inversion H; now subst | ].
    destruct (find _ start) as [s |] eqn:Ef; [ | inversion H; now subst ].
    apply find_some in Ef. destruct Ef as [_ Hs].
    destruct (bfs o c2m m2c bfs_fuel _ _) as [b |] eqn:Eb; [ | discriminate ].
    apply IH in H; [ assumption | ].
    now apply (Hstep st s b).
Qed.

(** A turn of the loop over the queue files the entity by the first letter
    of its id. *)
Lemma bfs_step_letters (k : nat) (x : string) (b : bfs_state) :
  (forall e, In e (current_cluster_cardholders b) -> prefix "C" e = true) ->
  (forall e, In e (current_cluster_merchants b) -> prefix "M" e = true) ->
  (forall e, In e (current_cluster_cardholders (bfs_step o c2m m2c k x b)) ->
             prefix "C" e = true)
  /\ (forall e, In e (current_cluster_merchants (bfs_step o c2m m2c k x b)) ->
                prefix "M" e = true).
Proof.
  intros Hc Hm. unfold bfs_step.
  destruct (prefix "C" x) eqn:Ec.
  - destruct (core_elsewhere _ _ _); [ now split | ].
    destruct (mem x (current_cluster_cardholders b)); simpl; [ now split | ].
    split; [ | assumption ].
    intros e He. apply In_set_add in He. destruct He as [-> | He]; auto.
  - destruct (prefix "M" x) eqn:Em; [ | now split ].
    destruct (core_elsewhere _ _ _); [ now split | ].
    destruct (mem x (current_cluster_merchants b)); simpl; [ now split | ].
    split; [ assumption | ].
    intros e He. apply In_set_add in He. destruct He as [-> | He]; auto.
Qed.

End Loops.

(** X11: the core-cluster builder files an entity by the first letter of
    its id, for every input: every member of the cardholders of a core
    cluster has an id that starts with C and every member of its merchants
    an id that starts with M, so an entity whose id starts with neither is
    in no core cluster. *)
Theorem core_members_by_letter (o : Order) (txs : list (string * string))
  (st : core_state) :
  core_clusters o txs = Some st ->
  forall cl, In cl (clusters st) ->
    (forall e, In e (cardholders cl) -> prefix "C" e = true)
    /\ (forall e, In e (merchants cl) -> prefix "M" e = true).
Proof.
  intros H. unfold core_clusters in H.
  set (c2m := fst (Part_one.create_interaction_graphs txs)) in *.
  set (m2c := snd (Part_one.create_interaction_graphs txs)) in *.
  set (P := fun st : core_state =>
              forall cl, In cl (clusters st) ->
                (forall e, In e (cardholders cl) -> prefix "C" e = true)
                /\ (forall e, In e (merchants cl) -> prefix "M" e = true)).
  assert (Hstep : forall st0 s b,
             P st0 -> is_seed (un_c st0) (un_m st0) s = true ->
             bfs o c2m m2c (1 + total_degree c2m + total_degree m2c)
               (List.length (clusters st0)) (bfs_start st0 s) = Some b ->
             P (core_next st0 b)).
  { intros st0 s b HP Hs Hb cl Hcl.
    set (Q := fun b : bfs_state =>
                (forall e, In e (current_cluster_cardholders b) ->
                           prefix "C" e = true)
                /\ (forall e, In e (current_cluster_merchants b) ->
                              prefix "M" e = true)).
    assert (HQ : Q b).
    { refine (proj1 (bfs_inv o c2m m2c Q _ _ _ _ _ Hb _)).
      - intros b0 x rest _ [Q1 Q2].
        apply (bfs_step_letters o c2m m2c _ x (with_queue rest b0) Q1 Q2).
      - split; intros e []. }
    unfold core_next in Hcl. simpl in Hcl.
    destruct (negb _ || negb _); [ | now apply HP ].
    apply in_app_iff in Hcl. destruct Hcl as [Hcl | [<- | []]];
      [ now apply HP | exact HQ ]. }
  assert (Hinit : P {| clusters := []; core_ids := [];
                       un_c := keys c2m; un_m := keys m2c |})
    by (intros cl []).
  exact (core_loop_keeps o c2m m2c P _ _ Hstep _ _ _ H Hinit).
Qed.

Lemma core_members_by_letter_witness :
  (forall e,
      In e (cardholders {| merchants := ["M1"]; cardholders := ["C1"] |}) ->
      prefix "C" e = true)
  /\ (forall e,
        In e (merchants {| merchants := ["M1"]; cardholders := ["C1"] |}) ->
        prefix "M" e = true).
Proof.
  apply (core_members_by_letter insertion_order [("C1", "M1"); ("C1", "X")]
           {| clusters := [ {| merchants := ["M1"]; cardholders := ["C1"] |} ];
              core_ids := [("C1", 0); ("M1", 0)];
              un_c := []; un_m := ["X"] |}).
  - vm_compute. reflexivity.
  - now left.
Defined.

(** *** Connected components *)

Section Reach.

Variable o : Order.
Variable c2m m2c : list (string * list string).

Lemma reach_trans (x y z : string) :
  reach c2m m2c x y -> reach c2m m2c y z -> reach c2m m2c x z.
Proof.
  intros Hxy Hyz. induction Hyz as [| u v Hyu IH Huv]; [ assumption | ].
  eapply reach_next; eassumption.
Qed.

(** A turn of the loop over the queue only reaches partners of the entity
    it takes from the queue. *)
Lemma bfs_step_reach (seed : string) (k : nat) (x : string) (b : bfs_state) :
  reach c2m m2c seed x ->
  (forall y, In y (queue b) \/ In y (current_cluster_cardholders b)
             \/ In y (current_cluster_merchants b) ->
             reach c2m m2c seed y) ->
  forall y,
    In y (queue (bfs_step o c2m m2c k x b))
    \/ In y (current_cluster_cardholders (bfs_step o c2m m2c k x b))
    \/ In y (current_cluster_merchants (bfs_step o c2m m2c k x b)) ->
    reach c2m m2c seed y.
Proof.
  intros Hx H. unfold bfs_step.
  destruct (prefix "C" x).
  - destruct (core_elsewhere _ _ _); [ assumption | ].
    destruct (mem x (current_cluster_cardholders b)); simpl; [ assumption | ].
    intros y [Hy | [Hy | Hy]].
    + apply in_app_iff in Hy. destruct Hy as [Hy | Hy]; [ auto | ].
      apply filter_In in Hy. destruct Hy as [Hy _]. apply In_iter in Hy.
      eapply reach_next; [ exact Hx | now left ].
    + apply In_set_add in Hy. destruct Hy as [-> | Hy]; auto.
    + auto.
  - destruct (prefix "M" x); [ | assumption ].
    destruct (core_elsewhere _ _ _); [ assumption | ].
    destruct (mem x (current_cluster_merchants b)); simpl; [ assumption | ].
    intros y [Hy | [Hy | Hy]].
    + apply in_app_iff in Hy. destruct Hy as [Hy | Hy]; [ auto | ].
      apply filter_In in Hy. destruct Hy as [Hy _]. apply In_iter in Hy.
      eapply reach_next; [ exact Hx | now right ].
    + auto.
    + apply In_set_add in Hy. destruct Hy as [-> | Hy]; auto.
Qed.

(** Every member of a cluster is connected to the seed of the cluster. *)
Lemma bfs_reach (fuel k : nat) (st : core_state) (seed : string)
  (b : bfs_state) :
  bfs o c2m m2c fuel k (bfs_start st seed) = Some b ->
  forall y, In y (current_cluster_cardholders b)
            \/ In y (current_cluster_merchants b) ->
            reach c2m m2c seed y.
Proof.
  intros Hb y Hy.
  set (P := fun b : bfs_state =>
              forall y, In y (queue b) \/ In y (current_cluster_cardholders b)
                        \/ In y (current_cluster_merchants b) ->
                        reach c2m m2c seed y).
  assert (HP : P b).
  { refine (proj1 (bfs_inv o c2m m2c P k _ _ _ _ Hb _)).
    - intros b0 x rest Hq HP0. unfold P in *.
      apply (bfs_step_reach seed k x (with_queue rest b0)).
      + apply HP0. left. rewrite Hq. now left.
      + intros z [Hz | Hz]; apply HP0.
        * left. rewrite Hq. now right.
        * now right.
    - intros z [[<- | []] | [[] | []]]. constructor. }
  apply HP. now right.
Qed.

(** The members of every core cluster are connected to one entity, for
    every input. *)
Lemma core_loop_reach (bfs_fuel : nat) (start : list string) (fuel : nat)
  (st st' : core_state) :
  core_loop o c2m m2c fuel bfs_fuel start st = Some st' ->
  (forall cl, In cl (clusters st) ->
     exists seed, forall y, member y cl -> reach c2m m2c seed y) ->
  forall cl, In cl (clusters st') ->
    exists seed, forall y, member y cl -> reach c2m m2c seed y.
Proof.
  apply (core_loop_keeps o c2m m2c
           (fun st => forall cl, In cl (clusters st) ->
              exists seed, forall y, member y cl -> reach c2m m2c seed y)).
  intros st0 s b HP Hs Hb cl Hcl. unfold core_next in Hcl. simpl in Hcl.
  destruct (negb _ || negb _); [ | now apply HP ].
  apply in_app_iff in Hcl. destruct Hcl as [Hcl | [<- | []]];
    [ now apply HP | ].
  exists s. intros y Hy. apply (bfs_reach _ _ _ _ _ Hb). exact Hy.
Qed.

Hypothesis G : graph_ok c2m m2c.

Lemma linked_sym (a b : string) :
  linked c2m m2c a b -> linked c2m m2c b a.
Proof.
  intros [H | H].
  - destruct (g_adj _ _ G C a b H) as [_ [_ H']]. now right.
  - destruct (g_adj _ _ G M a b H) as [_ [_ H']]. now left.
Qed.

Lemma reach_sym (x y : string) :
  reach c2m m2c x y -> reach c2m m2c y x.
Proof.
  intros H. induction H as [| u v Hxu IH Huv]; [ constructor | ].
  apply (reach_trans v u x); [ | assumption ].
  eapply reach_next; [ constructor | now apply linked_sym ].
Qed.

Variable cs : list cluster.
Variable core : list (string * nat).
Hypothesis S : settled c2m m2c cs core.

(** A settled cluster holds every partner of its members. *)
Lemma member_linked (j : nat) (cl : cluster) (x y : string) :
  nth_error cs j = Some cl -> member x cl -> linked c2m m2c x y ->
  member y cl.
Proof.
  intros Hcl Hx Hxy.
  assert (Hside : forall ty, In x (same_side ty cl) ->
                    In y (get (adjacency c2m m2c ty) x) -> member y cl).
  { intros ty Hin Hy.
    pose proof (s_closed _ _ _ _ S j cl ty x y Hcl Hin Hy) as Hc.
    destruct ty; simpl in Hc; [ now right | now left ]. }
  assert (Hty : forall ty ty', In x (same_side ty cl) ->
                  entity c2m m2c ty' x -> ty = ty').
  { intros ty ty' Hin He.
    destruct (s_member _ _ _ _ S j cl ty x Hcl Hin) as [He' _].
    apply (Core_facts.entity_side c2m m2c G _ _ _ He' He). }
  destruct Hxy as [Hy | Hy].
  - destruct (g_adj _ _ G C x y Hy) as [He _].
    destruct Hx as [Hx | Hx].
    + now apply (Hside C).
    + pose proof (Hty M C Hx He). discriminate.
  - destruct (g_adj _ _ G M x y Hy) as [He _].
    destruct Hx as [Hx | Hx].
    + pose proof (Hty C M Hx He). discriminate.
    + now apply (Hside M).
Qed.

Lemma member_reach (j : nat) (cl : cluster) (x y : string) :
  nth_error cs j = Some cl -> member x cl -> reach c2m m2c x y ->
  member y cl.
Proof.
  intros Hcl Hx H. induction H as [| u v Hxu IH Huv]; [ assumption | ].
  eapply member_linked; eassumption.
Qed.

End Reach.

(** With ids that follow the convention, the members of a core cluster
    are the entities connected to any one of them. *)
Lemma core_components (o : Order) (txs : list (string * string))
  (st : core_state) :
  ids_ok txs ->
  core_clusters o txs = Some st ->
  settled (fst (Part_one.create_interaction_graphs txs))
    (snd (Part_one.create_interaction_graphs txs))
    (clusters st) (core_ids st) ->
  forall cl x y,
    In cl (clusters st) -> member x cl ->
    (member y cl
     <-> reach (fst (Part_one.create_interaction_graphs txs))
           (snd (Part_one.create_interaction_graphs txs)) x y).
Proof.
  intros ids Hst S.
  pose proof (Core_facts.graph_of_ids txs ids) as G.
  intros cl x y Hcl Hx. split.
  - intros Hy.
    assert (Hseed : exists seed, forall z, member z cl ->
              reach (fst (Part_one.create_interaction_graphs txs))
                (snd (Part_one.create_interaction_graphs txs)) seed z).
    { unfold core_clusters in Hst.
      apply (core_loop_reach o _ _ _ _ _ _ _ Hst); [ | assumption ].
      intros cl0 []. }
    destruct Hseed as [seed Hseed].
    eapply reach_trans; [ | apply Hseed; exact Hy ].
    apply reach_sym; [ assumption | ]. now apply Hseed.
  - intros Hr. apply In_nth_error in Hcl. destruct Hcl as [j Hj].
    eapply member_reach; eassumption.
Qed.

Lemma member_sorted (x : string) (cl : cluster) :
  member x (sorted_cluster cl) <-> member x cl.
Proof.
  unfold member. simpl. now rewrite !Growth.In_sorted_list.
Qed.



End Core_general.

(** ** The clusters by search of part one *)

Module Search_facts.

Import Part_one Part_one_clusters.

Lemma list_sum_perm (l l' : list nat) :
  Permutation l l' -> list_sum l = list_sum l'.
Proof. induction 1; simpl; lia. Qed.

Lemma In_push (x : string) (xs stack : list string) :
  In x (push xs stack) <-> In x xs \/ In x stack.
Proof. unfold push. rewrite in_app_iff, <- in_rev. tauto. Qed.

Lemma length_push (xs stack : list string) :
  List.length (push xs stack) = List.length xs + List.length stack.
Proof. unfold push. now rewrite length_app, length_rev. Qed.

Lemma In_update (x : string) (xs s : list string) :
  In x (update s xs) <-> In x s \/ In x xs.
Proof.
  unfold update. revert s. induction xs as [| a r IH]; intros s; simpl.
  - tauto.
  - rewrite IH, In_set_add. intuition congruence.
Qed.

Lemma nth_error_snoc {A : Type} (l : list A) (a x : A) (i : nat) :
  nth_error (l ++ [a]) i = Some x ->
  (i < List.length l /\ nth_error l i = Some x)
  \/ (i = List.length l /\ x = a).
Proof.
  intros H. destruct (Nat.lt_ge_cases i (List.length l)) as [Hlt | Hge].
  - left. rewrite nth_error_app1 in H by assumption. now split.
  - right. rewrite nth_error_app2 in H by assumption.
    destruct (i - List.length l) as [| k] eqn:E; simpl in H.
    + inversion H. split; [ lia | reflexivity ].
    + destruct k; discriminate H.
Qed.

Lemma for_each_none {A S : Type} (body : S -> A -> option S) (l : list A) :
  fold_left
    (fun acc x => match acc with Some s => body s x | None => None end)
    l None = None.
Proof. induction l as [| a r IH]; simpl; [ reflexivity | exact IH ]. Qed.

Lemma for_each_cons {A S : Type} (body : S -> A -> option S) (a : A)
  (l : list A) (s : S) :
  for_each body (a :: l) s
  = match body s a with
    | Some s1 => for_each body l s1
    | None => None
    end.
Proof.
  unfold for_each. simpl. destruct (body s a); [ reflexivity | ].
  apply for_each_none.
Qed.

(** *** Connected entities *)

Section Connected.

Variable c2m m2c : list (string * list string).

Hypothesis both_ways : forall ty u v,
  In v (get (adjacency c2m m2c ty) u) ->
  In u (get (adjacency c2m m2c (opposite ty)) v).

Lemma opposite_opposite (ty : entity_type) : opposite (opposite ty) = ty.
Proof. now destruct ty. Qed.

Lemma connected_trans (ta tb tc : entity_type) (x y z : string) :
  connected c2m m2c ta x tb y -> connected c2m m2c tb y tc z ->
  connected c2m m2c ta x tc z.
Proof.
  intros Hxy Hyz. induction Hyz as [| ty' u v Hyu IH Huv]; [ assumption | ].
  eapply connected_next; eassumption.
Qed.

Lemma connected_sym (ta tb : entity_type) (x y : string) :
  connected c2m m2c ta x tb y -> connected c2m m2c tb y ta x.
Proof.
  intros H. induction H as [| ty' u v Hxu IH Huv]; [ constructor | ].
  apply (connected_trans _ ty' _ _ u); [ | assumption ].
  rewrite <- (opposite_opposite ty') at 2.
  eapply connected_next; [ constructor | now apply both_ways ].
Qed.

End Connected.

(** *** One turn of the search from a cardholder *)

Section Turn.

Variable o : Order.
Variable c2m m2c : list (string * list string).

Lemma second_degree_iter (adj : list (string * list string))
  (ns : list string) :
  second_degree adj (iter o ns) = second_degree adj ns.
Proof.
  unfold second_degree. apply list_sum_perm, Permutation_map, iter_perm.
Qed.

(** What the body of the loop over the merchants of a cardholder does. *)
Lemma add_merchant_spec (s : state) (m : string) :
  let s' := add_merchant o m2c s m in
  clusters s' = clusters s
  /\ visited_cardholders s' = visited_cardholders s
  /\ visited_merchants s' = visited_merchants s
  /\ current_cluster_cardholders s' = current_cluster_cardholders s
  /\ (forall x, In x (current_cluster_merchants s')
                <-> In x (current_cluster_merchants s)
                    \/ (x = m /\ ~ In m (visited_merchants s)))
  /\ (forall x, In x (stack_cardholders s')
                <-> In x (stack_cardholders s)
                    \/ (~ In m (visited_merchants s)
                        /\ In x (get m2c m)
                        /\ ~ In x (visited_cardholders s)))
  /\ List.length (stack_cardholders s')
     <= List.length (stack_cardholders s) + List.length (get m2c m).
Proof.
  unfold add_merchant. destruct (mem m (visited_merchants s)) eqn:E; simpl.
  - apply mem_In in E. repeat split; try tauto; try lia.
  - apply mem_false in E. repeat split; try tauto.
    + rewrite In_set_add. tauto.
    + rewrite In_set_add. tauto.
    + rewrite In_push, filter_In, In_iter, negb_true_iff, mem_false. tauto.
    + rewrite In_push, filter_In, In_iter, negb_true_iff, mem_false. tauto.
    + rewrite length_push.
      pose proof (Termination.length_pushed o
                    (fun connected_c =>
                       negb (mem connected_c (visited_cardholders s)))
                    (get m2c m)).
      lia.
Qed.

Lemma fold_add_merchant (ms : list string) (s : state) :
  let s' := fold_left (add_merchant o m2c) ms s in
  clusters s' = clusters s
  /\ visited_cardholders s' = visited_cardholders s
  /\ visited_merchants s' = visited_merchants s
  /\ current_cluster_cardholders s' = current_cluster_cardholders s
  /\ (forall x, In x (current_cluster_merchants s')
                <-> In x (current_cluster_merchants s)
                    \/ (In x ms /\ ~ In x (visited_merchants s)))
  /\ (forall x, In x (stack_cardholders s')
                <-> In x (stack_cardholders s)
                    \/ exists m, In m ms
                                 /\ ~ In m (visited_merchants s)
                                 /\ In x (get m2c m)
                                 /\ ~ In x (visited_cardholders s))
  /\ List.length (stack_cardholders s')
     <= List.length (stack_cardholders s) + second_degree m2c ms.
Proof.
  revert s. induction ms as [| a r IH]; intros s; simpl.
  - repeat split; try tauto; try lia.
    intros [H | [m [[] _]]]. assumption.
  - destruct (IH (add_merchant o m2c s a)) as [I1 [I2 [I3 [I4 [I5 [I6 I7]]]]]].
    destruct (add_merchant_spec s a) as [A1 [A2 [A3 [A4 [A5 [A6 A7]]]]]].
    simpl in *.
    split; [ congruence | ]. split; [ congruence | ].
    split; [ congruence | ]. split; [ congruence | ].
    split; [ | split ].
    + intros x. rewrite I5, A5, A3. split.
      * intros [[H | [-> H]] | [H1 H2]]; auto.
      * intros [H | [[<- | H1] H2]]; auto.
    + intros x. rewrite I6, A6, A3, A2. split.
      * intros [[H | H] | [m [H1 H2]]]; [ now left | | ].
        -- right. exists a. tauto.
        -- right. exists m. tauto.
      * intros [H | [m [[<- | H1] H2]]]; [ tauto | tauto | ].
        right. exists m. tauto.
    + unfold second_degree in *. simpl. lia.
Qed.

End Turn.

(** *** The loop over the stack of cardholders *)

Lemma unvisited_weight_shrinks (adj adj' : list (string * list string))
  (x : string) (seen : list string) :
  unvisited_weight adj adj' (set_add x seen) <= unvisited_weight adj adj' seen.
Proof.
  unfold unvisited_weight. induction adj as [| [k v] r IH]; simpl; [ lia | ].
  rewrite Termination.mem_set_add.
  destruct (String.eqb k x), (mem k seen); simpl; lia.
Qed.

(** Visiting an entity takes the pushes it causes out of the weight. *)
Lemma unvisited_weight_set_add (adj adj' : list (string * list string))
  (x : string) (seen : list string) :
  mem x seen = false ->
  unvisited_weight adj adj' (set_add x seen) + second_degree adj' (get adj x)
  <= unvisited_weight adj adj' seen.
Proof.
  intros Hx. unfold unvisited_weight.
  induction adj as [| [k v] r IH]; simpl; [ reflexivity | ].
  rewrite Termination.mem_set_add. destruct (String.eqb x k) eqn:E.
  - apply String.eqb_eq in E. subst k. rewrite String.eqb_refl, Hx. simpl.
    pose proof (unvisited_weight_shrinks r adj' x seen) as Hs.
    unfold unvisited_weight in Hs. lia.
  - rewrite String.eqb_sym, E. simpl. destruct (mem k seen); lia.
Qed.

Lemma unvisited_weight_le (adj adj' : list (string * list string))
  (seen : list string) :
  unvisited_weight adj adj' seen <= total_second_degree adj adj'.
Proof.
  unfold unvisited_weight, total_second_degree.
  induction adj as [| [k v] r IH]; simpl; [ lia | ].
  destruct (mem k seen); lia.
Qed.

Section Loop.

Variable o : Order.
Variable c2m m2c : list (string * list string).

(** A turn lowers the number of turns that can follow. *)
Lemma visit_cardholder_potential (c : string) (s : state) :
  List.length (stack_cardholders (visit_cardholder o c2m m2c c s))
  + unvisited_weight c2m m2c
      (visited_cardholders (visit_cardholder o c2m m2c c s))
  <= List.length (stack_cardholders s)
     + unvisited_weight c2m m2c (visited_cardholders s).
Proof.
  unfold visit_cardholder.
  destruct (mem c (visited_cardholders s)) eqn:E; [ lia | ].
  match goal with
  | |- context [fold_left _ ?l ?s0] =>
      destruct (fold_add_merchant o m2c l s0)
        as [_ [F2 [_ [_ [_ [_ F7]]]]]]
  end.
  simpl in F2, F7. rewrite F2. rewrite second_degree_iter in F7.
  pose proof (unvisited_weight_set_add c2m m2c c _ E). lia.
Qed.

(** The loop over the stack ends within the turns the weight allows. *)
Lemma explore_cardholders_total (fuel : nat) (s : state) :
  List.length (stack_cardholders s)
  + unvisited_weight c2m m2c (visited_cardholders s) <= fuel ->
  exists s', explore_cardholders o c2m m2c fuel s = Some s'.
Proof.
  revert s. induction fuel as [| fuel IH]; intros s Hp.
  - destruct (stack_cardholders s) as [| c rest] eqn:Eq.
    + exists s. simpl. now rewrite Eq.
    + simpl in Hp. lia.
  - simpl. destruct (stack_cardholders s) as [| c rest] eqn:Eq;
      [ now exists s | ].
    apply IH.
    pose proof (visit_cardholder_potential c (with_stack_cardholders rest s))
      as Hs.
    simpl in Hp, Hs. lia.
Qed.

(** What every turn keeps holds when the loop is left, and the stack is
    empty then. *)
Lemma explore_cardholders_inv (P : state -> Prop) :
  (forall s c rest,
      stack_cardholders s = c :: rest -> P s ->
      P (visit_cardholder o c2m m2c c (with_stack_cardholders rest s))) ->
  forall fuel s s',
    explore_cardholders o c2m m2c fuel s = Some s' -> P s ->
    P s' /\ stack_cardholders s' = [].
Proof.
  intros Hstep fuel. induction fuel as [| fuel IH]; intros s s' H Hs;
    simpl in H.
  - destruct (stack_cardholders s) eqn:Eq; [ | discriminate ].
    inversion H; subst. now split.
  - destruct (stack_cardholders s) as [| c rest] eqn:Eq.
    + inversion H; subst. now split.
    + apply IH in H; [ assumption | ]. now apply Hstep.
Qed.

End Loop.

(** *** The search from a cardholder finds its component *)

Section Component.

Variable o : Order.
Variable c2m m2c : list (string * list string).
Variable vc0 vm0 : list string.
Variable cls0 : list cluster.
Variable start : string.

Hypothesis both : forall c m, In m (get c2m c) <-> In c (get m2c m).
Hypothesis closed_c : forall c m, In c vc0 -> In m (get c2m c) -> In m vm0.
Hypothesis closed_m : forall m c, In m vm0 -> In c (get m2c m) -> In c vc0.
Hypothesis fresh : ~ In start vc0.

Lemma visit_cardholder_keeps (s : state) (c : string) (rest : list string) :
  stack_cardholders s = c :: rest ->
  search_inv c2m m2c vc0 vm0 cls0 start s ->
  search_inv c2m m2c vc0 vm0 cls0 start
    (visit_cardholder o c2m m2c c (with_stack_cardholders rest s)).
Proof.
  intros Hq I. unfold visit_cardholder. simpl.
  destruct (mem c (visited_cardholders s)) eqn:E.
  - apply mem_In in E.
    constructor; simpl; try (now destruct I).
    + intros x Hx. apply (si_stack _ _ _ _ _ _ _ I). rewrite Hq. now right.
    + intros m x Hm Hx.
      destruct (si_back _ _ _ _ _ _ _ I m x Hm Hx) as [H | H];
        [ now left | ].
      rewrite Hq in H. destruct H as [<- | H]; [ now left | now right ].
    + destruct (si_start _ _ _ _ _ _ _ I) as [H | H]; [ now left | ].
      rewrite Hq in H. destruct H as [<- | H]; [ | now right ].
      apply (si_vc _ _ _ _ _ _ _ I) in E.
      destruct E as [E | E]; [ contradiction | now left ].
  - apply mem_false in E.
    match goal with
    | |- context [fold_left _ ?l ?s0] =>
        destruct (fold_add_merchant o m2c l s0)
          as [F1 [F2 [F3 [F4 [F5 [F6 _]]]]]]
    end.
    simpl in F1, F2, F3, F4, F5, F6.
    assert (Hc0 : ~ In c vc0).
    { intros H. apply E. apply (si_vc _ _ _ _ _ _ _ I). now left. }
    assert (Hc : connected c2m m2c C start C c).
    { apply (si_stack _ _ _ _ _ _ _ I). rewrite Hq. now left. }
    assert (Hnew : forall m, In m (get c2m c) -> ~ In m (visited_merchants s)).
    { intros m Hm Hv. rewrite (si_vm _ _ _ _ _ _ _ I) in Hv.
      apply Hc0. apply (closed_m m c Hv). now apply both. }
    constructor.
    + rewrite F1. apply (si_clusters _ _ _ _ _ _ _ I).
    + rewrite F3. apply (si_vm _ _ _ _ _ _ _ I).
    + intros x. rewrite F2, F4, !In_set_add.
      rewrite (si_vc _ _ _ _ _ _ _ I). tauto.
    + intros x. rewrite F4, In_set_add. intros [-> | H]; [ assumption | ].
      now apply (si_fresh_c _ _ _ _ _ _ _ I).
    + intros m. rewrite F5. intros [H | [H1 H2]].
      * now apply (si_fresh_m _ _ _ _ _ _ _ I).
      * rewrite <- (si_vm _ _ _ _ _ _ _ I). assumption.
    + intros x. rewrite F6. intros [H | [m [H1 [H2 [H3 H4]]]]].
      * apply (si_stack _ _ _ _ _ _ _ I). rewrite Hq. now right.
      * apply In_iter in H1.
        apply (connected_next c2m m2c C start M m x); [ | exact H3 ].
        apply (connected_next c2m m2c C start C c m); assumption.
    + intros x. rewrite F4, In_set_add. intros [-> | H]; [ assumption | ].
      now apply (si_conn _ _ _ _ _ _ _ I).
    + intros m. rewrite F5, F4. intros [H | [H1 H2]].
      * destruct (si_from _ _ _ _ _ _ _ I m H) as [c' [H1 H2]].
        exists c'. split; [ now apply set_add_keeps | assumption ].
      * apply In_iter in H1. exists c. split; [ | assumption ].
        apply In_set_add. now left.
    + intros c' m. rewrite F4, F5, In_set_add. intros [-> | H] Hm.
      * right. split; [ now apply In_iter | now apply Hnew ].
      * left. now apply (si_out _ _ _ _ _ _ _ I c' m).
    + intros m x. rewrite F5, F2, F6, In_set_add. intros [H | [H1 H2]] Hx.
      * destruct (si_back _ _ _ _ _ _ _ I m x H Hx) as [H' | H'];
          [ now left; right | ].
        rewrite Hq in H'. destruct H' as [<- | H']; [ left | right ]; auto.
      * destruct (in_dec string_dec x (set_add c (visited_cardholders s)))
          as [Hv | Hv].
        -- left. now apply In_set_add.
        -- right. right. exists m. tauto.
    + rewrite F4, F6, In_set_add.
      destruct (si_start _ _ _ _ _ _ _ I) as [H | H]; [ now left; right | ].
      rewrite Hq in H. destruct H as [<- | H]; [ left | right ]; auto.
Qed.

(** When the stack is empty, the cluster holds the cardholders of its
    merchants and the start. *)
Lemma search_done (s : state) :
  search_inv c2m m2c vc0 vm0 cls0 start s ->
  stack_cardholders s = [] ->
  In start (current_cluster_cardholders s)
  /\ forall m c, In m (current_cluster_merchants s) -> In c (get m2c m) ->
                 In c (current_cluster_cardholders s).
Proof.
  intros I Hq. split.
  - destruct (si_start _ _ _ _ _ _ _ I) as [H | H]; [ assumption | ].
    rewrite Hq in H. contradiction.
  - intros m c Hm Hc.
    destruct (si_back _ _ _ _ _ _ _ I m c Hm Hc) as [H | H];
      [ | rewrite Hq in H; contradiction ].
    apply (si_vc _ _ _ _ _ _ _ I) in H. destruct H as [H | H];
      [ | assumption ].
    exfalso. apply (si_fresh_m _ _ _ _ _ _ _ I m Hm).
    apply (closed_c c m H). now apply both.
Qed.

End Component.

(** *** The loop over the merchants of the cluster *)

Section Marking.

Variable o : Order.
Variable c2m m2c : list (string * list string).

Lemma with_visited_merchants_same (s : state) :
  with_visited_merchants (visited_merchants s) s = s.
Proof. now destruct s. Qed.

Lemma fold_pull_cardholder (cs : list string) (s : state) :
  (forall c, In c cs -> In c (visited_cardholders s)) ->
  fold_left pull_cardholder cs s = s.
Proof.
  induction cs as [| a r IH]; intros H; simpl; [ reflexivity | ].
  unfold pull_cardholder at 2.
  assert (Ha : mem a (visited_cardholders s) = true)
    by (apply mem_In, H; now left).
  rewrite Ha. simpl. apply IH. intros c Hc. apply H. now right.
Qed.

(** A merchant all of whose cardholders are visited is marked, and that is
    all. *)
Lemma mark_merchant_visited (s : state) (m : string) :
  (forall c, In c (get m2c m) -> In c (visited_cardholders s)) ->
  mark_merchant o m2c s m
  = with_visited_merchants (set_add m (visited_merchants s)) s.
Proof.
  intros H. unfold mark_merchant.
  destruct (mem m (visited_merchants s)) eqn:E.
  - apply mem_In in E. rewrite (set_add_present _ _ E).
    symmetry. apply with_visited_merchants_same.
  - apply fold_pull_cardholder. intros c Hc. simpl. apply H.
    now apply In_iter in Hc.
Qed.

Lemma fold_mark_merchant (ms : list string) (s : state) :
  (forall m c, In m ms -> In c (get m2c m) -> In c (visited_cardholders s)) ->
  fold_left (mark_merchant o m2c) ms s
  = with_visited_merchants (update (visited_merchants s) ms) s.
Proof.
  revert s. induction ms as [| a r IH]; intros s H; simpl.
  - symmetry. apply with_visited_merchants_same.
  - rewrite mark_merchant_visited
      by (intros c Hc; apply (H a c); [ now left | assumption ]).
    rewrite IH
      by (intros m c Hm Hc; simpl; apply (H m c); [ now right | assumption ]).
    reflexivity.
Qed.

Lemma In_final_merchants (s : state) (m : string) :
  In m (final_merchants_in_cluster o c2m s)
  <-> exists c, In c (current_cluster_cardholders s) /\ In m (get c2m c).
Proof.
  unfold final_merchants_in_cluster.
  assert (H : forall cs acc,
             In m (fold_left
                     (fun final c => update final (iter o (get c2m c)))
                     cs acc)
             <-> In m acc \/ exists c, In c cs /\ In m (get c2m c)).
  { induction cs as [| a r IH]; intros acc; simpl.
    - split; [ now left | intros [H | [c [[] _]]]; assumption ].
    - rewrite IH, In_update, In_iter. split.
      + intros [[H | H] | [c [H1 H2]]]; [ now left | | ].
        * right. exists a. auto.
        * right. exists c. auto.
      + intros [H | [c [[<- | H1] H2]]]; [ tauto | tauto | ].
        right. exists c. auto. }
  rewrite H. split.
  - intros [[] | [c [H1 H2]]]. exists c. split; [ | assumption ].
    now apply In_iter in H1.
  - intros [c [H1 H2]]. right. exists c. split; [ | assumption ].
    now apply In_iter.
Qed.

End Marking.

(** *** The loop over the cardholders *)

Section Pass.

Variable o : Order.
Variable c2m m2c : list (string * list string).

Hypothesis both : forall c m, In m (get c2m c) <-> In c (get m2c m).

(** The search from a cardholder that is not visited adds one cluster, the
    component of the cardholder. *)
Lemma from_cardholder_fresh (fuel : nat) (s s' : state) (start : string) :
  pass_inv c2m m2c s ->
  In start (keys c2m) ->
  ~ In start (visited_cardholders s) ->
  from_cardholder o c2m m2c fuel s start = Some s' ->
  pass_inv c2m m2c s'
  /\ In start (visited_cardholders s')
  /\ (forall x, In x (visited_cardholders s) ->
                In x (visited_cardholders s')).
Proof.
  intros P Hkey Hs H. unfold from_cardholder in H.
  assert (Hmem : mem start (visited_cardholders s) = false)
    by now apply mem_false.
  rewrite Hmem in H.
  set (s0 := with_stack_cardholders [start]
               (with_cluster_merchants []
                  (with_cluster_cardholders [] s))) in H.
  destruct (explore_cardholders o c2m m2c fuel s0) as [s1 |] eqn:Ex;
    [ | discriminate ].
  assert (cc : forall c m, In c (visited_cardholders s) ->
                 In m (get c2m c) -> In m (visited_merchants s))
    by (intros c m; apply (pi_closed _ _ _ P C)).
  assert (cm : forall m c, In m (visited_merchants s) ->
                 In c (get m2c m) -> In c (visited_cardholders s))
    by (intros m c; apply (pi_closed _ _ _ P M)).
  set (J := search_inv c2m m2c (visited_cardholders s) (visited_merchants s)
              (clusters s) start).
  assert (I0 : J s0).
  { constructor; simpl; try tauto; try reflexivity.
    intros x [<- | []]. constructor. }
  assert (Hstep : forall s2 c rest,
             stack_cardholders s2 = c :: rest -> J s2 ->
             J (visit_cardholder o c2m m2c c (with_stack_cardholders rest s2))).
  { intros s2 c rest. apply visit_cardholder_keeps; assumption. }
  destruct (explore_cardholders_inv o c2m m2c J Hstep fuel s0 s1 Ex I0)
    as [I1 Hq].
  assert (Hdone : In start (current_cluster_cardholders s1)
                  /\ forall m c, In m (current_cluster_merchants s1) ->
                                 In c (get m2c m) ->
                                 In c (current_cluster_cardholders s1)).
  { apply (search_done c2m m2c (visited_cardholders s) (visited_merchants s)
             (clusters s) start); assumption. }
  destruct Hdone as [Hstart Hback].
  assert (Hmark : mark_merchants o m2c s1
                  = with_stack_merchants []
                      (with_visited_merchants
                         (update (visited_merchants s1)
                            (rev (iter o (current_cluster_merchants s1))))
                         s1)).
  { unfold mark_merchants. rewrite fold_mark_merchant; [ reflexivity | ].
    intros m c Hm Hc. apply in_rev in Hm. apply In_iter in Hm.
    apply (si_vc _ _ _ _ _ _ _ I1). right. now apply (Hback m c). }
  cbv zeta in H. rewrite Hmark in H.
  assert (Hne : negb (is_empty (current_cluster_cardholders s1)) = true).
  { destruct (current_cluster_cardholders s1);
      [ contradiction | reflexivity ]. }
  cbn [with_stack_merchants with_visited_merchants
       current_cluster_cardholders current_cluster_merchants] in H.
  rewrite Hne in H. cbn [orb] in H.
  match type of H with
  | Some (append_cluster ?cl _) = _ => set (new := cl) in H
  end.
  assert (HnC : forall x, In x (cardholders new)
                          <-> In x (current_cluster_cardholders s1)).
  { intros x. unfold new. cbn [cardholders].
    now rewrite Growth.In_sorted_list, In_iter. }
  assert (HnM : forall x, In x (merchants new)
                          <-> In x (current_cluster_merchants s1)).
  { intros x. unfold new. cbn [merchants].
    rewrite Growth.In_sorted_list, In_iter, In_final_merchants.
    cbn [with_stack_merchants with_visited_merchants
         current_cluster_cardholders].
    split.
    - intros [c [H1 H2]]. now apply (si_out _ _ _ _ _ _ _ I1 c x).
    - apply (si_from _ _ _ _ _ _ _ I1). }
  set (cur := fun ty : entity_type =>
                match ty with
                | C => current_cluster_cardholders s1
                | M => current_cluster_merchants s1
                end).
  assert (Hside : forall ty x, In x (same_side ty new) <-> In x (cur ty)).
  { intros [|] x; [ apply HnC | apply HnM ]. }
  assert (Hconn : forall ty y, connected c2m m2c C start ty y -> In y (cur ty)).
  { intros ty y Hy. induction Hy as [| ty' u v Hu IH Hv]; [ exact Hstart | ].
    destruct ty'; simpl in *.
    - now apply (si_out _ _ _ _ _ _ _ I1 u v).
    - now apply (Hback u v). }
  assert (Hconn' : forall ty y,
             In y (cur ty) -> connected c2m m2c C start ty y).
  { intros [|] y Hy; simpl in Hy.
    - now apply (si_conn _ _ _ _ _ _ _ I1).
    - destruct (si_from _ _ _ _ _ _ _ I1 y Hy) as [c [H1 H2]].
      apply (connected_next c2m m2c C start C c y); [ | exact H2 ].
      now apply (si_conn _ _ _ _ _ _ _ I1). }
  injection H as Hs'.
  assert (Hvis : forall ty x,
             In x (visited ty s') <-> In x (visited ty s) \/ In x (cur ty)).
  { intros [|] x; rewrite <- Hs'; simpl.
    - apply (si_vc _ _ _ _ _ _ _ I1).
    - rewrite In_update, <- in_rev, In_iter.
      now rewrite (si_vm _ _ _ _ _ _ _ I1). }
  assert (Hfresh : forall ty x, In x (cur ty) -> ~ In x (visited ty s)).
  { intros [|] x Hx; simpl in *.
    - now apply (si_fresh_c _ _ _ _ _ _ _ I1).
    - now apply (si_fresh_m _ _ _ _ _ _ _ I1). }
  assert (Hcls : clusters s' = clusters s ++ [new]).
  { rewrite <- Hs'. simpl. now rewrite (si_clusters _ _ _ _ _ _ _ I1). }
  split; [ | split ].
  - constructor.
    + intros ty e n He Hn. apply Hvis in He. apply Hvis.
      destruct He as [He | He].
      * left. now apply (pi_closed _ _ _ P ty e n).
      * right. destruct ty; simpl in *.
        -- now apply (si_out _ _ _ _ _ _ _ I1 e n).
        -- now apply (Hback e n).
    + intros cl. rewrite Hcls, in_app_iff. intros [Hcl | [<- | []]].
      * now apply (pi_component _ _ _ P).
      * exists start. split; [ assumption | ].
        split; [ now apply HnC | ].
        intros ty y. rewrite Hside. split; [ apply Hconn' | apply Hconn ].
    + intros ty x. rewrite Hvis, (pi_visited _ _ _ P), Hcls. split.
      * intros [[cl [H1 H2]] | Hx].
        -- exists cl. split; [ apply in_app_iff; now left | assumption ].
        -- exists new. split; [ apply in_app_iff; right; now left | ].
           now apply Hside.
      * intros [cl [H1 H2]]. apply in_app_iff in H1.
        destruct H1 as [H1 | [<- | []]].
        -- left. now exists cl.
        -- right. now apply Hside.
    + intros i j cl cl' ty x Hi Hj Hx Hx'. rewrite Hcls in Hi, Hj.
      apply nth_error_snoc in Hi, Hj.
      assert (Hold : forall k cl0, nth_error (clusters s) k = Some cl0 ->
                       In x (same_side ty cl0) -> In x (visited ty s)).
      { intros k cl0 Hk Hin. apply (pi_visited _ _ _ P). exists cl0.
        split; [ now apply nth_error_In in Hk | assumption ]. }
      destruct Hi as [[_ Hi] | [Hi ->]], Hj as [[_ Hj] | [Hj ->]].
      * now apply (pi_apart _ _ _ P i j cl cl' ty x).
      * exfalso. apply (Hfresh ty x); [ now apply Hside | ].
        now apply (Hold i cl).
      * exfalso. apply (Hfresh ty x); [ now apply Hside | ].
        now apply (Hold j cl').
      * congruence.
  - apply (Hvis C). right. exact Hstart.
  - intros x Hx. apply (Hvis C). now left.
Qed.

End Pass.

Section Passes.

Variable o : Order.
Variable c2m m2c : list (string * list string).

Hypothesis both : forall c m, In m (get c2m c) <-> In c (get m2c m).

(** The loop over the cardholders keeps the clusters the components of
    their seeds, and visits every cardholder of its list. *)
Lemma cardholder_loop_inv (fuel : nat) (l : list string) (s s' : state) :
  (forall x, In x l -> In x (keys c2m)) ->
  for_each (from_cardholder o c2m m2c fuel) l s = Some s' ->
  pass_inv c2m m2c s ->
  pass_inv c2m m2c s'
  /\ (forall x, In x (visited_cardholders s) ->
                In x (visited_cardholders s'))
  /\ (forall x, In x l -> In x (visited_cardholders s')).
Proof.
  revert s. induction l as [| a r IH]; intros s Hl H P.
  - unfold for_each in H. simpl in H. injection H as <-.
    split; [ assumption | split; [ auto | intros x [] ] ].
  - rewrite for_each_cons in H.
    destruct (from_cardholder o c2m m2c fuel s a) as [s1 |] eqn:E;
      [ | discriminate ].
    assert (Hr : forall x, In x r -> In x (keys c2m))
      by (intros x Hx; apply Hl; now right).
    destruct (in_dec string_dec a (visited_cardholders s)) as [Ha | Ha].
    + unfold from_cardholder in E.
      rewrite (proj2 (mem_In _ _) Ha) in E. injection E as <-.
      destruct (IH s Hr H P) as [P' [Hmono Hall]].
      split; [ assumption | split; [ assumption | ] ].
      intros x [<- | Hx]; auto.
    + destruct (from_cardholder_fresh o c2m m2c both fuel s s1 a P
                  (Hl a (or_introl eq_refl)) Ha E) as [P1 [Ha1 Hm1]].
      destruct (IH s1 Hr H P1) as [P' [Hmono Hall]].
      split; [ assumption | split; [ auto | ] ].
      intros x [<- | Hx]; auto.
Qed.

(** A search from a cardholder ends within the fuel of the source. *)
Lemma from_cardholder_total (fuel : nat) (s : state) (start : string) :
  1 + total_second_degree c2m m2c <= fuel ->
  exists s', from_cardholder o c2m m2c fuel s start = Some s'.
Proof.
  intros Hfuel. unfold from_cardholder.
  destruct (mem start (visited_cardholders s)); [ now exists s | ].
  match goal with
  | |- context [explore_cardholders _ _ _ _ ?s0] =>
      destruct (explore_cardholders_total o c2m m2c fuel s0) as [s1 E]
  end.
  { simpl. pose proof (unvisited_weight_le c2m m2c (visited_cardholders s)).
    lia. }
  rewrite E. cbv zeta.
  destruct (negb _ || negb _); eauto.
Qed.

Lemma cardholder_loop_total (fuel : nat) (l : list string) (s : state) :
  1 + total_second_degree c2m m2c <= fuel ->
  exists s', for_each (from_cardholder o c2m m2c fuel) l s = Some s'.
Proof.
  intros Hfuel. revert s. induction l as [| a r IH]; intros s.
  - now exists s.
  - rewrite for_each_cons.
    destruct (from_cardholder_total fuel s a Hfuel) as [s1 ->]. apply IH.
Qed.

(** The loop over the merchants passes over the merchants that are
    visited. *)
Lemma merchant_loop_skip (fuel : nat) (l : list string) (s : state) :
  (forall m, In m l -> In m (visited_merchants s)) ->
  for_each (from_merchant o c2m m2c fuel) l s = Some s.
Proof.
  induction l as [| a r IH]; intros H; [ reflexivity | ].
  rewrite for_each_cons. unfold from_merchant.
  rewrite (proj2 (mem_In _ _) (H a (or_introl eq_refl))). simpl.
  apply IH. intros m Hm. apply H. now right.
Qed.

End Passes.

Lemma pass_inv_initial (c2m m2c : list (string * list string)) :
  pass_inv c2m m2c initial_state.
Proof.
  constructor; simpl.
  - intros [|] e n [].
  - intros cl [].
  - intros [|] x; simpl; split; [ intros [] | intros [cl [[] _]]
                                | intros [] | intros [cl [[] _]] ].
  - intros i j cl cl' ty x H. destruct i; discriminate H.
Qed.

(** An entity with a neighbour is a key of the dictionary. *)
Lemma key_of_neighbour (d : list (string * list string)) (k x : string) :
  In x (get d k) -> In k (keys d).
Proof.
  intros H. destruct (in_dec string_dec k (keys d)) as [Hk | Hk];
    [ assumption | ].
  rewrite (get_not_key d k Hk) in H. contradiction.
Qed.

Section Run.

Variable o : Order.
Variable txs : list (string * string).

Local Abbreviation c2m := (fst (create_interaction_graphs txs)).
Local Abbreviation m2c := (snd (create_interaction_graphs txs)).

Lemma index_both (c m : string) : In m (get c2m c) <-> In c (get m2c m).
Proof.
  destruct (Part_one_facts.graphs_spec txs c m) as [H1 H2].
  rewrite H1, H2. tauto.
Qed.

Lemma index_both_ways (ty : entity_type) (u v : string) :
  In v (get (adjacency c2m m2c ty) u) ->
  In u (get (adjacency c2m m2c (opposite ty)) v).
Proof. destruct ty; simpl; apply index_both. Qed.

(** The run of [find_clusters_simple]: both loops end, the second leaves
    the state of the first as it is, and the state has the properties of
    [pass_inv] with every entity visited. *)
Lemma find_clusters_simple_run :
  exists s,
    cardholder_pass o c2m m2c initial_state = Some s
    /\ merchant_pass o c2m m2c s = Some s
    /\ find_clusters_simple o txs = Some (clusters s)
    /\ pass_inv c2m m2c s
    /\ (forall ty e, entity c2m m2c ty e -> In e (visited ty s)).
Proof.
  destruct (cardholder_loop_total o c2m m2c
              (1 + total_second_degree c2m m2c)
              (iter o (keys c2m)) initial_state (le_n _)) as [s Hs].
  destruct (cardholder_loop_inv o c2m m2c index_both _ _ _ _
              (fun x Hx => proj1 (In_iter o x _) Hx) Hs
              (pass_inv_initial c2m m2c)) as [P [_ Hall]].
  assert (Hvis : forall ty e, entity c2m m2c ty e -> In e (visited ty s)).
  { intros [|] e He; unfold entity in He; simpl in *.
    - apply Hall. now apply In_iter.
    - apply (proj2 (Core_facts.keys_graphs txs e e)) in He.
      destruct He as [c Hc].
      apply (pi_closed _ _ _ P C c e).
      + apply Hall, In_iter.
        apply (proj1 (Core_facts.keys_graphs txs c c)). now exists e.
      + simpl. now apply (Part_one_facts.graphs_spec txs c e). }
  assert (Hm : merchant_pass o c2m m2c s = Some s).
  { apply merchant_loop_skip. intros m Hm. apply In_iter in Hm.
    now apply (Hvis M). }
  exists s. split; [ assumption | split; [ assumption | ] ].
  split; [ | split; assumption ].
  unfold find_clusters_simple. fold cardholder_pass.
  unfold cardholder_pass in Hs. unfold cardholder_pass. rewrite Hs.
  now rewrite Hm.
Qed.

End Run.

(** An entity connected to an entity of the index is an entity of the
    index, of the side the chain ends on. *)
Lemma connected_entity (c2m m2c : list (string * list string))
  (ta tb : entity_type) (x y : string) :
  (forall ty u v, In v (get (adjacency c2m m2c ty) u) ->
                  In u (get (adjacency c2m m2c (opposite ty)) v)) ->
  entity c2m m2c ta x -> connected c2m m2c ta x tb y ->
  entity c2m m2c tb y.
Proof.
  intros both Hx H. destruct H as [| ty' u v _ Huv]; [ assumption | ].
  apply both in Huv. unfold entity. now apply key_of_neighbour in Huv.
Qed.

(** The members of a cluster of [find_clusters_simple] are the entities
    connected to any one of them. *)
Lemma component_of_member (c2m m2c : list (string * list string))
  (s : state) (cl : cluster) (tx ty : entity_type) (x y : string) :
  (forall ty u v, In v (get (adjacency c2m m2c ty) u) ->
                  In u (get (adjacency c2m m2c (opposite ty)) v)) ->
  pass_inv c2m m2c s -> In cl (clusters s) -> In x (same_side tx cl) ->
  (In y (same_side ty cl) <-> connected c2m m2c tx x ty y).
Proof.
  intros both P Hcl Hx.
  destruct (pi_component _ _ _ P cl Hcl) as [seed [_ [_ Hseed]]].
  apply Hseed in Hx. rewrite Hseed. split; intros H.
  - apply (connected_trans c2m m2c tx C ty x seed y); [ | assumption ].
    now apply connected_sym.
  - now apply (connected_trans c2m m2c C tx ty seed x y).
Qed.


(** X14: the clusters of [find_clusters_simple] are a partition of the
    entities of the input: the members of the clusters are the cardholders
    and the merchants of the interactions, no entity is a member of two
    clusters, and the two ends of an interaction are members of the same
    cluster. *)
Theorem simple_clusters_partition (o : Order) (txs : list (string * string)) :
  exists cls,
    find_clusters_simple o txs = Some cls
    /\ (forall c, (exists m, In (c, m) txs)
                  <-> exists cl, In cl cls /\ In c (cardholders cl))
    /\ (forall m, (exists c, In (c, m) txs)
                  <-> exists cl, In cl cls /\ In m (merchants cl))
    /\ (forall i j cl cl' ty e,
          nth_error cls i = Some cl -> nth_error cls j = Some cl' ->
          In e (same_side ty cl) -> In e (same_side ty cl') -> i = j)
    /\ (forall c m, In (c, m) txs ->
          exists cl, In cl cls /\ In c (cardholders cl)
                     /\ In m (merchants cl)).
Proof.
  destruct (find_clusters_simple_run o txs) as [s [_ [_ [Hf [P Hvis]]]]].
  exists (clusters s). split; [ assumption | ].
  assert (Hent : forall ty e,
             entity (fst (create_interaction_graphs txs))
               (snd (create_interaction_graphs txs)) ty e
             <-> exists cl, In cl (clusters s) /\ In e (same_side ty cl)).
  { intros ty e. split.
    - intros He. apply (pi_visited _ _ _ P). now apply Hvis.
    - intros [cl [Hcl He]].
      destruct (pi_component _ _ _ P cl Hcl) as [seed [Hkey [_ Hseed]]].
      apply Hseed in He.
      apply (connected_entity _ _ C ty seed e (index_both_ways txs));
        assumption. }
  split; [ | split; [ | split ] ].
  - intros c. rewrite <- (Hent C c). unfold entity. simpl.
    symmetry. apply (proj1 (Core_facts.keys_graphs txs c c)).
  - intros m. rewrite <- (Hent M m). unfold entity. simpl.
    symmetry. apply (proj2 (Core_facts.keys_graphs txs m m)).
  - apply (pi_apart _ _ _ P).
  - intros c m Hcm.
    assert (Hc : entity (fst (create_interaction_graphs txs))
                   (snd (create_interaction_graphs txs)) C c).
    { unfold entity. simpl.
      apply (proj1 (Core_facts.keys_graphs txs c c)). now exists m. }
    apply Hent in Hc. destruct Hc as [cl [Hcl Hc]].
    exists cl. split; [ assumption | split; [ assumption | ] ].
    apply (component_of_member _ _ s cl C M c m (index_both_ways txs) P Hcl Hc).
    apply (connected_next _ _ C c C c m); [ constructor | ].
    simpl. now apply (Part_one_facts.graphs_spec txs c m).
Qed.

(** X15: the second loop of [find_clusters_simple], over the merchants,
    adds no cluster and changes nothing, for every input: the first loop
    ends, and it has visited every merchant, since a merchant of the index
    has a cardholder. *)
Theorem merchant_loop_adds_nothing (o : Order)
  (txs : list (string * string)) :
  exists s,
    cardholder_pass o (fst (create_interaction_graphs txs))
      (snd (create_interaction_graphs txs)) initial_state = Some s
    /\ merchant_pass o (fst (create_interaction_graphs txs))
         (snd (create_interaction_graphs txs)) s = Some s
    /\ find_clusters_simple o txs = Some (clusters s).
Proof.
  destruct (find_clusters_simple_run o txs) as [s [H1 [H2 [H3 _]]]].
  exists s. auto.
Qed.

End Search_facts.

(** ** The duplication engine of mode (a) *)

Module Engine_a_facts.

Import Part_two.



End Engine_a_facts.

(** ** The two in-memory algorithms side by side *)

Module Agreement.

Import Part_one.

Lemma Forall2_In_r {A B : Type} (R : A -> B -> Prop) (l : list A)
  (l' : list B) (y : B) :
  Forall2 R l l' -> In y l' -> exists x, In x l /\ R x y.
Proof.
  intros H. induction H as [| a b r r' Hab Hr IH]; intros Hy;
    [ contradiction | ].
  destruct Hy as [<- | Hy].
  - exists a. split; [ now left | assumption ].
  - destruct (IH Hy) as [x [H1 H2]]. exists x. split; [ now right | assumption ].
Qed.

Lemma member_side (x : string) (cl : cluster) :
  member x cl <-> exists ty, In x (same_side ty cl).
Proof.
  unfold member. split.
  - intros [H | H]; [ now exists C | now exists M ].
  - intros [[|] H]; [ now left | now right ].
Qed.

Lemma member_le (x : string) (cl cl' : cluster) :
  cluster_le cl cl' -> member x cl -> member x cl'.
Proof.
  intros [H1 H2] [H | H]; [ left; now apply H2 | right; now apply H1 ].
Qed.

(** The core-cluster loop of mode (a) appends no empty cluster. *)
Lemma core_loop_inhabited (o : Order) (c2m m2c : list (string * list string))
  (bfs_fuel : nat) (start : list string) (fuel : nat)
  (st st' : Part_two.core_state) :
  Part_two.core_loop o c2m m2c fuel bfs_fuel start st = Some st' ->
  (forall cl, In cl (Part_two.clusters st) -> exists x, member x cl) ->
  forall cl, In cl (Part_two.clusters st') -> exists x, member x cl.
Proof.
  apply (Core_general.core_loop_keeps o c2m m2c
           (fun st => forall cl, In cl (Part_two.clusters st) ->
                                 exists x, member x cl)).
  intros st0 s b HP _ _ cl Hcl. unfold core_next in Hcl. simpl in Hcl.
  destruct (Part_two.current_cluster_merchants b) as [| m rm] eqn:Em;
    [ destruct (Part_two.current_cluster_cardholders b) as [| c rc] eqn:Ec | ];
    simpl in Hcl; [ now apply HP | | ];
    apply in_app_iff in Hcl; destruct Hcl as [Hcl | [<- | []]];
    try (now apply HP).
  - exists c. left. now left.
  - exists m. right. now left.
Qed.

(** X16: mode (a) returns no empty cluster, for every input and every
    threshold: a core cluster is appended only when the search has put an
    entity into it, and the duplication phase and the sorting keep the
    members. *)
Theorem clusters_not_empty (o : Order) (t : Q) (txs : list (string * string)) :
  exists fc,
    Part_two.find_clusters_with_duplication o t txs = Some fc
    /\ forall cl, In cl fc -> exists x, member x cl.
Proof.
  destruct (Termination.core_clusters_total o txs) as [st Hst].
  unfold Part_two.find_clusters_with_duplication. rewrite Hst.
  eexists. split; [ reflexivity | ].
  intros cl Hcl. apply in_map_iff in Hcl. destruct Hcl as [d [<- Hd]].
  destruct (Forall2_In_r _ _ _ _
              (Growth.duplication_phase_le o t _ _ (Part_two.clusters st)) Hd)
    as [c0 [Hc0 Hle]].
  unfold Part_two.core_clusters in Hst.
  destruct (core_loop_inhabited o _ _ _ _ _ _ _ Hst
              (fun cl (H : In cl []) => match H with end) c0 Hc0) as [x Hx].
  exists x. apply Core_general.member_sorted. now apply (member_le x c0 d).
Qed.

(** *** Chains with and without sides *)

Section Chains.

Variable c2m m2c : list (string * list string).

Lemma connected_reach (tx ty : entity_type) (x y : string) :
  connected c2m m2c tx x ty y -> reach c2m m2c x y.
Proof.
  intros H. induction H as [| ty' u v Hu IH Hv]; [ constructor | ].
  apply (reach_next c2m m2c x u v IH).
  destruct ty'; [ now left | now right ].
Qed.

Hypothesis G : graph_ok c2m m2c.

Lemma graph_both_ways (ty : entity_type) (u v : string) :
  In v (get (adjacency c2m m2c ty) u) ->
  In u (get (adjacency c2m m2c (opposite ty)) v).
Proof. intros H. now destruct (g_adj _ _ G ty u v H) as [_ [_ H']]. Qed.

Lemma reach_connected (tx : entity_type) (x y : string) :
  entity c2m m2c tx x -> reach c2m m2c x y ->
  exists ty, connected c2m m2c tx x ty y.
Proof.
  intros Hx H. induction H as [| u v Hu IH Huv]; [ exists tx; constructor | ].
  destruct IH as [tu Hc].
  pose proof (Search_facts.connected_entity c2m m2c tx tu x u
                graph_both_ways Hx Hc) as Heu.
  destruct Huv as [Hv | Hv].
  - destruct (g_adj _ _ G C u v Hv) as [He _].
    pose proof (Core_facts.entity_side c2m m2c G _ _ _ Heu He). subst tu.
    exists (opposite C). now apply (connected_next c2m m2c tx x C u v).
  - destruct (g_adj _ _ G M u v Hv) as [He _].
    pose proof (Core_facts.entity_side c2m m2c G _ _ _ Heu He). subst tu.
    exists (opposite M). now apply (connected_next c2m m2c tx x M u v).
Qed.

End Chains.

(** With ids that follow the convention, the members of a core cluster of
    mode (a), side by side, are the entities connected to any one of
    them. *)
Lemma core_components_sided (o : Order) (txs : list (string * string))
  (st : Part_two.core_state) :
  ids_ok txs ->
  Part_two.core_clusters o txs = Some st ->
  settled (fst (create_interaction_graphs txs))
    (snd (create_interaction_graphs txs))
    (Part_two.clusters st) (Part_two.core_ids st) ->
  forall cl0 tx x ty y,
    In cl0 (Part_two.clusters st) -> In x (same_side tx cl0) ->
    (In y (same_side ty cl0)
     <-> connected (fst (create_interaction_graphs txs))
           (snd (create_interaction_graphs txs)) tx x ty y).
Proof.
  intros ids Hst S cl0 tx x ty y Hcl0 Hx0.
  pose proof (Core_facts.graph_of_ids txs ids) as G.
  set (c2m := fst (create_interaction_graphs txs)) in *.
  set (m2c := snd (create_interaction_graphs txs)) in *.
  destruct (In_nth_error _ _ Hcl0) as [j Hj].
  assert (Hex : entity c2m m2c tx x)
    by apply (s_member _ _ _ _ S j cl0 tx x Hj Hx0).
  assert (Hmx : member x cl0) by (apply member_side; now exists tx).
  split.
  - intros Hy.
    assert (Hr : reach c2m m2c x y).
    { apply (Core_general.core_components o txs st ids Hst S
               cl0 x y Hcl0 Hmx).
      apply member_side. now exists ty. }
    destruct (reach_connected c2m m2c G tx x y Hex Hr) as [ty' Hc].
    assert (E : ty' = ty).
    { apply (Core_facts.entity_side c2m m2c G _ _ y).
      - apply (Search_facts.connected_entity c2m m2c tx ty' x y
                 (graph_both_ways c2m m2c G) Hex Hc).
      - apply (s_member _ _ _ _ S j cl0 ty y Hj Hy). }
    now subst ty'.
  - intros Hc.
    assert (Hm : member y cl0).
    { apply (Core_general.core_components o txs st ids Hst S
               cl0 x y Hcl0 Hmx).
      now apply (connected_reach c2m m2c tx ty). }
    apply member_side in Hm. destruct Hm as [ty' Hy].
    assert (E : ty' = ty).
    { apply (Core_facts.entity_side c2m m2c G _ _ y).
      - apply (s_member _ _ _ _ S j cl0 ty' y Hj Hy).
      - apply (Search_facts.connected_entity c2m m2c tx ty x y
                 (graph_both_ways c2m m2c G) Hex Hc). }
    now subst ty'.
Qed.

End Agreement.

(** ** Cluster lists up to the order of the clusters *)

Module Canonical.

Import Part_one.

(** *** The order of [sorted] on ids *)

Lemma ltb_irrefl (a : string) : String.ltb a a = false.
Proof.
  unfold String.ltb. pose proof (String.compare_antisym a a) as H.
  destruct (String.compare a a); try reflexivity. discriminate H.
Qed.

Lemma ltb_trans (a b c : string) :
  String.ltb a b = true -> String.ltb b c = true -> String.ltb a c = true.
Proof.
  unfold String.ltb. intros H1 H2.
  destruct (String.compare a b) eqn:E1; try discriminate.
  destruct (String.compare b c) eqn:E2; try discriminate.
  apply OrderedTypeEx.String_as_OT.cmp_lt in E1, E2.
  pose proof (OrderedTypeEx.String_as_OT.lt_trans _ _ _ E1 E2) as H.
  apply OrderedTypeEx.String_as_OT.cmp_lt in H.
  unfold OrderedTypeEx.String_as_OT.cmp in H. now rewrite H.
Qed.

Lemma ltb_total (a b : string) :
  String.ltb a b = true \/ a = b \/ String.ltb b a = true.
Proof.
  unfold String.ltb. pose proof (String.compare_antisym b a) as H.
  destruct (String.compare a b) eqn:E.
  - right. left. now apply String.compare_eq_iff.
  - now left.
  - right. right. rewrite H. reflexivity.
Qed.

(** *** [sorted(list(s))] of a set *)

Lemma insert_str_ascending (x : string) (l : list string) :
  ascending l -> ~ In x l -> ascending (insert_str x l).
Proof.
  unfold ascending. induction l as [| y r IH]; intros H Hx; simpl.
  - constructor; constructor.
  - inversion H as [| ? ? Hr Hy]; subst.
    destruct (String.ltb y x) eqn:E.
    + constructor.
      * apply IH; [ assumption | ]. intros Hin. apply Hx. now right.
      * apply Forall_forall. intros z Hz. apply Growth.In_insert_str in Hz.
        destruct Hz as [-> | Hz]; [ assumption | ].
        now apply (proj1 (Forall_forall _ _) Hy z).
    + assert (Hxy : String.ltb x y = true).
      { destruct (ltb_total x y) as [H1 | [H1 | H1]]; [ assumption | | ].
        - exfalso. apply Hx. now left.
        - congruence. }
      constructor; [ assumption | ].
      constructor; [ assumption | ].
      apply Forall_forall. intros z Hz.
      apply (ltb_trans x y z Hxy).
      now apply (proj1 (Forall_forall _ _) Hy z).
Qed.

(** Sorting a set gives an ascending list. *)
Lemma sorted_list_ascending (l : list string) :
  NoDup l -> ascending (sorted_list l).
Proof.
  induction l as [| a r IH]; intros H; simpl.
  - constructor.
  - inversion H as [| ? ? Ha Hr]; subst.
    apply insert_str_ascending; [ now apply IH | ].
    now rewrite Growth.In_sorted_list.
Qed.

(** There is one ascending list of the members of a set. *)
Lemma ascending_unique (l l' : list string) :
  ascending l -> ascending l' -> (forall x, In x l <-> In x l') -> l = l'.
Proof.
  unfold ascending. revert l'. induction l as [| a r IH]; intros l' H H' Hsame.
  - destruct l' as [| b r']; [ reflexivity | ].
    exfalso. apply (Hsame b). now left.
  - destruct l' as [| b r']; [ exfalso; apply (Hsame a); now left | ].
    inversion H as [| ? ? Hr Ha]; subst.
    inversion H' as [| ? ? Hr' Hb]; subst.
    rewrite Forall_forall in Ha, Hb.
    assert (E : a = b).
    { destruct (proj1 (Hsame a) (or_introl eq_refl)) as [E | Hin];
        [ now symmetry | ].
      destruct (proj2 (Hsame b) (or_introl eq_refl)) as [E | Hin'];
        [ assumption | ].
      pose proof (ltb_trans a b a (Ha b Hin') (Hb a Hin)) as Hc.
      rewrite ltb_irrefl in Hc. discriminate Hc. }
    subst b. f_equal. apply IH; [ assumption | assumption | ].
    intros x. split; intros Hx.
    + destruct (proj1 (Hsame x) (or_intror Hx)) as [E | Hin];
        [ | assumption ].
      subst x. pose proof (Ha a Hx) as Hc. rewrite ltb_irrefl in Hc.
      discriminate Hc.
    + destruct (proj2 (Hsame x) (or_intror Hx)) as [E | Hin];
        [ | assumption ].
      subst x. pose proof (Hb a Hx) as Hc. rewrite ltb_irrefl in Hc.
      discriminate Hc.
Qed.

Lemma NoDup_iter (o : Order) (l : list string) : NoDup l -> NoDup (iter o l).
Proof.
  apply Permutation_NoDup, Permutation_sym, iter_perm.
Qed.

Lemma sorted_cluster_ascending (cl : cluster) (ty : entity_type) :
  NoDup (cardholders cl) -> NoDup (merchants cl) ->
  ascending (same_side ty (sorted_cluster cl)).
Proof.
  intros H1 H2. destruct ty; simpl; now apply sorted_list_ascending.
Qed.

(** Two clusters with ascending member lists and the same members are the
    same cluster. *)
Lemma cluster_unique (cl cl' : cluster) :
  (forall ty, ascending (same_side ty cl)) ->
  (forall ty, ascending (same_side ty cl')) ->
  (forall ty x, In x (same_side ty cl) <-> In x (same_side ty cl')) ->
  cl = cl'.
Proof.
  intros H H' Hsame. destruct cl as [m c], cl' as [m' c'].
  f_equal.
  - apply ascending_unique; [ apply (H M) | apply (H' M) | apply (Hsame M) ].
  - apply ascending_unique; [ apply (H C) | apply (H' C) | apply (Hsame C) ].
Qed.

(** *** One list of components, up to its order *)

Lemma components_included (c2m m2c : list (string * list string))
  (cls cls' : list cluster) :
  components_of c2m m2c cls -> components_of c2m m2c cls' ->
  forall cl, In cl cls -> In cl cls'.
Proof.
  intros K K' cl Hcl.
  destruct (co_inhabited _ _ _ K cl Hcl) as [ty [e He]].
  pose proof (co_member _ _ _ K cl ty e Hcl He) as Hent.
  destruct (co_cover _ _ _ K' ty e Hent) as [cl' [Hcl' He']].
  assert (E : cl = cl').
  { apply cluster_unique.
    - intros ty0. now apply (co_ascending _ _ _ K).
    - intros ty0. now apply (co_ascending _ _ _ K').
    - intros ty0 x.
      rewrite (co_component _ _ _ K cl ty e ty0 x Hcl He).
      now rewrite (co_component _ _ _ K' cl' ty e ty0 x Hcl' He'). }
  now subst cl'.
Qed.

Lemma components_unique (c2m m2c : list (string * list string))
  (cls cls' : list cluster) :
  components_of c2m m2c cls -> components_of c2m m2c cls' ->
  Permutation cls cls'.
Proof.
  intros K K'. apply NoDup_Permutation.
  - apply (co_once _ _ _ K).
  - apply (co_once _ _ _ K').
  - intros cl. split;
      [ now apply (components_included c2m m2c cls cls')
      | now apply (components_included c2m m2c cls' cls) ].
Qed.

(** *** The clusters of [find_clusters_simple] *)

Lemma for_each_inv {A S : Type} (body : S -> A -> option S) (P : S -> Prop) :
  (forall s x s', P s -> body s x = Some s' -> P s') ->
  forall l s s', Part_one_clusters.for_each body l s = Some s' -> P s -> P s'.
Proof.
  intros Hstep l. induction l as [| a r IH]; intros s s' H Hs.
  - unfold Part_one_clusters.for_each in H. simpl in H. now injection H as <-.
  - rewrite Search_facts.for_each_cons in H.
    destruct (body s a) as [s1 |] eqn:E; [ | discriminate ].
    apply (IH s1 s' H). now apply (Hstep s a).
Qed.

Lemma NoDup_update (s xs : list string) :
  NoDup s -> NoDup (Part_one_clusters.update s xs).
Proof.
  unfold Part_one_clusters.update. revert s.
  induction xs as [| a r IH]; intros s H; simpl; [ assumption | ].
  apply IH. now apply NoDup_set_add.
Qed.

Section Simple.

Import Part_one_clusters.

Variable o : Order.
Variable c2m m2c : list (string * list string).

Lemma visit_cardholder_sets (c : string) (s : state) :
  clusters (visit_cardholder o c2m m2c c s) = clusters s
  /\ (NoDup (current_cluster_cardholders s) ->
      NoDup (current_cluster_cardholders (visit_cardholder o c2m m2c c s))).
Proof.
  unfold visit_cardholder.
  destruct (mem c (visited_cardholders s)); [ now split | ].
  match goal with
  | |- context [fold_left _ ?l ?s0] =>
      destruct (Search_facts.fold_add_merchant o m2c l s0)
        as [F1 [_ [_ [F4 _]]]]
  end.
  simpl in F1, F4. rewrite F1, F4. split; [ reflexivity | ].
  apply NoDup_set_add.
Qed.

Lemma fold_pull_cardholder_sets (cs : list string) (s : state) :
  clusters (fold_left pull_cardholder cs s) = clusters s
  /\ (NoDup (current_cluster_cardholders s) ->
      NoDup (current_cluster_cardholders (fold_left pull_cardholder cs s))).
Proof.
  revert s. induction cs as [| a r IH]; intros s; simpl; [ now split | ].
  destruct (IH (pull_cardholder s a)) as [I1 I2].
  rewrite I1. unfold pull_cardholder in *.
  destruct (mem a (visited_cardholders s)); simpl in *;
    [ now split | ].
  split; [ reflexivity | ]. intros H. apply I2. now apply NoDup_set_add.
Qed.

Lemma fold_mark_merchant_sets (ms : list string) (s : state) :
  clusters (fold_left (mark_merchant o m2c) ms s) = clusters s
  /\ (NoDup (current_cluster_cardholders s) ->
      NoDup (current_cluster_cardholders
               (fold_left (mark_merchant o m2c) ms s))).
Proof.
  revert s. induction ms as [| a r IH]; intros s; simpl; [ now split | ].
  destruct (IH (mark_merchant o m2c s a)) as [I1 I2].
  rewrite I1. unfold mark_merchant in *.
  destruct (mem a (visited_merchants s)); [ now split | ].
  match goal with
  | |- context [fold_left pull_cardholder ?l ?s0] =>
      destruct (fold_pull_cardholder_sets l s0) as [P1 P2]
  end.
  simpl in P1, P2. rewrite P1. split; [ reflexivity | ].
  intros H. apply I2. now apply P2.
Qed.

Lemma NoDup_final_merchants (s : state) :
  NoDup (final_merchants_in_cluster o c2m s).
Proof.
  unfold final_merchants_in_cluster.
  assert (H : forall cs acc, NoDup acc ->
             NoDup (fold_left
                      (fun final c => update final (iter o (get c2m c)))
                      cs acc)).
  { induction cs as [| a r IH]; intros acc Hacc; simpl; [ assumption | ].
    apply IH. now apply NoDup_update. }
  apply H. constructor.
Qed.

(** The search from a cardholder appends a cluster with ascending member
    lists, if any. *)
Lemma from_cardholder_ascending (fuel : nat) (s s' : state) (start : string) :
  (forall cl ty, In cl (clusters s) -> ascending (same_side ty cl)) ->
  from_cardholder o c2m m2c fuel s start = Some s' ->
  forall cl ty, In cl (clusters s') -> ascending (same_side ty cl).
Proof.
  intros Hs H. unfold from_cardholder in H.
  destruct (mem start (visited_cardholders s));
    [ injection H as <-; assumption | ].
  match type of H with
  | context [explore_cardholders _ _ _ _ ?s00] => set (s0 := s00) in H
  end.
  destruct (explore_cardholders o c2m m2c fuel s0) as [s1 |] eqn:Ex;
    [ | discriminate ].
  set (Q := fun s2 : state =>
              clusters s2 = clusters s
              /\ NoDup (current_cluster_cardholders s2)).
  assert (Q1 : Q s1).
  { refine (proj1 (Search_facts.explore_cardholders_inv o c2m m2c Q _
                     fuel s0 s1 Ex _)).
    - intros s2 c rest _ [A B].
      destruct (visit_cardholder_sets c (with_stack_cardholders rest s2))
        as [V1 V2].
      split; [ now rewrite V1 | now apply V2 ].
    - split; [ reflexivity | constructor ]. }
  destruct Q1 as [A B].
  assert (Q2 : Q (mark_merchants o m2c s1)).
  { unfold Q, mark_merchants.
    cbn [with_stack_merchants clusters current_cluster_cardholders].
    destruct (fold_mark_merchant_sets
                (rev (iter o (current_cluster_merchants s1))) s1)
      as [M1 M2].
    split; [ now rewrite M1 | now apply M2 ]. }
  destruct Q2 as [A2 B2]. cbv zeta in H.
  destruct (negb _ || negb _); injection H as <-;
    [ | intros cl ty; rewrite A2; apply Hs ].
  intros cl ty Hcl. cbn [append_cluster clusters] in Hcl. rewrite A2 in Hcl.
  apply in_app_iff in Hcl. destruct Hcl as [Hcl | [<- | []]];
    [ now apply Hs | ].
  destruct ty; cbn [same_side cardholders merchants];
    apply sorted_list_ascending, NoDup_iter;
    [ assumption | apply NoDup_final_merchants ].
Qed.

End Simple.

(** The clusters of [find_clusters_simple] are the list of the components
    of the index. *)
Lemma simple_components (o : Order) (txs : list (string * string)) :
  exists cls,
    Part_one_clusters.find_clusters_simple o txs = Some cls
    /\ components_of (fst (create_interaction_graphs txs))
         (snd (create_interaction_graphs txs)) cls.
Proof.
  destruct (Search_facts.find_clusters_simple_run o txs)
    as [s [Hs [_ [Hf [P Hvis]]]]].
  exists (Part_one_clusters.clusters s). split; [ assumption | ].
  set (c2m := fst (create_interaction_graphs txs)) in *.
  set (m2c := snd (create_interaction_graphs txs)) in *.
  constructor.
  - intros cl ty e Hcl He.
    destruct (pi_component _ _ _ P cl Hcl) as [seed [Hkey [_ Hseed]]].
    apply Hseed in He.
    apply (Search_facts.connected_entity _ _ C ty seed e
             (Search_facts.index_both_ways txs)); assumption.
  - intros ty e He. apply (pi_visited _ _ _ P). now apply Hvis.
  - intros cl tx x ty y Hcl Hx.
    apply (Search_facts.component_of_member c2m m2c s cl tx ty x y
             (Search_facts.index_both_ways txs) P Hcl Hx).
  - intros cl Hcl.
    destruct (pi_component _ _ _ P cl Hcl) as [seed [_ [Hseed _]]].
    now exists C, seed.
  - intros cl ty Hcl. revert cl ty Hcl.
    unfold Part_one_clusters.cardholder_pass in Hs.
    refine (for_each_inv _
              (fun s => forall cl ty, In cl (Part_one_clusters.clusters s) ->
                                      ascending (same_side ty cl))
              _ _ _ _ Hs _).
    + intros s0 x s1 H0 H1.
      exact (from_cardholder_ascending o c2m m2c _ s0 s1 x H0 H1).
    + intros cl ty [].
  - apply NoDup_nth_error. intros i j Hi E.
    destruct (nth_error (Part_one_clusters.clusters s) i) as [cl |] eqn:Ei;
      [ | apply nth_error_None in Ei; lia ].
    symmetry in E.
    destruct (pi_component _ _ _ P cl (nth_error_In _ _ Ei))
      as [seed [_ [Hseed _]]].
    now apply (pi_apart _ _ _ P i j cl cl C seed).
Qed.

(** *** The clusters of mode (a) *)

Lemma fold_left_keeps {A B : Type} (P : A -> Prop) (f : A -> B -> A) :
  (forall a b, P a -> P (f a b)) ->
  forall l a, P a -> P (fold_left f l a).
Proof.
  intros Hf l. induction l as [| b r IH]; intros a Ha; simpl;
    [ assumption | ].
  apply IH. now apply Hf.
Qed.

Lemma In_update_at (i : nat) (f : cluster -> cluster) (l : list cluster)
  (cl : cluster) :
  In cl (Part_two.update_at i f l) ->
  In cl l \/ exists c0, In c0 l /\ cl = f c0.
Proof.
  revert i. induction l as [| x r IH]; intros i H; simpl in H.
  - destruct i; contradiction.
  - destruct i as [| i]; simpl in H.
    + destruct H as [<- | H]; [ right; exists x | left ]; simpl; auto.
    + destruct H as [<- | H]; [ left; now left | ].
      destruct (IH i H) as [H1 | [c0 [H1 H2]]].
      * left. now right.
      * right. exists c0. split; [ now right | assumption ].
Qed.

Lemma update_at_sets (i : nat) (ty : entity_type) (e : string)
  (l : list cluster) :
  member_sets l -> member_sets (Part_two.update_at i (add_member ty e) l).
Proof.
  intros H cl Hcl. apply In_update_at in Hcl.
  destruct Hcl as [Hcl | [c0 [Hc0 ->]]]; [ now apply H | ].
  destruct (H c0 Hc0) as [H1 H2].
  destruct ty; simpl; split; try assumption; now apply NoDup_set_add.
Qed.

Section Mode_a.

Import Part_two.

Variable o : Order.
Variable t : Q.

Lemma duplicate_entity_sets (ty : entity_type)
  (adj : list (string * list string)) (fc : list cluster) (e : string) :
  member_sets fc -> member_sets (duplicate_entity o t ty adj fc e).
Proof.
  intros H. unfold duplicate_entity.
  destruct (is_empty (get adj e)); [ assumption | ].
  destruct (sort_desc _) as [| [pid pc] others]; [ assumption | ].
  apply fold_left_keeps; [ | now apply update_at_sets ].
  intros a b Ha. unfold duplicate_into.
  destruct (duplicates _ _ _ _); [ now apply update_at_sets | assumption ].
Qed.

Lemma duplication_phase_sets (c2m m2c : list (string * list string))
  (cs : list cluster) :
  member_sets cs -> member_sets (duplication_phase o t c2m m2c cs).
Proof.
  intros H. unfold duplication_phase.
  apply fold_left_keeps; [ intros a b; apply duplicate_entity_sets | ].
  apply fold_left_keeps; [ intros a b; apply duplicate_entity_sets | ].
  assumption.
Qed.

Lemma bfs_step_sets (c2m m2c : list (string * list string)) (k : nat)
  (x : string) (b : bfs_state) :
  NoDup (current_cluster_cardholders b) /\ NoDup (current_cluster_merchants b) ->
  NoDup (current_cluster_cardholders (bfs_step o c2m m2c k x b))
  /\ NoDup (current_cluster_merchants (bfs_step o c2m m2c k x b)).
Proof.
  intros [H1 H2]. unfold bfs_step.
  destruct (prefix "C" x).
  - destruct (core_elsewhere _ _ _); [ now split | ].
    destruct (mem x (current_cluster_cardholders b)); simpl; [ now split | ].
    split; [ now apply NoDup_set_add | assumption ].
  - destruct (prefix "M" x); [ | now split ].
    destruct (core_elsewhere _ _ _); [ now split | ].
    destruct (mem x (current_cluster_merchants b)); simpl; [ now split | ].
    split; [ assumption | now apply NoDup_set_add ].
Qed.

(** The members of every core cluster are sets. *)
Lemma core_clusters_sets (txs : list (string * string)) (st : core_state) :
  core_clusters o txs = Some st -> member_sets (clusters st).
Proof.
  intros H. unfold core_clusters in H.
  set (c2m := fst (create_interaction_graphs txs)) in *.
  set (m2c := snd (create_interaction_graphs txs)) in *.
  set (P := fun st : core_state => member_sets (clusters st)).
  assert (Hstep : forall st0 s b,
             P st0 -> is_seed (un_c st0) (un_m st0) s = true ->
             bfs o c2m m2c (1 + total_degree c2m + total_degree m2c)
               (List.length (clusters st0)) (bfs_start st0 s) = Some b ->
             P (core_next st0 b)).
  { intros st0 s b HP _ Hb cl Hcl.
    assert (HQ : NoDup (current_cluster_cardholders b)
                 /\ NoDup (current_cluster_merchants b)).
    { refine (proj1 (Termination.bfs_inv o c2m m2c
                       (fun b => NoDup (current_cluster_cardholders b)
                                 /\ NoDup (current_cluster_merchants b))
                       _ _ _ _ _ Hb _)).
      - intros b0 x rest _ HQ.
        apply (bfs_step_sets c2m m2c _ x (with_queue rest b0) HQ).
      - split; constructor. }
    unfold core_next in Hcl. simpl in Hcl.
    destruct (negb _ || negb _); [ | now apply HP ].
    apply in_app_iff in Hcl. destruct Hcl as [Hcl | [<- | []]];
      [ now apply HP | exact HQ ]. }
  assert (Hinit : P {| clusters := []; core_ids := [];
                       un_c := keys c2m; un_m := keys m2c |})
    by (intros cl []).
  exact (Core_general.core_loop_keeps o c2m m2c P _ _ Hstep _ _ _ H Hinit).
Qed.

(** With ids that follow the convention, the clusters of mode (a) are the
    list of the components of the index. *)
Lemma mode_a_components (txs : list (string * string)) :
  ids_ok txs ->
  exists fc,
    find_clusters_with_duplication o t txs = Some fc
    /\ components_of (fst (create_interaction_graphs txs))
         (snd (create_interaction_graphs txs)) fc.
Proof.
  intros ids.
  destruct (Mode_a_facts.find_clusters_conventional o t txs ids)
    as [st [Hst [S [_ Hf]]]].
  exists (map sorted_cluster (clusters st)). split; [ assumption | ].
  pose proof (core_clusters_sets txs st Hst) as Hsets.
  assert (Hin : forall cl0, In cl0 (clusters st) -> exists ty e,
                  In e (same_side ty cl0)).
  { intros cl0 Hcl0. unfold core_clusters in Hst.
    destruct (Agreement.core_loop_inhabited o _ _ _ _ _ _ _ Hst
                (fun cl (H : In cl []) => match H with end) cl0 Hcl0)
      as [x Hx].
    apply Agreement.member_side in Hx. destruct Hx as [ty Hx].
    now exists ty, x. }
  constructor.
  - intros cl ty e Hcl He. apply in_map_iff in Hcl.
    destruct Hcl as [cl0 [<- Hcl0]].
    apply (proj1 (Mode_a_facts.same_side_sorted _ _ _)) in He.
    destruct (In_nth_error _ _ Hcl0) as [j Hj].
    apply (s_member _ _ _ _ S j cl0 ty e Hj He).
  - intros ty e He.
    destruct (s_assigned _ _ _ _ S ty e He) as [j [cl0 [_ [Hj Hin0]]]].
    exists (sorted_cluster cl0). split.
    + apply in_map. now apply nth_error_In in Hj.
    + now apply (proj2 (Mode_a_facts.same_side_sorted _ _ _)).
  - intros cl tx x ty y Hcl Hx. apply in_map_iff in Hcl.
    destruct Hcl as [cl0 [<- Hcl0]].
    apply (proj1 (Mode_a_facts.same_side_sorted _ _ _)) in Hx.
    rewrite Mode_a_facts.same_side_sorted.
    now apply (Agreement.core_components_sided o txs st ids Hst S).
  - intros cl Hcl. apply in_map_iff in Hcl.
    destruct Hcl as [cl0 [<- Hcl0]].
    destruct (Hin cl0 Hcl0) as [ty [e He]].
    exists ty, e. now apply (proj2 (Mode_a_facts.same_side_sorted _ _ _)).
  - intros cl ty Hcl. apply in_map_iff in Hcl.
    destruct Hcl as [cl0 [<- Hcl0]].
    destruct (Hsets cl0 Hcl0) as [H1 H2].
    now apply sorted_cluster_ascending.
  - apply NoDup_nth_error. intros i j Hi E.
    rewrite !nth_error_map in E.
    destruct (nth_error (clusters st) i) as [ci |] eqn:Ei.
    2:{ apply nth_error_None in Ei. rewrite length_map in Hi. lia. }
    destruct (nth_error (clusters st) j) as [cj |] eqn:Ej;
      [ | discriminate E ].
    cbn [option_map] in E.
    assert (E' : sorted_cluster ci = sorted_cluster cj) by congruence.
    destruct (Hin ci (nth_error_In _ _ Ei)) as [ty [e He]].
    assert (He' : In e (same_side ty cj)).
    { apply (proj1 (Mode_a_facts.same_side_sorted _ _ _)). rewrite <- E'.
      now apply (proj2 (Mode_a_facts.same_side_sorted _ _ _)). }
    destruct (s_member _ _ _ _ S i ci ty e Ei He) as [_ Gi].
    destruct (s_member _ _ _ _ S j cj ty e Ej He') as [_ Gj].
    congruence.
Qed.

End Mode_a.

(** *** Indexes with the same interactions *)

Section Same_index.

Variable c2m m2c c2m' m2c' : list (string * list string).

Hypothesis same_adjacency : forall ty u v,
  In v (get (adjacency c2m m2c ty) u)
  <-> In v (get (adjacency c2m' m2c' ty) u).

Hypothesis same_entities : forall ty e,
  entity c2m m2c ty e <-> entity c2m' m2c' ty e.

Lemma connected_same_index (tx ty : entity_type) (x y : string) :
  connected c2m m2c tx x ty y <-> connected c2m' m2c' tx x ty y.
Proof.
  split; intros H; induction H as [| ty' u v Hu IH Hv];
    try constructor;
    (eapply connected_next; [ exact IH | now apply same_adjacency ]).
Qed.

Lemma components_same_index (cls : list cluster) :
  components_of c2m m2c cls -> components_of c2m' m2c' cls.
Proof.
  intros K. constructor.
  - intros cl ty e Hcl He. apply same_entities.
    now apply (co_member _ _ _ K cl).
  - intros ty e He. apply same_entities in He.
    now apply (co_cover _ _ _ K).
  - intros cl tx x ty y Hcl Hx. rewrite <- connected_same_index.
    now apply (co_component _ _ _ K).
  - apply (co_inhabited _ _ _ K).
  - apply (co_ascending _ _ _ K).
  - apply (co_once _ _ _ K).
Qed.

End Same_index.

(** Lists with the same interactions give indexes with the same
    components. *)
Lemma components_same_interactions (txs txs' : list (string * string))
  (cls : list cluster) :
  (forall p, In p txs <-> In p txs') ->
  components_of (fst (create_interaction_graphs txs))
    (snd (create_interaction_graphs txs)) cls ->
  components_of (fst (create_interaction_graphs txs'))
    (snd (create_interaction_graphs txs')) cls.
Proof.
  intros Hsame. apply components_same_index.
  - intros [|] u v; simpl.
    + rewrite (proj1 (Part_one_facts.graphs_spec txs u v)).
      rewrite (proj1 (Part_one_facts.graphs_spec txs' u v)). apply Hsame.
    + rewrite (proj2 (Part_one_facts.graphs_spec txs v u)).
      rewrite (proj2 (Part_one_facts.graphs_spec txs' v u)). apply Hsame.
  - intros [|] e; unfold entity; simpl.
    + rewrite (proj1 (Core_facts.keys_graphs txs e e)).
      rewrite (proj1 (Core_facts.keys_graphs txs' e e)).
      split; intros [m H]; exists m; now apply Hsame.
    + rewrite (proj2 (Core_facts.keys_graphs txs e e)).
      rewrite (proj2 (Core_facts.keys_graphs txs' e e)).
      split; intros [c H]; exists c; now apply Hsame.
Qed.

(** X17: with ids that follow the convention, [find_clusters_simple] and
    mode (a), whatever its threshold and its shuffle, return the same
    clusters, with the same member lists, up to the order of the clusters in
    the list. *)
Theorem modes_agree (o o' : Order) (t : Q) (txs : list (string * string)) :
  ids_ok txs ->
  exists cls fc,
    Part_one_clusters.find_clusters_simple o txs = Some cls
    /\ Part_two.find_clusters_with_duplication o' t txs = Some fc
    /\ Permutation cls fc.
Proof.
  intros ids.
  destruct (simple_components o txs) as [cls [H1 K1]].
  destruct (mode_a_components o' t txs ids) as [fc [H2 K2]].
  exists cls, fc. split; [ assumption | split; [ assumption | ] ].
  now apply (components_unique _ _ cls fc K1 K2).
Qed.

Lemma modes_agree_witness :
  exists cls fc,
    Part_one_clusters.find_clusters_simple reversed_order
      [("C1", "M1"); ("C2", "M1"); ("C2", "M2")] = Some cls
    /\ Part_two.find_clusters_with_duplication insertion_order (3 # 10)
         [("C1", "M1"); ("C2", "M1"); ("C2", "M2")] = Some fc
    /\ Permutation cls fc.
Proof.
  exact (modes_agree reversed_order insertion_order (3 # 10)
           [("C1", "M1"); ("C2", "M1"); ("C2", "M2")]
           Mode_a_facts.example_ids_ok).
Defined.

(** X18: the clusters of [find_clusters_simple] depend only on the set of
    the interactions: two runs, whatever the order in which each iterates
    over its sets, on two lists with the same interactions, whatever their
    order and their repetitions, return the same clusters up to the order
    of the clusters in the list. *)
Theorem simple_clusters_order_free (o o' : Order)
  (txs txs' : list (string * string)) :
  (forall p, In p txs <-> In p txs') ->
  exists cls cls',
    Part_one_clusters.find_clusters_simple o txs = Some cls
    /\ Part_one_clusters.find_clusters_simple o' txs' = Some cls'
    /\ Permutation cls cls'.
Proof.
  intros Hsame.
  destruct (simple_components o txs) as [cls [H1 K1]].
  destruct (simple_components o' txs') as [cls' [H2 K2]].
  exists cls, cls'. split; [ assumption | split; [ assumption | ] ].
  apply (components_unique _ _ cls cls'
           (components_same_interactions txs txs' cls Hsame K1) K2).
Qed.

Lemma simple_clusters_order_free_witness :
  exists cls cls',
    Part_one_clusters.find_clusters_simple insertion_order
      [("C1", "M1"); ("C2", "M2"); ("C3", "M1")] = Some cls
    /\ Part_one_clusters.find_clusters_simple reversed_order
         [("C3", "M1"); ("C2", "M2"); ("C1", "M1"); ("C2", "M2")] = Some cls'
    /\ Permutation cls cls'.
Proof.
  apply (simple_clusters_order_free insertion_order reversed_order
           [("C1", "M1"); ("C2", "M2"); ("C3", "M1")]
           [("C3", "M1"); ("C2", "M2"); ("C1", "M1"); ("C2", "M2")]).
  intros p. simpl. tauto.
Defined.

(** X19: with ids that follow the convention, the clusters of mode (a)
    depend only on the set of the interactions: neither the shuffle of the
    start candidates, nor the order of iteration over the sets, nor the
    threshold, nor the order and the repetitions of the interactions change
    the clusters returned, up to their order in the list. *)
Theorem mode_a_order_free (o o' : Order) (t t' : Q)
  (txs txs' : list (string * string)) :
  ids_ok txs ->
  (forall p, In p txs <-> In p txs') ->
  exists fc fc',
    Part_two.find_clusters_with_duplication o t txs = Some fc
    /\ Part_two.find_clusters_with_duplication o' t' txs' = Some fc'
    /\ Permutation fc fc'.
Proof.
  intros ids Hsame.
  assert (ids' : ids_ok txs').
  { intros c m H. apply ids. now apply Hsame. }
  destruct (mode_a_components o t txs ids) as [fc [H1 K1]].
  destruct (mode_a_components o' t' txs' ids') as [fc' [H2 K2]].
  exists fc, fc'. split; [ assumption | split; [ assumption | ] ].
  apply (components_unique _ _ fc fc'
           (components_same_interactions txs txs' fc Hsame K1) K2).
Qed.

Lemma mode_a_order_free_witness :
  exists fc fc',
    Part_two.find_clusters_with_duplication insertion_order (3 # 10)
      [("C1", "M1"); ("C2", "M1"); ("C2", "M2")] = Some fc
    /\ Part_two.find_clusters_with_duplication reversed_order (9 # 10)
         [("C2", "M2"); ("C2", "M1"); ("C1", "M1"); ("C2", "M2")] = Some fc'
    /\ Permutation fc fc'.
Proof.
  apply (mode_a_order_free insertion_order reversed_order (3 # 10) (9 # 10)
           [("C1", "M1"); ("C2", "M1"); ("C2", "M2")]
           [("C2", "M2"); ("C2", "M1"); ("C1", "M1"); ("C2", "M2")]
           Mode_a_facts.example_ids_ok).
  intros p. simpl. tauto.
Defined.

(** X20: the member lists of every cluster that [find_clusters_simple] and
    mode (a) return are in ascending order, without repetition, for every
    input. *)
Theorem member_lists_ascending (o : Order) (t : Q)
  (txs : list (string * string)) :
  (exists cls,
      Part_one_clusters.find_clusters_simple o txs = Some cls
      /\ forall cl, In cl cls ->
           ascending (cardholders cl) /\ ascending (merchants cl))
  /\ (exists fc,
        Part_two.find_clusters_with_duplication o t txs = Some fc
        /\ forall cl, In cl fc ->
             ascending (cardholders cl) /\ ascending (merchants cl)).
Proof.
  split.
  - destruct (simple_components o txs) as [cls [H K]].
    exists cls. split; [ assumption | ].
    intros cl Hcl. split.
    + apply (co_ascending _ _ _ K cl C Hcl).
    + apply (co_ascending _ _ _ K cl M Hcl).
  - destruct (Termination.core_clusters_total o txs) as [st Hst].
    unfold Part_two.find_clusters_with_duplication. rewrite Hst.
    eexists. split; [ reflexivity | ].
    intros cl Hcl. apply in_map_iff in Hcl. destruct Hcl as [d [<- Hd]].
    destruct (duplication_phase_sets o t _ _ _
                (core_clusters_sets o txs st Hst) d Hd) as [H1 H2].
    split; [ now apply (sorted_cluster_ascending d C)
           | now apply (sorted_cluster_ascending d M) ].
Qed.

End Canonical.
